(** * Verification of the depth-aware compositor of [vis_on_image.py]

    The development embeds [combine_scene_image], [get_scene_render]
    and [main] of [src/vis_on_image.py].  NumPy arrays are nested lists with the
    library's broadcasting rules and exceptions, [float32] and [float64]
    values are IEEE-754 binary floats computed bit for bit
    ([SpecFloat]), [uint8] values are bytes, and the arrays a caller can
    observe live in a store, so that in-place updates are visible. *)

From Stdlib Require Import ZArith Lia Permutation.
From Stdlib Require Import Floats.SpecFloat.
From Stdlib Require Import Init.Byte Strings.Byte.
From Stdlib Require Import Strings.Ascii Strings.String.
From stdpp Require Import base option list gmap strings.

Local Open Scope Z_scope.

(** ** Floating point numbers

    [spec_float] carries sign, mantissa and exponent; the operations of
    a format are those of [SpecFloat] at its precision and exponent
    range, with rounding to nearest, ties to even. *)

Module F32.
Definition prec : Z := 24.
Definition emax : Z := 128.
Definition add : spec_float → spec_float → spec_float := SFadd prec emax.
Definition mul : spec_float → spec_float → spec_float := SFmul prec emax.
Definition div : spec_float → spec_float → spec_float := SFdiv prec emax.
Definition of_Z (z : Z) : spec_float := binary_normalize prec emax z 0 false.
(** conversion of a float of another format, [astype(np.float32)] *)
Definition round (x : spec_float) : spec_float :=
  match x with
  | S754_finite s m e => binary_round prec emax s m e
  | _ => x
  end.
End F32.

Module F64.
Definition prec : Z := 53.
Definition emax : Z := 1024.
Definition add : spec_float → spec_float → spec_float := SFadd prec emax.
Definition mul : spec_float → spec_float → spec_float := SFmul prec emax.
Definition div : spec_float → spec_float → spec_float := SFdiv prec emax.
Definition of_Z (z : Z) : spec_float := binary_normalize prec emax z 0 false.
(** the promotion of a [float32] operand: exact, only the
    representation changes *)
Definition round (x : spec_float) : spec_float :=
  match x with
  | S754_finite s m e => binary_round prec emax s m e
  | _ => x
  end.
End F64.

Definition fzero : spec_float := S754_zero false.
Definition finf : spec_float := S754_infinity false.
Definition fis_nan (x : spec_float) : bool :=
  match x with S754_nan => true | _ => false end.

(** [x == y], [x < y] on floats; the same in every format *)
Definition feqb (x y : spec_float) : bool := SFeqb x y.
Definition fltb (x y : spec_float) : bool := SFltb x y.

(** [np.minimum], which propagates NaN *)
Definition fmin (x y : spec_float) : spec_float :=
  if fis_nan x || fltb x y then x else y.

(** [np.clip(x, 0, 1)] on [float32]: [min(max(x, 0), 1)], NaN kept *)
Definition clip01 (x : spec_float) : spec_float :=
  let y := if fis_nan x || fltb fzero x then x else fzero in
  if fis_nan y || fltb y (F32.of_Z 1) then y else F32.of_Z 1.

(** ** Bytes *)

Definition u8 (b : byte) : Z := Z.of_N (Byte.to_N b).

Definition byte_of_Z (z : Z) : byte :=
  match Byte.of_N (Z.to_N (z mod 256)) with
  | Some b => b
  | None => x00
  end.

(** Integer part of a float, towards zero. *)
Definition trunc (x : spec_float) : option Z :=
  match x with
  | S754_zero _ => Some 0
  | S754_finite s m e => Some (cond_Zopp s (Z.shiftl (Z.pos m) e))
  | _ => None
  end.

(** [astype(np.uint8)] of a float: the fraction is dropped.  Outside of
    0..255 the C conversion is unspecified; the model wraps modulo 256
    and sends NaN and the infinities to 0, as x86-64 builds do. *)
Definition to_uint8 (x : spec_float) : byte :=
  match trunc x with
  | Some z => byte_of_Z z
  | None => x00
  end.

(** ** Exceptions *)

Inductive exn : Set :=
| ValueError    (* shapes that do not broadcast, ragged input, empty reduction *)
| IndexError    (* too many indices, index out of bounds *)
| TypeError     (* iteration over a 0-d array *)
| Dangling.     (* a reference outside the store; no caller produces one *)

Inductive result (A : Type) : Type :=
| Ok (x : A)
| Raise (e : exn).
Arguments Ok {A} x.
Arguments Raise {A} e.

#[global] Instance result_ret : MRet result := λ A x, Ok x.
#[global] Instance result_bind : MBind result := λ A B f m,
  match m with Ok x => f x | Raise e => Raise e end.
#[global] Instance result_fmap : FMap result := λ A B f m,
  match m with Ok x => Ok (f x) | Raise e => Raise e end.

(** ** Arrays

    An n-dimensional array is a scalar or a list of arrays of one
    dimension less; the outermost list is axis 0.  Every axis of an
    array of the model has at least one entry, except for the empty
    one-dimensional array [Ar []]. *)

#[local] Unset Elimination Schemes.
Inductive ndarray (A : Type) : Type :=
| Sc (x : A)
| Ar (l : list (ndarray A)).
#[local] Set Elimination Schemes.
Arguments Sc {A} x.
Arguments Ar {A} l.

Fixpoint ndim {A} (a : ndarray A) : nat :=
  match a with
  | Sc _ => 0
  | Ar [] => 1
  | Ar (x :: _) => S (ndim x)
  end.

Fixpoint shape {A} (a : ndarray A) : list nat :=
  match a with
  | Sc _ => []
  | Ar l => length l :: match l with [] => [] | x :: _ => shape x end
  end.

(** [has_shape s a]: [a] is rectangular with [a.shape == s] *)
Fixpoint has_shape {A} (s : list nat) (a : ndarray A) : bool :=
  match s, a with
  | [], Sc _ => true
  | n :: s', Ar l => Nat.eqb (length l) n && forallb (has_shape s') l
  | _, _ => false
  end.

(** elementwise application, [astype] and operations with a scalar *)
Fixpoint nd_map {A B} (f : A → B) (a : ndarray A) : ndarray B :=
  match a with
  | Sc x => Sc (f x)
  | Ar l => Ar (nd_map f <$> l)
  end.

(** [np.expand_dims(a, axis=0)], [n] times *)
Definition expand_dims0 {A} (n : nat) (a : ndarray A) : ndarray A :=
  Nat.iter n (λ x, Ar [x]) a.

(** [a[..., np.newaxis]] *)
Fixpoint newaxis_last {A} (a : ndarray A) : ndarray A :=
  match a with
  | Sc x => Ar [Sc x]
  | Ar l => Ar (newaxis_last <$> l)
  end.

(** Operands of equal rank: along each axis the lengths agree or one of
    them is 1 and is stretched. *)
Fixpoint bc2 {A B C} (f : A → B → C) (a : ndarray A) (b : ndarray B)
    {struct a} : result (ndarray C) :=
  match a, b with
  | Sc x, Sc y => Ok (Sc (f x y))
  | Ar la, Ar lb =>
      if Nat.eqb (length la) (length lb)
      then Ar <$> mapM id (zip_with (bc2 f) la lb)
      else match la, lb with
           | [a0], _ => Ar <$> mapM (bc2 f a0) lb
           | _, [b0] => Ar <$> mapM (λ x, bc2 f x b0) la
           | _, _ => Raise ValueError
           end
  | _, _ => Raise ValueError
  end.

(** NumPy broadcasting of a binary operation: the shape of lower rank
    gets leading axes of length 1. *)
Definition broadcast {A B C} (f : A → B → C) (a : ndarray A) (b : ndarray B)
    : result (ndarray C) :=
  bc2 f (expand_dims0 (ndim b - ndim a) a) (expand_dims0 (ndim a - ndim b) b).

(** [g] applied below [k] leading [:] slices; an array of fewer than
    [k] axes has too many indices *)
Fixpoint at_depth {A B} (k : nat) (g : ndarray A → result (ndarray B))
    (a : ndarray A) : result (ndarray B) :=
  match k with
  | O => g a
  | S k' =>
      match a with
      | Sc _ => Raise IndexError
      | Ar l => Ar <$> mapM (at_depth k' g) l
      end
  end.

(** [a[..., -1]], [a[..., 0]], [a[..., :-1]] and [a[..., np.newaxis]] at
    the position of the last index *)
Definition nd_last {A} (a : ndarray A) : result (ndarray A) :=
  match a with
  | Ar l => match last l with Some x => Ok x | None => Raise IndexError end
  | Sc _ => Raise IndexError
  end.

Definition nd_first {A} (a : ndarray A) : result (ndarray A) :=
  match a with
  | Ar (x :: _) => Ok x
  | _ => Raise IndexError
  end.

Definition nd_init {A} (a : ndarray A) : result (ndarray A) :=
  match a with
  | Ar l => Ok (Ar (removelast l))
  | Sc _ => Raise IndexError
  end.

Definition nd_newaxis {A} (a : ndarray A) : result (ndarray A) := Ok (Ar [a]).

(** [a[idx]] *)
Definition nd_get {A} (a : ndarray A) (idx : nat) : result (ndarray A) :=
  match a with
  | Ar l => match l !! idx with Some x => Ok x | None => Raise IndexError end
  | Sc _ => Raise IndexError
  end.

(** [np.asarray] of a list of arrays: they must agree in shape *)
Definition stack {A} (l : list (ndarray A)) : result (ndarray A) :=
  match l with
  | [] => Ok (Ar [])
  | x :: _ =>
      if forallb (has_shape (shape x)) l then Ok (Ar l) else Raise ValueError
  end.

(** iteration over axis 0 *)
Definition nd_iter {A} (a : ndarray A) : result (list (ndarray A)) :=
  match a with
  | Ar l => Ok l
  | Sc _ => Raise TypeError
  end.

Definition foldM {A B} (f : B → A → result B) : list A → B → result B :=
  fix go l acc :=
    match l with
    | [] => Ok acc
    | x :: l' => acc' ← f acc x; go l' acc'
    end.

(** [a.min(axis=0)]: no identity, the first entry starts the reduction *)
Definition amin0 (a : ndarray spec_float) : result (ndarray spec_float) :=
  match a with
  | Ar (x :: l) => foldM (bc2 fmin) l x
  | _ => Raise ValueError
  end.

(** [np.sum(a, axis=0)]: the reduction starts from the identity [zero];
    an empty array sums to the scalar [zero] *)
Definition sum0 {A} (add : A → A → A) (zero : A) (a : ndarray A)
    : result (ndarray A) :=
  match a with
  | Ar [] => Ok (Sc zero)
  | Ar (x :: l) => foldM (bc2 add) (x :: l) (nd_map (λ _, zero) x)
  | Sc _ => Raise ValueError
  end.

(** array literals *)
Definition of1 {A} (l : list A) : ndarray A := Ar (Sc <$> l).
Definition of2 {A} (l : list (list A)) : ndarray A := Ar (of1 <$> l).
Definition of3 {A} (l : list (list (list A))) : ndarray A := Ar (of2 <$> l).

(** ** The store

    The arrays the caller holds are objects of a store; a call that
    writes through a reference changes what the caller sees. *)

Definition loc : Set := positive.
Abbreviation store := (gmap loc (ndarray spec_float)).

Definition py (A : Type) : Type := store → result A * store.

#[global] Instance py_ret : MRet py := λ A x σ, (Ok x, σ).
#[global] Instance py_bind : MBind py := λ A B f m σ,
  match m σ with
  | (Ok x, σ') => f x σ'
  | (Raise e, σ') => (Raise e, σ')
  end.

Definition lift {A} (r : result A) : py A := λ σ, (r, σ).

Definition load (l : loc) : py (ndarray spec_float) := λ σ,
  (match σ !! l with Some a => Ok a | None => Raise Dangling end, σ).

Definition store_at (l : loc) (a : ndarray spec_float) : py unit := λ σ,
  (Ok (), <[l := a]> σ).

(** What a local variable is bound to: an object of the caller, seen
    as it is or through the view [x[..., np.newaxis]], or an array the
    call has made itself, which nothing else refers to. *)
Inductive handle : Type :=
| Shared (l : loc) (newaxis : bool)
| Fresh (a : ndarray spec_float).

Definition deref (h : handle) : py (ndarray spec_float) :=
  match h with
  | Shared l na => a ← load l; mret (if na then newaxis_last a else a)
  | Fresh a => mret a
  end.

Definition view_newaxis (h : handle) : handle :=
  match h with
  | Shared l _ => Shared l true
  | Fresh a => Fresh (newaxis_last a)
  end.

Definition sentinel_to_inf (x : spec_float) : spec_float :=
  if feqb x fzero then finf else x.

(** [x[x == 0] = np.inf]: writes into the buffer [x] views *)
Definition set_sentinels (h : handle) : py handle :=
  match h with
  | Shared l na =>
      a ← load l; store_at l (nd_map sentinel_to_inf a);; mret (Shared l na)
  | Fresh a => mret (Fresh (nd_map sentinel_to_inf a))
  end.

(** ** [combine_scene_image] *)

(** [scene_rgba] is an [np.ndarray] or a list of them; [scene_depth] is
    [None], an [np.ndarray] object or a list of such objects. *)
Inductive rgba_arg : Type :=
| RArr (a : ndarray byte)
| RList (l : list (ndarray byte)).

Inductive depth_arg : Type :=
| DArr (l : loc)
| DList (ls : list loc).

Definition asarray_rgba (r : rgba_arg) : result (ndarray byte) :=
  match r with
  | RArr a => Ok a
  | RList l => stack l
  end.

(** [np.asarray(x) / 255.0] on [uint8] is a [float64] division, rounded
    to [float32] by [astype]; [x.astype(np.float32) / 255.0] divides in
    [float32]. *)
Definition normalize_image (b : byte) : spec_float :=
  F32.round (F64.div (F64.of_Z (u8 b)) (F64.of_Z 255)).
Definition normalize_scene (b : byte) : spec_float :=
  F32.div (F32.of_Z (u8 b)) (F32.of_Z 255).

(** [float32 * bool]: the mask is cast to 1.0 or 0.0 *)
Definition mask_mul (x : spec_float) (m : bool) : spec_float :=
  F32.mul x (F32.of_Z (Z.b2z m)).
(** [int64 * float32] is a [float64] product *)
Definition int_mul (z : Z) (x : spec_float) : spec_float :=
  F64.mul (F64.of_Z z) (F64.round x).
(** [float32 + float64] is a [float64] sum *)
Definition mixed_add (x y : spec_float) : spec_float :=
  F64.add (F64.round x) y.
Definition to_display (x : spec_float) : byte :=
  to_uint8 (F64.mul x (F64.of_Z 255)).

(** Lines 151 to 159, the body of the loop for layer [idx]: the
    contribution of the layer and its mask. *)
Definition scene_step (depth : option (ndarray spec_float * ndarray spec_float))
    (idx : nat) (scene : ndarray spec_float)
    : result (ndarray spec_float * ndarray bool) :=
  alpha ← at_depth 2 nd_last scene;
  valid_mask ← at_depth 2 nd_newaxis (nd_map (fltb fzero) alpha);
  valid_mask ← match depth with
               | None => Ok valid_mask
               | Some (scene_depth, min_depth) =>
                   d ← nd_get scene_depth idx;
                   depth_mask ← broadcast feqb d min_depth;
                   broadcast andb valid_mask depth_mask
               end;
  rgb ← at_depth 2 nd_init scene;
  body ← broadcast mask_mul rgb valid_mask;
  Ok (body, valid_mask).

(** Lines 145 to 163. *)
Definition overlay (scene_rgba : rgba_arg) (original_image : ndarray byte)
    (depth : option (ndarray spec_float * ndarray spec_float))
    : result (ndarray byte) :=
  let original_normalized := nd_map normalize_image original_image in
  stacked ← asarray_rgba scene_rgba;
  let scenes_normalized := nd_map normalize_scene stacked in
  scenes ← nd_iter scenes_normalized;
  steps ← mapM id (imap (scene_step depth) scenes);
  let bodies := fst <$> steps in
  let valid_masks := snd <$> steps in
  masks ← stack valid_masks;
  covered ← sum0 Z.add 0 (nd_map Z.b2z masks);
  covered0 ← at_depth 2 nd_first covered;
  body_mask ← at_depth 2 nd_newaxis (nd_map (Z.ltb 0) covered0);
  layers ← stack bodies;
  summed ← sum0 F32.add fzero layers;
  let clipped := nd_map clip01 summed in
  background ← broadcast int_mul (nd_map (λ m : bool, 1 - Z.b2z m) body_mask)
                 original_normalized;
  output_image ← broadcast mixed_add clipped background;
  Ok (nd_map to_display output_image).

(** Lines 136 to 143: the depth buffers as one array with the
    sentinels replaced, and their minimum over the layers.  An
    [np.ndarray] argument is used as it is, a list is copied into a
    new array by [np.asarray]. *)
Definition prepare_depth (scene_depth : option depth_arg)
    : py (option (ndarray spec_float * ndarray spec_float)) :=
  match scene_depth with
  | None => mret None
  | Some d =>
      h ← match d with
          | DArr l => mret (Shared l false)
          | DList ls => vs ← mapM load ls; a ← lift (stack vs); mret (Fresh a)
          end;
      a ← deref h;
      let h := if (ndim a <? 4)%nat then view_newaxis h else h in
      h ← set_sentinels h;
      scene_depth ← deref h;
      min_depth ← lift (amin0 scene_depth);
      mret (Some (scene_depth, min_depth))
  end.

(** The function; the image it returns is the [uint8] raster that
    [PIL.Image.fromarray] wraps. *)
Definition combine_scene_image (scene_rgba : rgba_arg)
    (original_image : ndarray byte) (scene_depth : option depth_arg)
    : py (ndarray byte) :=
  let scene_rgba :=
    match scene_rgba with
    | RArr a => if (ndim a <? 4)%nat then RArr (expand_dims0 1 a) else RArr a
    | RList l => RList l
    end in
  depth ← prepare_depth scene_depth;
  lift (overlay scene_rgba original_image depth).

(** ** [get_scene_render]

    The rendering engine is not part of the repository.  The model
    records what the function hands to it: the mesh, the camera with
    its pose, the lights of [_create_raymond_lights] and the viewport;
    what the engine returns is a parameter.  The background colour and
    the ambient light of the scene are constants and are left out. *)

Record camera : Type :=
  Camera { cam_fx : spec_float; cam_fy : spec_float;
           cam_cx : spec_float; cam_cy : spec_float }.

Record scene (Mesh Light : Type) : Type :=
  Scene { scene_mesh : Mesh;
          scene_camera : camera;
          scene_camera_pose : ndarray spec_float;
          scene_lights : list Light }.
Arguments Scene {Mesh Light}.
Arguments scene_mesh {Mesh Light}.
Arguments scene_camera {Mesh Light}.
Arguments scene_camera_pose {Mesh Light}.
Arguments scene_lights {Mesh Light}.

(** [x[0] *= -1.0] on an array of [float32], as the fitting stage
    stores them: every entry under index 0 is multiplied *)
Definition negate_first (a : ndarray spec_float) : result (ndarray spec_float) :=
  match a with
  | Ar (x :: l) => Ok (Ar (nd_map (λ v, F32.mul v (F32.of_Z (-1))) x :: l))
  | _ => Raise IndexError
  end.

(** the three values that [camera_pose[:3, 3] = t] writes: [t] has
    three entries, or one that is repeated, below leading axes of
    length 1 *)
Fixpoint column3 (t : ndarray spec_float)
    : result (spec_float * spec_float * spec_float) :=
  match t with
  | Sc a => Ok (a, a, a)
  | Ar [Sc a; Sc b; Sc c] => Ok (a, b, c)
  | Ar [x] => column3 x
  | _ => Raise ValueError
  end.

(** [np.eye(4)] with its last column set, in [float64] *)
Definition camera_pose_of (t : spec_float * spec_float * spec_float)
    : ndarray spec_float :=
  let '(x, y, z) := t in
  let one := F64.of_Z 1 in
  of2 [[one; fzero; fzero; F64.round x];
       [fzero; one; fzero; F64.round y];
       [fzero; fzero; one; F64.round z];
       [fzero; fzero; fzero; one]].

Definition scalar_at (a : ndarray spec_float) (idx : nat) : result spec_float :=
  x ← nd_get a idx;
  match x with
  | Sc v => Ok v
  | Ar _ => Raise TypeError
  end.

Section renderer.
Context {Mesh Light : Type}.
Context (raymond_lights : list Light).
Context (render : scene Mesh Light → nat → nat
                  → ndarray byte * ndarray spec_float).

Definition get_scene_render (body_mesh : Mesh) (image_width image_height : nat)
    (camera_center : ndarray spec_float) (camera_translation : loc)
    (camera_focal_length : spec_float)
    : py (ndarray byte * ndarray spec_float) :=
  t ← load camera_translation;
  t ← lift (negate_first t);
  store_at camera_translation t;;
  xyz ← lift (column3 t);
  let camera_pose := camera_pose_of xyz in
  cx ← lift (scalar_at camera_center 0);
  cy ← lift (scalar_at camera_center 1);
  let cam := Camera camera_focal_length camera_focal_length cx cy in
  mret (render (Scene body_mesh cam camera_pose raymond_lights)
          image_width image_height).
End renderer.
(** * Definitions for the statements and the proofs *)

(** ** Concrete pixels, for the examples *)

Definition px (r g b a : Z) : list byte :=
  [byte_of_Z r; byte_of_Z g; byte_of_Z b; byte_of_Z a].
Definition rgb (r g b : Z) : list byte :=
  [byte_of_Z r; byte_of_Z g; byte_of_Z b].
Definition fl (z : Z) : spec_float := F32.of_Z z.


(** ** Rectangular arrays given by their entries *)

Definition tab {A} (n : nat) (f : nat → A) : list A := f <$> seq 0 n.

Definition T1 {A} (C : nat) (f : nat → A) : ndarray A :=
  Ar (tab C (λ c, Sc (f c))).
Definition T2 {A} (W C : nat) (f : nat → nat → A) : ndarray A :=
  Ar (tab W (λ j, T1 C (f j))).
Definition T3 {A} (H W C : nat) (f : nat → nat → nat → A) : ndarray A :=
  Ar (tab H (λ i, T2 W C (f i))).

(** the entry at a multi-index *)
Fixpoint nd_lookup {A} (a : ndarray A) (ix : list nat) : option A :=
  match a, ix with
  | Sc x, [] => Some x
  | Ar l, i :: ix' =>
      match l !! i with Some x => nd_lookup x ix' | None => None end
  | _, _ => None
  end.

Definition nd_at {A} (d : A) (a : ndarray A) (ix : list nat) : A :=
  default d (nd_lookup a ix).

(** ** The compositor, pixel by pixel *)

(** What the layers hold at one pixel and channel: the value of the
    channel, the alpha value and the depth of each layer. *)
Record sample : Type :=
  Sample { s_value : byte; s_alpha : byte; s_depth : spec_float }.

Definition covers (s : sample) : bool :=
  fltb fzero (normalize_scene (s_alpha s)).

Definition corrected_depth (s : sample) : spec_float :=
  sentinel_to_inf (s_depth s).

Definition min_depth_of (ss : list sample) : spec_float :=
  match ss with
  | [] => finf
  | s :: ss' => fold_left fmin (corrected_depth <$> ss') (corrected_depth s)
  end.

(** the mask of a layer at the pixel, [valid_mask] of the loop *)
Definition effective (use_depth : bool) (ss : list sample) (s : sample) : bool :=
  if use_depth
  then covers s && feqb (corrected_depth s) (min_depth_of ss)
  else covers s.

Definition pixel_covered (use_depth : bool) (ss : list sample) : Z :=
  fold_left Z.add (Z.b2z <$> (effective use_depth ss <$> ss)) 0.

Definition pixel_sum (use_depth : bool) (ss : list sample) : spec_float :=
  fold_left F32.add
    ((λ s, mask_mul (normalize_scene (s_value s)) (effective use_depth ss s))
       <$> ss) fzero.

(** lines 160 to 163 at one pixel and channel *)
Definition pixel_out (use_depth : bool) (ss : list sample) (bg : byte) : byte :=
  let body_mask := 0 <? pixel_covered use_depth ss in
  to_display
    (mixed_add (clip01 (pixel_sum use_depth ss))
       (int_mul (1 - Z.b2z body_mask) (normalize_image bg))).

(** the samples of a batch given by its entries: [L k i j c] is channel
    [c] of layer [k] at row [i] and column [j], [D k i j] its depth *)
Definition sample_at (L : nat → nat → nat → nat → byte)
    (D : nat → nat → nat → spec_float) (k i j c : nat) : sample :=
  Sample (L k i j c) (L k i j 3%nat) (D k i j).

Definition samples_at (n : nat) (L : nat → nat → nat → nat → byte)
    (D : nat → nat → nat → spec_float) (i j c : nat) : list sample :=
  tab (S n) (λ k, sample_at L D k i j c).

Definition depths_at (H W n : nat) (D : nat → nat → nat → spec_float)
    : ndarray spec_float :=
  Ar (tab (S n) (λ k, T3 H W 1 (λ i j _, sentinel_to_inf (D k i j)))).

Definition min_depth_at (H W n : nat) (L : nat → nat → nat → nat → byte)
    (D : nat → nat → nat → spec_float) : ndarray spec_float :=
  T3 H W 1 (λ i j _, min_depth_of (samples_at n L D i j 0)).

Definition depth_of (H W n : nat) (L : nat → nat → nat → nat → byte)
    (D : nat → nat → nat → spec_float) (use_depth : bool)
    : option (ndarray spec_float * ndarray spec_float) :=
  if use_depth then Some (depths_at H W n D, min_depth_at H W n L D) else None.

Definition mask_at (n : nat) (L : nat → nat → nat → nat → byte)
    (D : nat → nat → nat → spec_float) (use_depth : bool) (k i j : nat) : bool :=
  effective use_depth (samples_at n L D i j 0) (sample_at L D k i j 0).

(** ** Sums of normalized bytes in [float32]

    The partial sums of a pixel stay in a small table while the bytes
    summed so far do not exceed 255, and at or above 1.0 after that. *)

(** at least 1.0, in normal form *)
Definition big (x : spec_float) : bool :=
  match x with
  | S754_infinity false => true
  | S754_finite false m e => (-23 <=? e) && (Z.pos (digits2_pos m) =? 24)
  | _ => false
  end.

(** zero or positive, with an exponent of a number up to 1.0 *)
Definition small (y : spec_float) : bool :=
  match y with
  | S754_zero false => true
  | S754_finite false m e => (e <=? -23) && (-149 <=? e)
  | _ => false
  end.

(** the second rounding step of [binary_round_aux] *)
Definition stage2 (m e : Z) : spec_float :=
  let '(mrs, e') := shr_fexp 24 128 m e loc_Exact in
  match shr_m mrs with
  | 0 => S754_zero false
  | Z.pos m0 =>
      if e' <=? 128 - 24 then S754_finite false m0 e' else S754_infinity false
  | Z.neg _ => S754_nan
  end.

Definition sf_eqb (x y : spec_float) : bool :=
  match x, y with
  | S754_zero s, S754_zero s' => Bool.eqb s s'
  | S754_infinity s, S754_infinity s' => Bool.eqb s s'
  | S754_nan, S754_nan => true
  | S754_finite s m e, S754_finite s' m' e' =>
      Bool.eqb s s' && Pos.eqb m m' && Z.eqb e e'
  | _, _ => false
  end.

Definition byte_of_nat (n : nat) : byte := byte_of_Z (Z.of_nat n).
Definition all_bytes : list byte := byte_of_nat <$> seq 0 256.

Definition insert_sf (acc : list spec_float) (x : spec_float) : list spec_float :=
  if existsb (sf_eqb x) acc then acc else acc ++ [x].

(** the sums that reach the total [length tbl] from the rows of the
    smaller totals *)
Definition next_row (tbl : list (list spec_float)) : list spec_float :=
  let n := length tbl in
  fold_left insert_sf (concat (imap (λ S' row,
     (λ x, F32.add x (normalize_scene (byte_of_nat (n - S')))) <$> row) tbl)) [].

Definition sum_table : list (list spec_float) :=
  Eval vm_compute in Nat.iter 255 (λ tbl, tbl ++ [next_row tbl]) [[fzero]].

Definition sum_row (S : nat) : list spec_float := default [] (sum_table !! S).

Definition reached (S : Z) (x : spec_float) : bool :=
  if S <=? 255 then existsb (sf_eqb x) (sum_row (Z.to_nat S)) else big x.

Definition closed_at (S : nat) : bool :=
  forallb (λ x, forallb (λ b,
     reached (Z.of_nat S + u8 b) (F32.add x (normalize_scene b))) all_bytes)
    (sum_row S).

(** a clipped sum on a covered pixel, as it is displayed *)
Definition shown (x : spec_float) : byte :=
  to_display (mixed_add (clip01 x) fzero).

Definition total (bs : list byte) : Z := fold_right Z.add 0 (u8 <$> bs).

(** what is checked of every byte by evaluation *)
Definition byte_facts (b : byte) : bool :=
  sf_eqb (mask_mul (normalize_scene b) true) (normalize_scene b)
  && sf_eqb (mask_mul (normalize_scene b) false) fzero
  && Bool.eqb (fltb fzero (normalize_scene b)) (0 <? u8 b)
  && sf_eqb (int_mul 0 (normalize_image b)) fzero
  && Byte.eqb (to_display (mixed_add (clip01 fzero) (int_mul 1 (normalize_image b)))) b
  && small (normalize_scene b).

(** ** The compositor without floats

    The value of a layer that counts at the pixel is its byte, that of
    any other layer is 0; a covered pixel shows the sum of the values,
    saturated at 255, and a pixel no layer covers shows the background. *)
Definition masked_value (use_depth : bool) (ss : list sample) (s : sample) : byte :=
  if effective use_depth ss s then s_value s else x00.

Definition composite_pixel (use_depth : bool) (ss : list sample) (bg : byte) : byte :=
  if existsb (effective use_depth ss) ss
  then byte_of_Z (Z.min 255 (total (masked_value use_depth ss <$> ss)))
  else bg.

(** ** The order of depth values

    [SFcompare] orders the floats that are not NaN like the triples
    [rank]: the class of the float, then exponent and mantissa. *)
Definition rank (x : spec_float) : option (Z * Z * Z) :=
  match x with
  | S754_nan => None
  | S754_infinity true => Some (-2, 0, 0)
  | S754_infinity false => Some (2, 0, 0)
  | S754_zero _ => Some (0, 0, 0)
  | S754_finite false m e => Some (1, e, Z.pos m)
  | S754_finite true m e => Some (-1, - e, Z.neg m)
  end.

Definition lex3 (r1 r2 : Z * Z * Z) : comparison :=
  let '(a, b, c) := r1 in
  let '(a', b', c') := r2 in
  match a ?= a' with
  | Eq => match b ?= b' with Eq => c ?= c' | r => r end
  | r => r
  end.

Definition lt3 (r1 r2 : Z * Z * Z) : Prop :=
  let '(a, b, c) := r1 in
  let '(a', b', c') := r2 in
  a < a' ∨ (a = a' ∧ (b < b' ∨ (b = b' ∧ c < c'))).

(** [x <= y] for floats that are not NaN *)
Definition fle (x y : spec_float) : Prop :=
  match rank x, rank y with
  | Some r1, Some r2 => ¬ lt3 r2 r1
  | _, _ => False
  end.

(** ** Batches

    A batch pairs each layer with its depth buffer; a call without
    depth does not look at the buffers. *)
Abbreviation batch := (list (ndarray byte * ndarray spec_float)).

Definition sample_of (i j c : nat) (p : ndarray byte * ndarray spec_float) : sample :=
  Sample (nd_at x00 p.1 [i; j; c]) (nd_at x00 p.1 [i; j; 3%nat])
         (nd_at fzero p.2 [i; j]).

Definition batch_samples (b : batch) (i j c : nat) : list sample :=
  sample_of i j c <$> b.

(** the entries of the layers and depth buffers of a batch *)
Definition layer_entry (b : batch) (k i j c : nat) : byte :=
  nd_at x00 (default (Sc x00, Sc fzero) (b !! k)).1 [i; j; c].
Definition depth_entry (b : batch) (k i j : nat) : spec_float :=
  nd_at fzero (default (Sc x00, Sc fzero) (b !! k)).2 [i; j].

(** all layers are [H x W x 4] and all depth buffers [H x W] *)
Definition rasters (H W : nat) (b : batch) : Prop :=
  Forall (λ p, has_shape [H; W; 4%nat] p.1 = true ∧ has_shape [H; W] p.2 = true) b.

(** the depth buffers of the batch are the objects at [locs] *)
Definition stored (σ : store) (locs : list loc) (b : batch) : Prop :=
  Forall2 (λ l p, σ !! l = Some p.2) locs b.

Definition depth_arg_of (use_depth : bool) (locs : list loc) : option depth_arg :=
  if use_depth then Some (DList locs) else None.

(** the image of the integer specification *)
Definition composite (H W : nat) (use_depth : bool) (b : batch)
    (bg : ndarray byte) : ndarray byte :=
  T3 H W 3 (λ i j c,
    composite_pixel use_depth (batch_samples b i j c) (nd_at x00 bg [i; j; c])).

(** two sizes broadcast against each other *)
Definition compatible (a b : nat) : Prop := a = b ∨ a = 1%nat ∨ b = 1%nat.

(** ** Inputs of the examples *)

(** a layer of two rows and one column, its background and its depth *)
Definition ex_rgba : ndarray byte := of3 [[px 10 20 30 255]; [px 40 50 60 255]].
Definition ex_image : ndarray byte := of3 [[rgb 1 2 3]; [rgb 4 5 6]].
Definition ex_depth : ndarray spec_float := of2 [[fl 2]; [fl 1]].
Definition ex_store : store := {[ 1%positive := ex_depth ]}.

(** two layers of one pixel at the same depth *)
Definition tie_a : ndarray byte := of3 [[px 100 0 0 255]].
Definition tie_b : ndarray byte := of3 [[px 0 100 0 255]].
Definition tie_image : ndarray byte := of3 [[rgb 7 7 7]].
Definition tie_depth : ndarray spec_float := of2 [[fl 1]].
Definition tie_store : store :=
  {[ 1%positive := tie_depth; 2%positive := tie_depth ]}.

(** a layer of two rows and two columns on a background of one pixel *)
Definition wide_rgba : ndarray byte :=
  of3 [[px 1 2 3 255; px 1 2 3 0]; [px 1 2 3 0; px 1 2 3 255]].
Definition small_image : ndarray byte := of3 [[rgb 7 8 9]].
Definition tall_image : ndarray byte :=
  of3 [[rgb 7 8 9]; [rgb 7 8 9]; [rgb 7 8 9]].

(** two layers of one pixel, one behind the other *)
Definition near_rgba : ndarray byte := of3 [[px 200 10 0 255]].
Definition far_rgba : ndarray byte := of3 [[px 0 20 250 255]].
Definition near_depth : ndarray spec_float := of2 [[fl 1]].
Definition far_depth : ndarray spec_float := of2 [[fl 2]].
Definition no_depth : ndarray spec_float := of2 [[fzero]].
Definition pair_store : store :=
  {[ 1%positive := near_depth; 2%positive := far_depth ]}.
Definition sentinel_store : store :=
  {[ 1%positive := no_depth; 2%positive := far_depth ]}.

(** two opaque layers of one pixel, red and green, and an empty layer *)
Definition red_rgba : ndarray byte := of3 [[px 255 0 0 255]].
Definition green_rgba : ndarray byte := of3 [[px 0 255 0 255]].
Definition empty_rgba : ndarray byte := of3 [[px 90 90 90 0]].

(** a camera translation and a principal point *)
Definition ex_translation : ndarray spec_float := of1 [fl 3; fl 4; fl 5].
Definition ex_center : ndarray spec_float := of1 [fl 320; fl 240].

(** ** Further inputs of examples *)

(** a layer of one pixel with alpha 1, a depth buffer that holds NaN *)
Definition faint_rgba : ndarray byte := of3 [[px 200 10 0 1]].
Definition nan_depth : ndarray spec_float := of2 [[S754_nan]].
Definition nan_store : store :=
  {[ 1%positive := nan_depth; 2%positive := far_depth ]}.
(** a background of one pixel with four channels *)
Definition rgba_image : ndarray byte := of3 [[px 7 7 7 255]].

(** ** Shapes under broadcasting

    The length of an axis of the result, where the two lengths agree or
    one of them is 1; shapes of equal rank axis by axis; shapes of any
    rank, the shorter one with leading axes of length 1. *)
Definition bdim (n n' : nat) : option nat :=
  if Nat.eqb n n' then Some n
  else if Nat.eqb n 1 then Some n'
  else if Nat.eqb n' 1 then Some n
  else None.

Fixpoint bshape2 (s t : list nat) : option (list nat) :=
  match s, t with
  | [], [] => Some []
  | n :: s', n' :: t' =>
      match bdim n n', bshape2 s' t' with
      | Some d, Some u => Some (d :: u)
      | _, _ => None
      end
  | _, _ => None
  end.

Definition bshape (s t : list nat) : option (list nat) :=
  bshape2 (replicate (length t - length s) 1%nat ++ s)
          (replicate (length s - length t) 1%nat ++ t).

(** * The command line program

    [main] of [src/vis_on_image.py] with the functions it calls.  The
    file system, the image, mesh and pickle libraries and the plot
    window are outside of the program: a call to one of them is a
    command, and the program goes on with the answer, whatever it is.
    The progress bars of [tqdm] are left out. *)


(** ** Paths *)

(** [s.rfind(c)]: the index of the last [c] in [s], or -1 *)
Fixpoint rfind (c : ascii) (s : string) : Z :=
  match s with
  | EmptyString => -1
  | String a s' =>
      let r := rfind c s' in
      if r =? -1 then (if Ascii.eqb a c then 0 else -1) else r + 1
  end.

(** [s[:n]] and [s[n:]] *)
Fixpoint str_take (n : nat) (s : string) : string :=
  match n, s with
  | S n', String a s' => String a (str_take n' s')
  | _, _ => EmptyString
  end.

Fixpoint str_drop (n : nat) (s : string) : string :=
  match n, s with
  | S n', String _ s' => str_drop n' s'
  | _, _ => s
  end.

(** the loop of [genericpath._splitext] that skips leading dots:
    whether one of the [n] characters from [filenameIndex] on is not a
    dot *)
Fixpoint skip_dots (p : string) (filenameIndex : nat) (n : nat) : bool :=
  match n with
  | O => false
  | S n' =>
      match String.get filenameIndex p with
      | Some c => if Ascii.eqb c "." then skip_dots p (S filenameIndex) n' else true
      | None => true
      end
  end.

(** [os.path.splitext] *)
Definition splitext (p : string) : string * string :=
  let sepIndex := rfind "/" p in
  let dotIndex := rfind "." p in
  if (sepIndex <? dotIndex)
     && skip_dots p (Z.to_nat (sepIndex + 1)) (Z.to_nat (dotIndex - (sepIndex + 1)))
  then (str_take (Z.to_nat dotIndex) p, str_drop (Z.to_nat dotIndex) p)
  else (p, EmptyString).

Definition startswith (c : ascii) (s : string) : bool :=
  match s with
  | String a _ => Ascii.eqb a c
  | EmptyString => false
  end.

Definition endswith (c : ascii) (s : string) : bool :=
  (0 <=? rfind c s) && (rfind c s =? Z.of_nat (String.length s) - 1).

(** [os.path.join(a, *p)] *)
Definition join (a : string) (p : list string) : string :=
  fold_left (λ path b,
    if startswith "/" b then b
    else if String.eqb path "" || endswith "/" path then path +:+ b
    else path +:+ "/" +:+ b) p a.

(** ** Commands and programs *)

Inductive failure : Type :=
| Exn (e : exn)                  (* raised by the array code *)
| KeyError (key : string)
| AssertionError (msg : string).

(** The calls that leave the program, with the type of their answers.
    An image is the raster that [np.asarray] reads from it, a pickled
    result is a dictionary of arrays, a mesh is opaque. *)
Inductive cmd (Mesh : Type) : Type → Type :=
| Listdir (path : string) : cmd Mesh (list string)
| PathExists (path : string) : cmd Mesh bool
| Makedirs (path : string) : cmd Mesh unit
| ShutilCopy (src dst : string) : cmd Mesh unit
| Print (msg : string) : cmd Mesh unit
| ImageOpen (path : string) : cmd Mesh (ndarray byte)
| PickleLoad (path : string) : cmd Mesh (gmap string (ndarray spec_float))
| TrimeshLoad (path : string) : cmd Mesh Mesh
| PltShow (img : ndarray byte) (title : string) : cmd Mesh unit
| ImageSave (img : ndarray byte) (path : string) : cmd Mesh unit.
Arguments Listdir {Mesh}.
Arguments PathExists {Mesh}.
Arguments Makedirs {Mesh}.
Arguments ShutilCopy {Mesh}.
Arguments Print {Mesh}.
Arguments ImageOpen {Mesh}.
Arguments PickleLoad {Mesh}.
Arguments TrimeshLoad {Mesh}.
Arguments PltShow {Mesh}.
Arguments ImageSave {Mesh}.

(** A program returns, raises, or issues a command and goes on with
    the answer. *)
Inductive prog (E : Type → Type) (A : Type) : Type :=
| Ret (x : A)
| Fail (e : failure)
| Do {X : Type} (c : E X) (k : X → prog E A).
Arguments Ret {E A}.
Arguments Fail {E A}.
Arguments Do {E A X}.

(** Programs over the store of arrays. *)
Definition task (E : Type → Type) (A : Type) : Type :=
  store → prog E (A * store).

Fixpoint prog_bind {E A B} (f : A → prog E B) (m : prog E A) : prog E B :=
  match m with
  | Ret x => f x
  | Fail e => Fail e
  | Do c k => Do c (λ x, prog_bind f (k x))
  end.

#[global] Instance task_ret {E} : MRet (task E) := λ A x σ, Ret (x, σ).
#[global] Instance task_bind {E} : MBind (task E) := λ A B f m σ,
  prog_bind (λ r, f r.1 r.2) (m σ).

Definition call {E X} (c : E X) : task E X := λ σ, Do c (λ x, Ret (x, σ)).
Definition raise {E A} (e : failure) : task E A := λ _, Fail e.

(** a computation on arrays inside the program; an exception ends it *)
Definition run_py {E A} (m : py A) : task E A := λ σ,
  match m σ with
  | (Ok x, σ') => Ret (x, σ')
  | (Raise e, _) => Fail (Exn e)
  end.

(** a new array object *)
Definition alloc (a : ndarray spec_float) : py loc := λ σ,
  let l := fresh (dom σ) in (Ok l, <[l := a]> σ).

Definition when {E} (b : bool) (m : task E unit) : task E unit :=
  if b then m else mret ().

Definition for_each {E A} (body : A → task E unit) : list A → task E unit :=
  fix go l :=
    match l with
    | [] => mret ()
    | x :: l' => body x;; go l'
    end.

Definition fold_each {E A S} (body : S → A → task E S) : list A → S → task E S :=
  fix go l s :=
    match l with
    | [] => mret s
    | x :: l' => s' ← body s x; go l' s'
    end.

(** ** Running a program

    [exec h p] runs [p] against the answers of [h], where [None] is an
    exception of the library that was called; it returns the commands
    issued and how the program ended. *)
Inductive ending (A : Type) : Type :=
| Returned (x : A)
| Failed (e : failure)
| Aborted.
Arguments Returned {A}.
Arguments Failed {A}.
Arguments Aborted {A}.

Fixpoint exec {E A} (h : ∀ X, E X → option X) (p : prog E A)
    : list {X : Type & E X} * ending A :=
  match p with
  | Ret x => ([], Returned x)
  | Fail e => ([], Failed e)
  | Do c k =>
      match h _ c with
      | Some x => let '(t, r) := exec h (k x) in (existT _ c :: t, r)
      | None => ([existT _ c], Aborted)
      end
  end.

(** No command with [P] is issued, whatever the answers are. *)
Fixpoint never {E A} (P : ∀ X, E X → Prop) (p : prog E A) : Prop :=
  match p with
  | Ret _ | Fail _ => True
  | Do c k => ¬ P _ c ∧ ∀ x, never P (k x)
  end.

(** Whenever the answers satisfy [ok], the program ends in [Q]. *)
Fixpoint always {E A} (ok : ∀ X, E X → X → Prop) (Q : failure + A → Prop)
    (p : prog E A) : Prop :=
  match p with
  | Ret x => Q (inr x)
  | Fail e => Q (inl e)
  | Do c k => ∀ x, ok _ c x → always ok Q (k x)
  end.

(** ** The functions of the file *)

(** [np.ndarray.squeeze]: the axes of length 1 are removed *)
Fixpoint squeeze {A} (a : ndarray A) : ndarray A :=
  match a with
  | Sc x => Sc x
  | Ar l =>
      match l with
      | [x] => squeeze x
      | _ => Ar (squeeze <$> l)
      end
  end.

(** [img.size] of an image with the raster [img]: width and height *)
Definition size (img : ndarray byte) : nat * nat :=
  match shape img with
  | h :: w :: _ => (w, h)
  | _ => (0%nat, 0%nat)
  end.

(** [d[key]] *)
Definition getitem {E} (d : gmap string (ndarray spec_float)) (key : string)
    : task E (ndarray spec_float) :=
  match d !! key with
  | Some a => mret a
  | None => raise (KeyError key)
  end.

Record args : Type :=
  Args { args_data : string;
         args_images : string;
         args_output : string;
         args_focal_length : spec_float;
         args_copy_empty : bool;
         args_show_results : bool;
         args_no_save : bool;
         args_verbosity : Z;
         args_save_per_person : bool;
         args_no_depth : bool }.

(** the default of [camera_focal_length] *)
Definition default_focal_length : spec_float := F64.of_Z 5000.

Section program.
Context {Mesh Light : Type}.
Context (raymond_lights : list Light).
Context (render : scene Mesh Light → nat → nat
                  → ndarray byte * ndarray spec_float).

Definition read_pickle_file (file_location : string)
    : task (cmd Mesh) (gmap string (ndarray spec_float)) :=
  call (PickleLoad file_location).

(** [trimesh.load] and [pyrender.Mesh.from_trimesh] with the constant
    material are one command *)
Definition load_mesh (mesh_location : string) : task (cmd Mesh) Mesh :=
  call (TrimeshLoad mesh_location).

Definition load_image (path : string) : task (cmd Mesh) (ndarray byte) :=
  call (ImageOpen path).

(** [plt.imshow], the window title and [plt.show] *)
Definition show (img : ndarray byte) (title : string) : task (cmd Mesh) unit :=
  call (PltShow img title).

(** Lines 203 to 233, the body of the loop over the persons of an
    image.  The squeezed translation is a view of the array of the
    dictionary; the dictionary is dropped after the call, so the view
    is an object of its own here. *)
Definition process_person (a : args) (mesh_folder result_pickle_folder : string)
    (image_name : string) (img : ndarray byte)
    (acc : list (ndarray byte) * list loc) (person : string)
    : task (cmd Mesh) (list (ndarray byte) * list loc) :=
  let '(renders_to_combine, depth_maps) := acc in
  let person_id := (splitext person).1 in
  result ← read_pickle_file
             (join result_pickle_folder [image_name; person_id +:+ ".pkl"]);
  body_mesh ← load_mesh (join mesh_folder [image_name; person]);
  camera_center ← getitem result "camera_center";
  camera_translation ← getitem result "camera_translation";
  camera_translation ← run_py (alloc (squeeze camera_translation));
  '(scene_rgba, depth) ← run_py (get_scene_render raymond_lights render body_mesh
                                   (size img).1 (size img).2 camera_center
                                   camera_translation default_focal_length);
  let renders_to_combine := renders_to_combine ++ [scene_rgba] in
  '(depth_maps, depth) ←
     (if negb (args_no_depth a)
      then d ← run_py (alloc depth);
           mret (depth_maps ++ [d], Some (DList [d]))
      else mret (depth_maps, None));
  if negb (args_save_per_person a) then mret (renders_to_combine, depth_maps)
  else
    overlayed ← run_py (combine_scene_image (RList [scene_rgba]) img depth);
    when (args_show_results a) (show overlayed (image_name +:+ " - " +:+ person_id));;
    when (negb (args_no_save a))
      (call (ImageSave overlayed
               (join (args_output a) [image_name +:+ "_" +:+ person_id +:+ ".png"])));;
    mret (renders_to_combine, depth_maps).

(** Lines 184 to 246, the body of the loop over the images. *)
Definition process_image (a : args) (mesh_folder result_pickle_folder : string)
    (image : string) : task (cmd Mesh) unit :=
  let image_name := (splitext image).1 in
  found ← call (PathExists (join mesh_folder [image_name]));
  if negb found then
    when (0 <? args_verbosity a)
      (call (Print ("No mesh generated for image " +:+ image)));;
    when (args_copy_empty a)
      (call (ShutilCopy (join (args_images a) [image]) (join (args_output a) [image])))
  else
    persons_meshes ← call (Listdir (join mesh_folder [image_name]));
    persons_results ← call (Listdir (join result_pickle_folder [image_name]));
    img ← load_image (join (args_images a) [image]);
    if negb (Nat.eqb (length persons_meshes) (length persons_results))
    then raise (AssertionError
                  ("Not the same amount of persons in meshes and results folder for image "
                   +:+ image))
    else
      '(renders_to_combine, depth_maps) ←
         fold_each (process_person a mesh_folder result_pickle_folder image_name img)
           persons_meshes ([], []);
      if (1 <? length renders_to_combine)%nat || negb (args_save_per_person a) then
        let depth_maps := if args_no_depth a then None else Some (DList depth_maps) in
        overall_overlayed ←
          run_py (combine_scene_image (RList renders_to_combine) img depth_maps);
        when (args_show_results a) (show overall_overlayed (image_name +:+ " - all"));;
        when (negb (args_no_save a))
          (call (ImageSave overall_overlayed
                   (join (args_output a) [image_name +:+ "_all.png"])))
      else mret ().

(** the test of line 178 *)
Definition is_image (file : string) : bool :=
  existsb (String.eqb (splitext file).2) [".png"; ".jpg"].

Definition main (a : args) : task (cmd Mesh) unit :=
  let mesh_folder := join (args_data a) ["meshes"] in
  let result_pickle_folder := join (args_data a) ["results"] in
  files ← call (Listdir (args_images a));
  let images := filter (λ file, is_image file = true) files in
  call (Makedirs (args_output a));;
  for_each (process_image a mesh_folder result_pickle_folder) images.
End program.

(** ** Statements about the commands *)

Definition is_save {Mesh X} (c : cmd Mesh X) : Prop :=
  match c with ImageSave _ _ => True | _ => False end.

Definition is_show {Mesh X} (c : cmd Mesh X) : Prop :=
  match c with PltShow _ _ => True | _ => False end.


(** Answers of an environment in which every image is an RGB raster,
    every pickled result has a principal point of two entries at least
    and a translation of shape (3,) or (1, 3), and no folder is empty
    unless the persons are saved one by one. *)
Definition well_formed {Mesh} (a : args) (X : Type) (c : cmd Mesh X) : X → Prop :=
  match c in cmd _ X return X → Prop with
  | Listdir _ => λ names, names ≠ [] ∨ args_save_per_person a = true
  | ImageOpen _ => λ img,
      ∃ H W, (0 < H)%nat ∧ (0 < W)%nat ∧ has_shape [H; W; 3%nat] img = true
  | PickleLoad _ => λ d,
      (∃ cx cy cs, d !! "camera_center" = Some (of1 (cx :: cy :: cs)))
      ∧ (∃ t0 t1 t2, d !! "camera_translation" = Some (of1 [t0; t1; t2])
                     ∨ d !! "camera_translation" = Some (of2 [[t0; t1; t2]]))
  | _ => λ _, True
  end.

(** the answers for an image whose mesh folder exists and is empty *)
Definition empty_folder {Mesh} (X : Type) (c : cmd Mesh X) : X → Prop :=
  match c in cmd _ X return X → Prop with
  | PathExists _ => λ found, found = true
  | Listdir _ => λ names, names = []
  | _ => λ _, True
  end.

(** the program ends without an exception, or with the assertion of
    line 197 *)
Definition completes {A} (o : failure + A) : Prop :=
  match o with
  | inr _ => True
  | inl (AssertionError _) => True
  | inl _ => False
  end.

(** a renderer that returns rasters of the size of the viewport *)
Definition viewport_sized {Mesh Light}
    (render : scene Mesh Light → nat → nat → ndarray byte * ndarray spec_float)
    : Prop :=
  ∀ s width height,
    has_shape [height; width; 4%nat] (render s width height).1 = true
    ∧ has_shape [height; width] (render s width height).2 = true.

(** what the loop over the persons has gathered: renders of the size of
    the image and, unless [--no_depth] is set, as many depth buffers of
    that size, which are objects of the store *)
Definition gathered (a : args) (H W : nat)
    (acc : list (ndarray byte) * list loc) (σ : store) : Prop :=
  Forall (λ r, has_shape [H; W; 4%nat] r = true) acc.1
  ∧ (args_no_depth a = false →
     ∃ depths, length depths = length acc.1
               ∧ Forall (λ d, has_shape [H; W] d = true) depths
               ∧ Forall2 (λ l d, σ !! l = Some d) acc.2 depths).

Definition ex_args : args :=
  Args "fits" "photos" "out" (F64.of_Z 1000) true false false 0 true false.
Definition quiet_args : args :=
  Args "fits" "photos" "out" (F64.of_Z 1000) false false true 0 false false.
(** a renderer for the examples: black, transparent and without depth *)
Definition blank_render (s : scene unit unit) (width height : nat)
    : ndarray byte * ndarray spec_float :=
  (T3 height width 4 (λ _ _ _, x00), T2 height width (λ _ _, fzero)).
Section tab_lemmas.
Context {A : Type}.
Implicit Types f g : nat → A.

Lemma length_tab n f : length (tab n f) = n.
Proof. unfold tab. by rewrite length_fmap, length_seq. Qed.

Lemma lookup_tab n f i : (i < n)%nat → tab n f !! i = Some (f i).
Proof.
  intros Hi. unfold tab. rewrite list_lookup_fmap, lookup_seq_lt by done.
  done.
Qed.

Lemma lookup_tab_ge n f i : (n ≤ i)%nat → tab n f !! i = None.
Proof. intros Hi. apply lookup_ge_None_2. by rewrite length_tab. Qed.

Lemma tab_ext n f g : (∀ i, (i < n)%nat → f i = g i) → tab n f = tab n g.
Proof.
  intros Hfg. unfold tab. apply list_eq. intros i.
  rewrite !list_lookup_fmap.
  destruct (seq 0 n !! i) as [k|] eqn:Hk; [|done].
  apply lookup_seq in Hk as [-> ?]. simpl. f_equal. by apply Hfg.
Qed.

Lemma tab_S n f : tab (S n) f = tab n f ++ [f n].
Proof. unfold tab. by rewrite seq_S, fmap_app. Qed.

Lemma tab_0 f : tab 0 f = [].
Proof. done. Qed.

Lemma tab_lookup_total (d : A) (l : list A) :
  l = tab (length l) (λ i, default d (l !! i)).
Proof.
  apply list_eq. intros i. destruct (decide (i < length l)%nat) as [Hi|Hi].
  - rewrite lookup_tab by done.
    destruct (lookup_lt_is_Some_2 l i Hi) as [x ->]. done.
  - rewrite lookup_tab_ge by lia. apply lookup_ge_None_2. lia.
Qed.
End tab_lemmas.

Lemma fmap_tab {A B} (h : A → B) n (f : nat → A) :
  h <$> tab n f = tab n (λ i, h (f i)).
Proof. unfold tab. by rewrite <- list_fmap_compose. Qed.

Lemma zip_with_tab {A B C} (h : A → B → C) n (f : nat → A) (g : nat → B) :
  zip_with h (tab n f) (tab n g) = tab n (λ i, h (f i) (g i)).
Proof.
  unfold tab. generalize 0%nat. induction n as [|n IH]; intros s; simpl; [done|].
  by rewrite IH.
Qed.

Lemma imap_tab {A B} (h : nat → A → B) n (f : nat → A) :
  imap h (tab n f) = tab n (λ i, h i (f i)).
Proof.
  apply list_eq. intros i. rewrite list_lookup_imap.
  destruct (decide (i < n)%nat).
  - by rewrite !lookup_tab.
  - by rewrite !lookup_tab_ge by lia.
Qed.

(** *** The exception monad on lists *)

Lemma mapM_tab_Ok {A B} (g : A → result B) n (f : nat → A) (h : nat → B) :
  (∀ i, (i < n)%nat → g (f i) = Ok (h i)) →
  mapM g (tab n f) = Ok (tab n h).
Proof.
  unfold tab. intros Hg.
  assert (∀ k s, (s + k ≤ n)%nat →
            mapM g (f <$> seq s k) = Ok (h <$> seq s k)) as Hgen.
  { induction k as [|k IH]; intros s Hs; simpl; [done|].
    rewrite Hg by lia. simpl. rewrite IH by lia. done. }
  apply Hgen. lia.
Qed.

Lemma mapM_id_tab_Ok {A} n (f : nat → result A) (h : nat → A) :
  (∀ i, (i < n)%nat → f i = Ok (h i)) →
  mapM id (tab n f) = Ok (tab n h).
Proof. intros Hf. by apply mapM_tab_Ok. Qed.

Lemma bind_Ok {A B} (x : A) (f : A → result B) : (Ok x ≫= f) = f x.
Proof. done. Qed.

Lemma bind_Raise {A B} e (f : A → result B) : (Raise e ≫= f) = Raise e.
Proof. done. Qed.

Lemma fmap_Ok {A B} (x : A) (f : A → B) : f <$> Ok x = Ok (f x).
Proof. done. Qed.

Lemma foldM_cons {A B} (f : B → A → result B) x l acc :
  foldM f (x :: l) acc = (acc' ← f acc x; foldM f l acc').
Proof. done. Qed.

Lemma foldM_nil {A B} (f : B → A → result B) acc : foldM f [] acc = Ok acc.
Proof. done. Qed.

Lemma mapM_Raise_head {A B} (g : A → result B) x l e :
  g x = Raise e → mapM g (x :: l) = Raise e.
Proof. intros Hx. simpl. by rewrite Hx. Qed.

Lemma foldM_app {A B} (f : B → A → result B) l1 l2 acc :
  foldM f (l1 ++ l2) acc = (acc' ← foldM f l1 acc; foldM f l2 acc').
Proof.
  revert acc. induction l1 as [|x l1 IH]; intros acc; simpl; [done|].
  destruct (f acc x); simpl; [apply IH|done].
Qed.

(** *** Shapes *)

Lemma has_shape_T1 {A} (a : ndarray A) (d : A) C :
  has_shape [C] a = true → a = T1 C (λ c, nd_at d a [c]).
Proof.
  destruct a as [x|l]; simpl; [done|].
  intros [Hlen Hall]%andb_true_iff. apply Nat.eqb_eq in Hlen. subst C.
  unfold T1. f_equal. apply list_eq. intros i.
  destruct (decide (i < length l)%nat) as [Hi|Hi].
  - rewrite lookup_tab by done.
    destruct (lookup_lt_is_Some_2 l i Hi) as [x Hx]. rewrite Hx.
    rewrite forallb_forall in Hall.
    assert (has_shape [] x = true) as Hsx.
    { apply Hall. apply list_elem_of_In. by eapply list_elem_of_lookup_2. }
    destruct x as [x|?]; [|done]. unfold nd_at. simpl. by rewrite Hx.
  - rewrite lookup_tab_ge by lia. apply lookup_ge_None_2. lia.
Qed.

Lemma has_shape_T2 {A} (a : ndarray A) (d : A) W C :
  has_shape [W; C] a = true → a = T2 W C (λ j c, nd_at d a [j; c]).
Proof.
  destruct a as [x|l]; [done|].
  intros [Hlen Hall]%andb_true_iff. apply Nat.eqb_eq in Hlen. subst W.
  unfold T2. f_equal. apply list_eq. intros i.
  destruct (decide (i < length l)%nat) as [Hi|Hi].
  - rewrite lookup_tab by done.
    destruct (lookup_lt_is_Some_2 l i Hi) as [x Hx]. rewrite Hx.
    rewrite forallb_forall in Hall.
    assert (has_shape [C] x = true) as Hsx.
    { apply Hall. apply list_elem_of_In. by eapply list_elem_of_lookup_2. }
    rewrite (has_shape_T1 x d C Hsx) at 1. f_equal. unfold T1. f_equal.
    apply tab_ext. intros c Hc. unfold nd_at. simpl. by rewrite Hx.
  - rewrite lookup_tab_ge by lia. apply lookup_ge_None_2. lia.
Qed.

Lemma has_shape_T3 {A} (a : ndarray A) (d : A) H W C :
  has_shape [H; W; C] a = true → a = T3 H W C (λ i j c, nd_at d a [i; j; c]).
Proof.
  destruct a as [x|l]; [done|].
  intros [Hlen Hall]%andb_true_iff. apply Nat.eqb_eq in Hlen. subst H.
  unfold T3. f_equal. apply list_eq. intros i.
  destruct (decide (i < length l)%nat) as [Hi|Hi].
  - rewrite lookup_tab by done.
    destruct (lookup_lt_is_Some_2 l i Hi) as [x Hx]. rewrite Hx.
    rewrite forallb_forall in Hall.
    assert (has_shape [W; C] x = true) as Hsx.
    { apply Hall. apply list_elem_of_In. by eapply list_elem_of_lookup_2. }
    rewrite (has_shape_T2 x d W C Hsx) at 1. f_equal. unfold T2. f_equal.
    apply tab_ext. intros j Hj. unfold T1. f_equal. apply tab_ext.
    intros c Hc. unfold nd_at. simpl. by rewrite Hx.
  - rewrite lookup_tab_ge by lia. apply lookup_ge_None_2. lia.
Qed.

Lemma forallb_tab {A} (P : A → bool) n (f : nat → A) :
  (∀ i, (i < n)%nat → P (f i) = true) → forallb P (tab n f) = true.
Proof.
  intros HP. apply forallb_forall. intros x Hx.
  apply list_elem_of_In, list_elem_of_lookup in Hx as [i Hi].
  destruct (decide (i < n)%nat) as [Hlt|Hge].
  - rewrite lookup_tab in Hi by done. injection Hi as <-. by apply HP.
  - rewrite lookup_tab_ge in Hi by lia. done.
Qed.

Lemma same_shape_T1 {A B} C (f : nat → A) (g : nat → B) :
  has_shape (shape (T1 C f)) (T1 C g) = true.
Proof.
  unfold T1. simpl. rewrite !length_tab, Nat.eqb_refl. simpl.
  destruct C; [done|]. by apply forallb_tab.
Qed.

Lemma same_shape_T2 {A B} W C (f : nat → nat → A) (g : nat → nat → B) :
  has_shape (shape (T2 W C f)) (T2 W C g) = true.
Proof.
  unfold T2. simpl. rewrite !length_tab, Nat.eqb_refl. simpl.
  destruct W; [done|]. apply forallb_tab. intros j _. apply same_shape_T1.
Qed.

Lemma same_shape_T3 {A B} H W C (f : nat → nat → nat → A)
    (g : nat → nat → nat → B) :
  has_shape (shape (T3 H W C f)) (T3 H W C g) = true.
Proof.
  unfold T3. simpl. rewrite !length_tab, Nat.eqb_refl. simpl.
  destruct H; [done|]. apply forallb_tab. intros j _. apply same_shape_T2.
Qed.

Lemma stack_tab {A} n (a : nat → ndarray A) :
  (∀ i, (i < n)%nat → has_shape (shape (a 0%nat)) (a i) = true) →
  stack (tab n a) = Ok (Ar (tab n a)).
Proof.
  intros Ha. destruct n as [|n]; [done|].
  unfold stack. change (tab (S n) a) with (a 0%nat :: (a <$> seq 1 n)) at 1.
  cbv beta iota. by rewrite forallb_tab.
Qed.

Lemma ndim_T1 {A} C (f : nat → A) : ndim (T1 C f) = 1%nat.
Proof. by destruct C. Qed.

Lemma ndim_T2 {A} W C (f : nat → nat → A) :
  ndim (T2 W C f) = if W is O then 1%nat else 2%nat.
Proof.
  destruct W; [done|].
  change (ndim (T2 (S W) C f)) with (S (ndim (T1 C (f 0%nat)))).
  by rewrite ndim_T1.
Qed.

Lemma ndim_T3 {A} H W C (f : nat → nat → nat → A) :
  ndim (T3 H W C f) =
  if H is O then 1%nat else if W is O then 2%nat else 3%nat.
Proof.
  destruct H; [done|].
  change (ndim (T3 (S H) W C f)) with (S (ndim (T2 W C (f 0%nat)))).
  rewrite ndim_T2. by destruct W.
Qed.

Lemma broadcast_same_ndim {A B C} (f : A → B → C) a b :
  ndim a = ndim b → broadcast f a b = bc2 f a b.
Proof. intros Hn. unfold broadcast. by rewrite Hn, Nat.sub_diag. Qed.

(** *** Elementwise operations on rectangular arrays *)

Lemma nd_map_T1 {A B} (h : A → B) C f :
  nd_map h (T1 C f) = T1 C (λ c, h (f c)).
Proof. unfold T1. simpl. by rewrite fmap_tab. Qed.

Lemma nd_map_T2 {A B} (h : A → B) W C f :
  nd_map h (T2 W C f) = T2 W C (λ j c, h (f j c)).
Proof.
  unfold T2. simpl. rewrite fmap_tab. f_equal. apply tab_ext.
  intros j _. apply nd_map_T1.
Qed.

Lemma nd_map_T3 {A B} (h : A → B) H W C f :
  nd_map h (T3 H W C f) = T3 H W C (λ i j c, h (f i j c)).
Proof.
  unfold T3. simpl. rewrite fmap_tab. f_equal. apply tab_ext.
  intros j _. apply nd_map_T2.
Qed.

Lemma newaxis_last_T2 {A} W C (f : nat → nat → A) :
  newaxis_last (T2 W C f) = T3 W C 1 (λ i j _, f i j).
Proof.
  unfold T3, T2, T1. simpl. rewrite fmap_tab. f_equal. apply tab_ext.
  intros i _. simpl. rewrite fmap_tab. done.
Qed.

Lemma bc2_tab {A B C} (f : A → B → C) n a b h :
  (∀ i, (i < n)%nat → bc2 f (a i) (b i) = Ok (h i)) →
  bc2 f (Ar (tab n a)) (Ar (tab n b)) = Ok (Ar (tab n h)).
Proof.
  intros Hab. simpl. rewrite !length_tab, Nat.eqb_refl, zip_with_tab.
  by rewrite (mapM_id_tab_Ok _ _ h).
Qed.

Lemma bc2_T1 {A B C} (f : A → B → C) n g m :
  bc2 f (T1 n g) (T1 n m) = Ok (T1 n (λ c, f (g c) (m c))).
Proof. unfold T1. by apply bc2_tab. Qed.

Lemma bc2_T1_stretch {A B C} (f : A → B → C) n g m :
  bc2 f (T1 n g) (T1 1 m) = Ok (T1 n (λ c, f (g c) (m 0%nat))).
Proof.
  destruct (decide (n = 1%nat)) as [->|Hn]; [by rewrite bc2_T1|].
  unfold T1. simpl. rewrite length_tab.
  destruct (Nat.eqb_spec n 1) as [|_]; [done|].
  assert (mapM (λ x, bc2 f x (Sc (m 0%nat))) (tab n (λ c, Sc (g c)))
          = Ok (tab n (λ c, Sc (f (g c) (m 0%nat))))) as Hm.
  { by apply mapM_tab_Ok. }
  destruct n as [|[|n]]; [done|done|].
  change (tab (S (S n)) (λ c, Sc (g c)))
    with (Sc (g 0%nat) :: Sc (g 1%nat) :: ((λ c, Sc (g c)) <$> seq 2 n)) at 1.
  cbv iota beta. by rewrite Hm.
Qed.

Lemma bc2_T1_stretch_l {A B C} (f : A → B → C) n g m :
  bc2 f (T1 1 m) (T1 n g) = Ok (T1 n (λ c, f (m 0%nat) (g c))).
Proof.
  destruct (decide (n = 1%nat)) as [->|Hn]; [by rewrite bc2_T1|].
  unfold T1. change (tab 1 (λ c, Sc (m c))) with [Sc (m 0%nat)].
  cbn [bc2 length]. rewrite length_tab.
  destruct (Nat.eqb_spec 1 n) as [|_]; [done|].
  by rewrite (mapM_tab_Ok _ _ _ (λ c, Sc (f (m 0%nat) (g c)))).
Qed.

Lemma bc2_T3_stretch_l {A B C} (f : A → B → C) H W n g m :
  bc2 f (T3 H W 1 m) (T3 H W n g)
  = Ok (T3 H W n (λ i j c, f (m i j 0%nat) (g i j c))).
Proof.
  unfold T3. apply bc2_tab. intros i _. unfold T2. apply bc2_tab.
  intros j _. apply bc2_T1_stretch_l.
Qed.

Lemma broadcast_T3_stretch_l {A B C} (f : A → B → C) H W n g m :
  broadcast f (T3 H W 1 m) (T3 H W n g)
  = Ok (T3 H W n (λ i j c, f (m i j 0%nat) (g i j c))).
Proof.
  rewrite broadcast_same_ndim by (by rewrite !ndim_T3).
  apply bc2_T3_stretch_l.
Qed.

Lemma nd_map_Ar_tab {A B} (h : A → B) n (a : nat → ndarray A) :
  nd_map h (Ar (tab n a)) = Ar (tab n (λ k, nd_map h (a k))).
Proof. simpl. by rewrite fmap_tab. Qed.

Lemma bc2_T3 {A B C} (f : A → B → C) H W n g m :
  bc2 f (T3 H W n g) (T3 H W n m) = Ok (T3 H W n (λ i j c, f (g i j c) (m i j c))).
Proof.
  unfold T3. apply bc2_tab. intros i _. unfold T2. apply bc2_tab.
  intros j _. apply bc2_T1.
Qed.

Lemma bc2_T3_stretch {A B C} (f : A → B → C) H W n g m :
  bc2 f (T3 H W n g) (T3 H W 1 m)
  = Ok (T3 H W n (λ i j c, f (g i j c) (m i j 0%nat))).
Proof.
  unfold T3. apply bc2_tab. intros i _. unfold T2. apply bc2_tab.
  intros j _. apply bc2_T1_stretch.
Qed.

Lemma broadcast_T3 {A B C} (f : A → B → C) H W n g m :
  broadcast f (T3 H W n g) (T3 H W n m)
  = Ok (T3 H W n (λ i j c, f (g i j c) (m i j c))).
Proof.
  rewrite broadcast_same_ndim by (by rewrite !ndim_T3). apply bc2_T3.
Qed.

Lemma broadcast_T3_stretch {A B C} (f : A → B → C) H W n g m :
  broadcast f (T3 H W n g) (T3 H W 1 m)
  = Ok (T3 H W n (λ i j c, f (g i j c) (m i j 0%nat))).
Proof.
  rewrite broadcast_same_ndim by (by rewrite !ndim_T3). apply bc2_T3_stretch.
Qed.

(** *** Indexing below two slices *)

Lemma at_depth2_T3 {A B} (g : ndarray A → result (ndarray B)) H W C f h :
  (∀ i j, (i < H)%nat → (j < W)%nat → g (T1 C (f i j)) = Ok (h i j)) →
  at_depth 2 g (T3 H W C f) = Ok (Ar (tab H (λ i, Ar (tab W (h i))))).
Proof.
  intros Hg. unfold T3. simpl.
  rewrite (mapM_tab_Ok _ _ _ (λ i, Ar (tab W (h i)))); [done|].
  intros i Hi. unfold T2.
  rewrite (mapM_tab_Ok _ _ _ (h i)); [done|]. intros j Hj. by apply Hg.
Qed.

Lemma at_depth2_T2 {A B} (g : ndarray A → result (ndarray B)) H W f h :
  (∀ i j, (i < H)%nat → (j < W)%nat → g (Sc (f i j)) = Ok (h i j)) →
  at_depth 2 g (T2 H W f) = Ok (Ar (tab H (λ i, Ar (tab W (h i))))).
Proof.
  intros Hg. unfold T2. simpl.
  rewrite (mapM_tab_Ok _ _ _ (λ i, Ar (tab W (h i)))); [done|].
  intros i Hi. unfold T1.
  rewrite (mapM_tab_Ok _ _ _ (h i)); [done|]. intros j Hj. by apply Hg.
Qed.

Lemma last_tab_S {A} n (f : nat → A) : last (tab (S n) f) = Some (f n).
Proof. by rewrite tab_S, last_snoc. Qed.

Lemma removelast_tab_S {A} n (f : nat → A) : removelast (tab (S n) f) = tab n f.
Proof. rewrite tab_S. apply removelast_last. Qed.

Lemma alpha_T3 {A} H W C (f : nat → nat → nat → A) :
  at_depth 2 nd_last (T3 H W (S C) f) = Ok (T2 H W (λ i j, f i j C)).
Proof.
  rewrite (at_depth2_T3 _ _ _ _ _ (λ i j, Sc (f i j C))); [done|].
  intros i j _ _. unfold T1, nd_last. by rewrite last_tab_S.
Qed.

Lemma init_T3 {A} H W C (f : nat → nat → nat → A) :
  at_depth 2 nd_init (T3 H W (S C) f) = Ok (T3 H W C f).
Proof.
  rewrite (at_depth2_T3 _ _ _ _ _ (λ i j, T1 C (f i j))); [done|].
  intros i j _ _. unfold T1, nd_init. by rewrite removelast_tab_S.
Qed.

Lemma first_T3 {A} H W C (f : nat → nat → nat → A) :
  at_depth 2 nd_first (T3 H W (S C) f) = Ok (T2 H W (λ i j, f i j 0%nat)).
Proof.
  rewrite (at_depth2_T3 _ _ _ _ _ (λ i j, Sc (f i j 0%nat))); [done|].
  intros i j _ _. done.
Qed.

Lemma newaxis_T2 {A} H W (f : nat → nat → A) :
  at_depth 2 nd_newaxis (T2 H W f) = Ok (T3 H W 1 (λ i j _, f i j)).
Proof.
  rewrite (at_depth2_T2 _ _ _ _ (λ i j, T1 1 (λ _, f i j))); [done|].
  intros i j _ _. done.
Qed.

Lemma T1_ext {A} C (f g : nat → A) :
  (∀ c, (c < C)%nat → f c = g c) → T1 C f = T1 C g.
Proof. intros Hfg. unfold T1. f_equal. apply tab_ext. intros c Hc. f_equal. auto. Qed.

Lemma T2_ext {A} W C (f g : nat → nat → A) :
  (∀ j c, (j < W)%nat → (c < C)%nat → f j c = g j c) → T2 W C f = T2 W C g.
Proof.
  intros Hfg. unfold T2. f_equal. apply tab_ext. intros j Hj.
  apply T1_ext. auto.
Qed.

Lemma T3_ext {A} H W C (f g : nat → nat → nat → A) :
  (∀ i j c, (i < H)%nat → (j < W)%nat → (c < C)%nat → f i j c = g i j c) →
  T3 H W C f = T3 H W C g.
Proof.
  intros Hfg. unfold T3. f_equal. apply tab_ext. intros i Hi.
  apply T2_ext. auto.
Qed.

(** *** Reductions along axis 0 *)

Lemma foldM_bc2_T3 {A} (op : A → A → A) n H W C
    (V : nat → nat → nat → nat → A) z :
  foldM (bc2 op) (tab n (λ k, T3 H W C (V k))) (T3 H W C z)
  = Ok (T3 H W C (λ i j c, fold_left op (tab n (λ k, V k i j c)) (z i j c))).
Proof.
  induction n as [|n IH]; [done|].
  rewrite tab_S, foldM_app, IH, bind_Ok, foldM_cons, bc2_T3, bind_Ok, foldM_nil.
  f_equal. apply T3_ext. intros i j c _ _ _.
  by rewrite tab_S, fold_left_app.
Qed.

Lemma tab_shift {A} n (f : nat → A) : f <$> seq 1 n = tab n (λ k, f (S k)).
Proof. unfold tab. by rewrite <- fmap_S_seq, <- list_fmap_compose. Qed.

Lemma sum0_T3 {A} (op : A → A → A) zero n H W C
    (V : nat → nat → nat → nat → A) :
  sum0 op zero (Ar (tab (S n) (λ k, T3 H W C (V k))))
  = Ok (T3 H W C (λ i j c, fold_left op (tab (S n) (λ k, V k i j c)) zero)).
Proof.
  change (sum0 op zero (Ar (tab (S n) (λ k, T3 H W C (V k)))))
    with (foldM (bc2 op) (tab (S n) (λ k, T3 H W C (V k)))
            (nd_map (λ _, zero) (T3 H W C (V 0%nat)))).
  by rewrite nd_map_T3, foldM_bc2_T3.
Qed.

Lemma amin0_T3 n H W C (V : nat → nat → nat → nat → spec_float) :
  amin0 (Ar (tab (S n) (λ k, T3 H W C (V k))))
  = Ok (T3 H W C (λ i j c,
          fold_left fmin (tab n (λ k, V (S k) i j c)) (V 0%nat i j c))).
Proof.
  change (amin0 (Ar (tab (S n) (λ k, T3 H W C (V k)))))
    with (foldM (bc2 fmin) ((λ k, T3 H W C (V k)) <$> seq 1 n)
            (T3 H W C (V 0%nat))).
  by rewrite tab_shift, foldM_bc2_T3.
Qed.
(** * Floating point facts *)

Lemma iter_pos_iter {A} (f : A → A) n x : SpecFloat.iter_pos f n x = Pos.iter f x n.
Proof.
  revert x. induction n as [n IH|n IH|]; intros x; simpl; [| |done].
  - by rewrite !IH, !Pos.iter_swap.
  - by rewrite !IH.
Qed.

Lemma shr_m_shr_1 r : 0 ≤ shr_m r → shr_m (shr_1 r) = shr_m r / 2.
Proof.
  destruct r as [m r s]. simpl. intros Hm. rewrite <- Z.div2_div.
  destruct m as [|[p|p|]|p]; try done; lia.
Qed.

Lemma shr_m_iter p r :
  0 ≤ shr_m r → shr_m (SpecFloat.iter_pos shr_1 p r) = shr_m r / 2 ^ Z.pos p.
Proof.
  intros Hr. rewrite iter_pos_iter.
  apply (Pos.iter_ind _ shr_1 r (λ p a, shr_m a = shr_m r / 2 ^ Z.pos p)).
  - rewrite shr_m_shr_1 by done. done.
  - intros q a Ha. rewrite shr_m_shr_1.
    + rewrite Ha, Pos2Z.inj_succ, Z.pow_succ_r by lia.
      rewrite Z.div_div by lia. f_equal. lia.
    + rewrite Ha. apply Z.div_pos; lia.
Qed.

Lemma digits2_size m : digits2_pos m = Pos.size m.
Proof. induction m; simpl; congruence. Qed.

Lemma digits_log2 m : Z.pos (digits2_pos m) = Z.log2 (Z.pos m) + 1.
Proof. rewrite digits2_size. destruct m; simpl; lia. Qed.

Lemma digits_bounds m :
  2 ^ (Z.pos (digits2_pos m) - 1) ≤ Z.pos m < 2 ^ Z.pos (digits2_pos m).
Proof.
  rewrite digits_log2. replace (Z.log2 (Z.pos m) + 1 - 1) with (Z.log2 (Z.pos m)) by lia.
  apply Z.log2_spec. lia.
Qed.

Lemma digits_unique m k :
  2 ^ (k - 1) ≤ Z.pos m < 2 ^ k → Z.pos (digits2_pos m) = k.
Proof.
  intros Hm. rewrite digits_log2.
  assert (0 < k).
  { destruct (Z.le_gt_cases k 0) as [Hk|]; [|done].
    assert (2 ^ k ≤ 2 ^ 0) by (apply Z.pow_le_mono_r; lia). simpl in *. lia. }
  rewrite (Z.log2_unique (Z.pos m) (k - 1)); [lia|lia|].
  replace (Z.succ (k - 1)) with k by lia. done.
Qed.

Lemma round_nearest_even_cases m l :
  round_nearest_even m l = m ∨ round_nearest_even m l = m + 1.
Proof.
  destruct l as [|[| |]]; simpl; auto. destruct (Z.even m); auto.
Qed.

Lemma fexp32_big d : -149 ≤ d - 24 → fexp 24 128 d = d - 24.
Proof. intros Hd. unfold fexp, emin. lia. Qed.

Lemma finish_big m e :
  -23 ≤ e → Z.pos (digits2_pos m) = 24 →
  big (if e <=? 128 - 24 then S754_finite false m e else S754_infinity false) = true.
Proof.
  intros He Hm. destruct (e <=? 128 - 24); [|done]. unfold big.
  rewrite Hm. apply andb_true_iff. split; [lia|done].
Qed.

Lemma binary_round_aux_stage2 m e l :
  binary_round_aux 24 128 false m e l
  = let '(mrs, e') := shr_fexp 24 128 m e l in
    stage2 (round_nearest_even (shr_m mrs) (loc_of_shr_record mrs)) e'.
Proof. unfold binary_round_aux, stage2. by destruct (shr_fexp 24 128 m e l). Qed.

Lemma stage2_big m e :
  -23 ≤ e → 2 ^ 23 ≤ m ≤ 2 ^ 24 → big (stage2 m e) = true.
Proof.
  intros He Hm. destruct m as [|q|q]; [lia| |lia].
  unfold stage2, shr_fexp. simpl Zdigits2.
  destruct (decide (Z.pos q < 2 ^ 24)) as [Hlt|Hge].
  - assert (Z.pos (digits2_pos q) = 24) as Hq by (apply digits_unique; lia).
    rewrite Hq, fexp32_big by lia.
    replace (24 + e - 24 - e) with 0 by lia. simpl. by apply finish_big.
  - assert (q = 16777216%positive) as -> by lia.
    change (Z.pos (digits2_pos 16777216)) with 25.
    rewrite fexp32_big by lia.
    replace (25 + e - 24 - e) with 1 by lia. simpl. apply finish_big; [lia|done].
Qed.

Lemma round_big M e :
  24 ≤ Z.pos (digits2_pos M) → -23 ≤ e + Z.pos (digits2_pos M) - 24 →
  big (binary_round 24 128 false M e) = true.
Proof.
  intros HD He. pose proof (digits_bounds M) as HM.
  set (D := Z.pos (digits2_pos M)) in *.
  unfold binary_round. fold D. rewrite fexp32_big by lia.
  assert (shl_align M e (D + e - 24) = (M, e)) as ->.
  { unfold shl_align. destruct (D + e - 24 - e) eqn:?; [done|done|exfalso; clear HM; lia]. }
  rewrite binary_round_aux_stage2. unfold shr_fexp. simpl Zdigits2. fold D.
  rewrite fexp32_big by lia. unfold shr.
  destruct (D + e - 24 - e) as [|p|p] eqn:Hp; [| |exfalso; clear HM; lia].
  - assert (D = 24) as HD24 by lia. rewrite HD24 in HM, He.
    change (2 ^ (24 - 1)) with 8388608 in HM. change (2 ^ 24) with 16777216 in HM.
    simpl. apply stage2_big; lia.
  - set (r1 := SpecFloat.iter_pos shr_1 p _).
    assert (shr_m r1 = Z.pos M / 2 ^ Z.pos p) as Hr1.
    { unfold r1. by rewrite shr_m_iter. }
    assert (2 ^ 23 ≤ shr_m r1 < 2 ^ 24) as Hb.
    { rewrite Hr1. assert (D = 24 + Z.pos p) as HDp by lia.
      rewrite HDp in HM.
      replace (24 + Z.pos p - 1) with (23 + Z.pos p) in HM by lia.
      rewrite !Z.pow_add_r in HM by lia.
      split.
      - apply Z.div_le_lower_bound; lia.
      - apply Z.div_lt_upper_bound; lia. }
    apply stage2_big; [lia|].
    destruct (round_nearest_even_cases (shr_m r1) (loc_of_shr_record r1)) as [->| ->];
      lia.
Qed.

Lemma iter_xO_value m d : Z.pos (Pos.iter xO m d) = Z.pos m * 2 ^ Z.pos d.
Proof.
  induction d as [|d IH] using Pos.peano_ind.
  - simpl. lia.
  - rewrite Pos.iter_succ, Pos2Z.inj_xO, IH, Pos2Z.inj_succ, Z.pow_succ_r by lia.
    lia.
Qed.

Lemma shl_align_value m e e' :
  e' ≤ e → Z.pos (fst (shl_align m e e')) = Z.pos m * 2 ^ (e - e').
Proof.
  intros He. unfold shl_align.
  destruct (e' - e) as [|d|d] eqn:Hd; [|exfalso; lia|].
  - replace (e - e') with 0 by lia. simpl. lia.
  - simpl. rewrite iter_xO_value. f_equal. f_equal. lia.
Qed.

Lemma sf_eqb_eq x y : sf_eqb x y = true → x = y.
Proof.
  destruct x as [[|]|[|]| |s m e], y as [[|]|[|]| |s' m' e']; simpl; try done.
  intros [[Hs Hm]%andb_true_iff He]%andb_true_iff.
  apply Bool.eqb_prop in Hs. apply Pos.eqb_eq in Hm. apply Z.eqb_eq in He.
  by subst.
Qed.

Lemma u8_range b : 0 ≤ u8 b < 256.
Proof. unfold u8. pose proof (Byte.to_N_bounded b). lia. Qed.

Lemma byte_of_Z_u8 b : byte_of_Z (u8 b) = b.
Proof.
  unfold byte_of_Z. pose proof (u8_range b).
  rewrite Z.mod_small by done. unfold u8. rewrite N2Z.id.
  by rewrite Byte.of_to_N.
Qed.

Lemma In_all_bytes b : In b all_bytes.
Proof.
  unfold all_bytes. pose proof (u8_range b).
  rewrite <- (byte_of_Z_u8 b) at 1.
  replace (u8 b) with (Z.of_nat (Z.to_nat (u8 b))) by lia.
  apply (in_map byte_of_nat). apply in_seq. lia.
Qed.

Lemma byte_facts_all : forallb byte_facts all_bytes = true.
Proof. vm_cast_no_check (eq_refl true). Qed.

Lemma byte_facts_true b : byte_facts b = true.
Proof.
  pose proof byte_facts_all as Hall. rewrite forallb_forall in Hall.
  apply Hall, In_all_bytes.
Qed.

Lemma mask_mul_true b : mask_mul (normalize_scene b) true = normalize_scene b.
Proof.
  pose proof (byte_facts_true b) as Hb. unfold byte_facts in Hb.
  repeat (apply andb_true_iff in Hb as [Hb ?]). by apply sf_eqb_eq.
Qed.

Lemma mask_mul_false b : mask_mul (normalize_scene b) false = fzero.
Proof.
  pose proof (byte_facts_true b) as Hb. unfold byte_facts in Hb.
  repeat (apply andb_true_iff in Hb as [Hb ?]). by apply sf_eqb_eq.
Qed.

Lemma covers_alpha b : fltb fzero (normalize_scene b) = (0 <? u8 b).
Proof.
  pose proof (byte_facts_true b) as Hb. unfold byte_facts in Hb.
  repeat (apply andb_true_iff in Hb as [Hb ?]). by apply Bool.eqb_prop.
Qed.

Lemma int_mul_0 b : int_mul 0 (normalize_image b) = fzero.
Proof.
  pose proof (byte_facts_true b) as Hb. unfold byte_facts in Hb.
  repeat (apply andb_true_iff in Hb as [Hb ?]). by apply sf_eqb_eq.
Qed.

Lemma background_shown b :
  to_display (mixed_add (clip01 fzero) (int_mul 1 (normalize_image b))) = b.
Proof.
  pose proof (byte_facts_true b) as Hb. unfold byte_facts in Hb.
  repeat (apply andb_true_iff in Hb as [Hb ?]). by apply Byte.byte_dec_bl.
Qed.

Lemma normalize_scene_small b : small (normalize_scene b) = true.
Proof.
  pose proof (byte_facts_true b) as Hb. unfold byte_facts in Hb.
  by repeat (apply andb_true_iff in Hb as [Hb ?]).
Qed.

Lemma add_big x b : big x = true → big (F32.add x (normalize_scene b)) = true.
Proof.
  intros Hx. pose proof (normalize_scene_small b) as Hy.
  destruct (normalize_scene b) as [[|]| | |[|] my ey]; try done.
  { by destruct x as [[|]|[|]| |[|] ? ?]. }
  destruct x as [|[|]| |[|] mx ex]; try done.
  unfold small in Hy. unfold big in Hx.
  apply andb_true_iff in Hy as [Hy1 Hy2]. apply andb_true_iff in Hx as [Hx1 Hx2].
  unfold F32.add, SFadd. rewrite Z.min_r by lia.
  unfold cond_Zopp.
  pose proof (shl_align_value mx ex ey ltac:(lia)) as Hmx.
  pose proof (shl_align_value my ey ey ltac:(lia)) as Hmy.
  rewrite Z.sub_diag in Hmy.
  set (Mx := fst (shl_align mx ex ey)) in *.
  set (My := fst (shl_align my ey ey)) in *.
  change (Z.pos Mx + Z.pos My) with (Z.pos (Mx + My)).
  unfold binary_normalize.
  pose proof (digits_bounds (Mx + My)) as HD.
  pose proof (digits_bounds mx) as HDx.
  assert (Z.pos (digits2_pos mx) = 24) as Hdx by lia. rewrite Hdx in HDx.
  assert (2 ^ (23 + (ex - ey)) < 2 ^ Z.pos (digits2_pos (Mx + My))) as Hlt.
  { rewrite Z.pow_add_r by lia. change (2 ^ (24 - 1)) with (2 ^ 23) in HDx.
    assert (2 ^ 23 * 2 ^ (ex - ey) ≤ Z.pos mx * 2 ^ (ex - ey)).
    { apply Z.mul_le_mono_nonneg_r; [|lia]. apply Z.pow_nonneg. lia. }
    lia. }
  apply Z.pow_lt_mono_r_iff in Hlt; [|lia|lia].
  apply round_big; lia.
Qed.

Lemma table_closed : forallb closed_at (seq 0 256) = true.
Proof. vm_cast_no_check (eq_refl true). Qed.

Lemma table_shown :
  forallb (λ S, forallb (λ x, Byte.eqb (shown x) (byte_of_nat S)) (sum_row S))
    (seq 0 256) = true.
Proof. vm_cast_no_check (eq_refl true). Qed.





Lemma reached_step S x b :
  0 ≤ S → reached S x = true →
  reached (S + u8 b) (F32.add x (normalize_scene b)) = true.
Proof.
  intros HS Hx. pose proof (u8_range b) as Hb. unfold reached in Hx.
  destruct (Z.leb_spec S 255) as [Hle|Hgt].
  - assert (In (Z.to_nat S) (seq 0 256)) as Hin
      by (apply in_seq; clear - HS Hle; lia).
    apply existsb_exists in Hx as (y & Hy & ->%sf_eqb_eq).
    pose proof table_closed as Hc. rewrite forallb_forall in Hc.
    specialize (Hc (Z.to_nat S) Hin). unfold closed_at in Hc.
    rewrite forallb_forall in Hc. specialize (Hc _ Hy).
    rewrite forallb_forall in Hc. specialize (Hc b (In_all_bytes b)).
    by rewrite Z2Nat.id in Hc by done.
  - unfold reached. destruct (Z.leb_spec (S + u8 b) 255); [exfalso; clear - Hgt Hb H; lia|].
    by apply add_big.
Qed.

Lemma total_cons b bs : total (b :: bs) = u8 b + total bs.
Proof. done. Qed.

Lemma total_nonneg bs : 0 ≤ total bs.
Proof.
  induction bs as [|b bs IH]; [done|]. pose proof (u8_range b).
  rewrite total_cons. lia.
Qed.

Lemma reached_fold bs S x :
  0 ≤ S → reached S x = true →
  reached (S + total bs) (fold_left F32.add (normalize_scene <$> bs) x) = true.
Proof.
  revert S x. induction bs as [|b bs IH]; intros S x HS Hx.
  - unfold total. simpl. by rewrite Z.add_0_r.
  - simpl. pose proof (u8_range b).
    replace (S + total (b :: bs)) with (S + u8 b + total bs)
      by (rewrite total_cons; lia).
    apply IH; [lia|]. by apply reached_step.
Qed.

Lemma clip01_big x : big x = true → clip01 x = F32.of_Z 1.
Proof.
  destruct x as [|[|]| |[|] m e]; try done. unfold big.
  intros [He Hm]%andb_true_iff. apply Z.leb_le in He. apply Z.eqb_eq in Hm.
  unfold clip01. change (fltb fzero (S754_finite false m e)) with true.
  cbn [fis_nan orb]. change (F32.of_Z 1) with (S754_finite false 8388608 (-23)).
  unfold fltb, SFltb, SFcompare.
  destruct (Z.compare_spec e (-23)) as [->|Hlt|?]; [|exfalso; clear - He Hlt; lia|done].
  rewrite Pos.compare_cont_spec. simpl Pos.switch_Eq.
  pose proof (digits_bounds m) as Hb. rewrite Hm in Hb.
  change (2 ^ (24 - 1)) with 8388608 in Hb.
  destruct (Pos.compare_spec m 8388608) as [|Hlt|]; [done| |done].
  exfalso. apply Pos2Z.pos_lt_pos in Hlt. clear - Hb Hlt. lia.
Qed.

Lemma shown_reached S x :
  0 ≤ S → reached S x = true → shown x = byte_of_Z (Z.min 255 S).
Proof.
  intros HS Hx. unfold reached in Hx.
  destruct (Z.leb_spec S 255) as [Hle|Hgt].
  - assert (In (Z.to_nat S) (seq 0 256)) as Hin
      by (apply in_seq; clear - HS Hle; lia).
    assert (Z.min 255 S = S) as -> by (clear - Hle; lia).
    apply existsb_exists in Hx as (y & Hy & ->%sf_eqb_eq).
    pose proof table_shown as Hc. rewrite forallb_forall in Hc.
    specialize (Hc (Z.to_nat S) Hin).
    rewrite forallb_forall in Hc. specialize (Hc _ Hy).
    apply Byte.byte_dec_bl in Hc. rewrite Hc. unfold byte_of_nat.
    by rewrite Z2Nat.id by done.
  - rewrite Z.min_l by (clear - Hgt; lia). unfold shown. rewrite clip01_big by done.
    vm_compute. reflexivity.
Qed.

(** The clipped sum of normalized bytes displays as their saturated sum. *)
Lemma shown_sum bs :
  shown (fold_left F32.add (normalize_scene <$> bs) fzero)
  = byte_of_Z (Z.min 255 (total bs)).
Proof.
  apply shown_reached; [apply total_nonneg|].
  apply (reached_fold bs 0 fzero); [done|]. vm_compute. reflexivity.
Qed.
Section overlay_pointwise.
Context (H W n : nat).
Context (L : nat → nat → nat → nat → byte).
Context (D : nat → nat → nat → spec_float).
Context (B : nat → nat → nat → byte).
Context (use_depth : bool).


Lemma min_depth_of_samples i j c :
  min_depth_of (samples_at n L D i j c)
  = fold_left fmin (tab n (λ k, sentinel_to_inf (D (S k) i j)))
      (sentinel_to_inf (D 0%nat i j)).
Proof.
  unfold samples_at.
  change (tab (S n) ?f) with (f 0%nat :: (f <$> seq 1 n)).
  unfold min_depth_of. by rewrite tab_shift, fmap_tab.
Qed.

Lemma effective_samples k i j c :
  effective use_depth (samples_at n L D i j c) (sample_at L D k i j c)
  = mask_at n L D use_depth k i j.
Proof.
  unfold mask_at, effective. destruct use_depth; [|done].
  by rewrite !min_depth_of_samples.
Qed.

Lemma amin0_depths : amin0 (depths_at H W n D) = Ok (min_depth_at H W n L D).
Proof.
  unfold depths_at, min_depth_at. rewrite amin0_T3. f_equal.
  apply T3_ext. intros i j c _ _ _. by rewrite min_depth_of_samples.
Qed.

Lemma scene_step_pointwise k :
  (k < S n)%nat →
  scene_step (depth_of H W n L D use_depth) k (T3 H W 4 (λ i j c, normalize_scene (L k i j c)))
  = Ok (T3 H W 3 (λ i j c, mask_mul (normalize_scene (L k i j c)) (mask_at n L D use_depth k i j)),
        T3 H W 1 (λ i j _, mask_at n L D use_depth k i j)).
Proof.
  intros Hk. unfold scene_step.
  rewrite alpha_T3, bind_Ok, nd_map_T2, newaxis_T2, bind_Ok.
  assert ((match (depth_of H W n L D use_depth) with
           | None => Ok (T3 H W 1 (λ i j _, fltb fzero (normalize_scene (L k i j 3%nat))))
           | Some (scene_depth, min_depth) =>
               d ← nd_get scene_depth k;
               depth_mask ← broadcast feqb d min_depth;
               broadcast andb
                 (T3 H W 1 (λ i j _, fltb fzero (normalize_scene (L k i j 3%nat))))
                 depth_mask
           end) = Ok (T3 H W 1 (λ i j _, mask_at n L D use_depth k i j))) as ->.
  { unfold depth_of, mask_at, effective. destruct use_depth; [|done].
    unfold depths_at at 1. unfold nd_get. rewrite lookup_tab by done.
    rewrite bind_Ok. unfold min_depth_at. rewrite broadcast_T3, bind_Ok.
    by rewrite broadcast_T3. }
  by rewrite bind_Ok, init_T3, bind_Ok, broadcast_T3_stretch, bind_Ok.
Qed.

(** The loop and the two reductions do not look at the background. *)
Lemma overlay_front bg :
  overlay (RList (tab (S n) (λ k, T3 H W 4 (L k)))) bg (depth_of H W n L D use_depth)
  = (background ←
       broadcast int_mul
         (T3 H W 1 (λ i j _,
            1 - Z.b2z (0 <? fold_left Z.add
                              (tab (S n) (λ k, Z.b2z (mask_at n L D use_depth k i j))) 0)))
         (nd_map normalize_image bg);
     output_image ←
       broadcast mixed_add
         (T3 H W 3 (λ i j c,
            clip01 (fold_left F32.add
                      (tab (S n) (λ k, mask_mul (normalize_scene (L k i j c))
                                         (mask_at n L D use_depth k i j))) fzero)))
         background;
     Ok (nd_map to_display output_image)).
Proof.
  unfold overlay, asarray_rgba.
  rewrite stack_tab by (intros; apply same_shape_T3).
  rewrite bind_Ok, nd_map_Ar_tab. unfold nd_iter. rewrite bind_Ok, imap_tab.
  rewrite (mapM_id_tab_Ok _ _
    (λ k, (T3 H W 3 (λ i j c, mask_mul (normalize_scene (L k i j c)) (mask_at n L D use_depth k i j)),
           T3 H W 1 (λ i j _, mask_at n L D use_depth k i j)))).
  2:{ intros k Hk. rewrite nd_map_T3. by apply scene_step_pointwise. }
  rewrite bind_Ok, !fmap_tab. cbn [fst snd].
  rewrite (stack_tab _ (λ k, T3 H W 1 (λ i j _, mask_at n L D use_depth k i j)))
    by (intros; apply same_shape_T3).
  rewrite bind_Ok, nd_map_Ar_tab.
  rewrite (tab_ext _ _ (λ k, T3 H W 1 (λ i j _, Z.b2z (mask_at n L D use_depth k i j))))
    by (intros; apply nd_map_T3).
  rewrite sum0_T3, bind_Ok, first_T3, bind_Ok, nd_map_T2, newaxis_T2, bind_Ok.
  rewrite stack_tab by (intros; apply same_shape_T3).
  by rewrite bind_Ok, sum0_T3, bind_Ok, !nd_map_T3.
Qed.

Lemma overlay_pointwise :
  overlay (RList (tab (S n) (λ k, T3 H W 4 (L k)))) (T3 H W 3 B) (depth_of H W n L D use_depth)
  = Ok (T3 H W 3 (λ i j c, pixel_out use_depth (samples_at n L D i j c) (B i j c))).
Proof.
  rewrite overlay_front, nd_map_T3.
  rewrite broadcast_T3_stretch_l, bind_Ok, broadcast_T3, bind_Ok, nd_map_T3.
  f_equal. apply T3_ext. intros i j c _ _ _.
  unfold pixel_out, pixel_covered, pixel_sum, samples_at.
  rewrite !fmap_tab.
  rewrite (tab_ext _ (λ k, Z.b2z (effective _ _ _)) (λ k, Z.b2z (mask_at n L D use_depth k i j)))
    by (intros; by rewrite (effective_samples _ i j c)).
  rewrite (tab_ext _ (λ k, mask_mul _ (effective _ _ _))
             (λ k, mask_mul (normalize_scene (L k i j c)) (mask_at n L D use_depth k i j)))
    by (intros; by rewrite (effective_samples _ i j c)).
  done.
Qed.
End overlay_pointwise.
(** * The compositor at one pixel *)

Lemma fold_add_zero l :
  fold_left F32.add (normalize_scene <$> ((λ _ : sample, x00) <$> l)) fzero = fzero.
Proof. induction l as [|s l IH]; [done|]. simpl. exact IH. Qed.

Lemma masked_sum use_depth ss :
  pixel_sum use_depth ss
  = fold_left F32.add (normalize_scene <$> (masked_value use_depth ss <$> ss)) fzero.
Proof.
  unfold pixel_sum. f_equal. rewrite <- list_fmap_compose.
  apply list_fmap_ext. intros _ s _. unfold masked_value. simpl.
  destruct (effective use_depth ss s).
  - apply mask_mul_true.
  - apply mask_mul_false.
Qed.

Lemma covered_existsb (f : sample → bool) l :
  (0 <? fold_left Z.add (Z.b2z <$> (f <$> l)) 0) = existsb f l.
Proof.
  assert (∀ acc, 0 ≤ acc →
            (0 <? fold_left Z.add (Z.b2z <$> (f <$> l)) acc)
            = (0 <? acc) || existsb f l) as Hgen.
  { induction l as [|s l IH]; intros acc Hacc; simpl.
    - by rewrite orb_false_r.
    - rewrite IH by (destruct (f s); simpl; lia).
      destruct (f s); simpl.
      + destruct (Z.ltb_spec 0 (acc + 1)), (Z.ltb_spec 0 acc); try done; lia.
      + by rewrite Z.add_0_r. }
  by rewrite Hgen.
Qed.

Lemma masked_none use_depth ss (l : list sample) :
  existsb (effective use_depth ss) l = false →
  masked_value use_depth ss <$> l = (λ _, x00) <$> l.
Proof.
  induction l as [|s l IH]; [done|]. simpl.
  intros [Hs Hl]%orb_false_iff. unfold masked_value at 1. rewrite Hs.
  f_equal. by apply IH.
Qed.

(** The float computation of a pixel agrees with the integer one. *)
Lemma pixel_out_spec use_depth ss bg :
  pixel_out use_depth ss bg = composite_pixel use_depth ss bg.
Proof.
  unfold pixel_out, composite_pixel, pixel_covered.
  rewrite covered_existsb, masked_sum.
  destruct (existsb (effective use_depth ss) ss) eqn:Hex.
  - change (1 - Z.b2z true) with 0. rewrite int_mul_0. apply shown_sum.
  - change (1 - Z.b2z false) with 1.
    rewrite masked_none, fold_add_zero by done. apply background_shown.
Qed.

(** * The minimum of depth values *)

Lemma lex3_spec r1 r2 :
  match lex3 r1 r2 with
  | Lt => lt3 r1 r2
  | Eq => r1 = r2
  | Gt => lt3 r2 r1
  end.
Proof.
  destruct r1 as [[a b] c], r2 as [[a' b'] c']. unfold lex3, lt3.
  destruct (Z.compare_spec a a'); [|lia|lia].
  destruct (Z.compare_spec b b'); [|lia|lia].
  destruct (Z.compare_spec c c'); [|lia|lia].
  by subst.
Qed.

Lemma SFcompare_rank x y :
  SFcompare x y = (r1 ← rank x; r2 ← rank y; Some (lex3 r1 r2)).
Proof.
  destruct x as [sx|[|]| |[|] mx ex], y as [sy|[|]| |[|] my ey];
    try destruct sx; try destruct sy; try reflexivity.
  simpl. f_equal. rewrite Z.compare_opp.
  rewrite (Z.compare_antisym ex ey). by destruct (ex ?= ey).
Qed.

Lemma fltb_rank x y r1 r2 :
  rank x = Some r1 → rank y = Some r2 →
  fltb x y = true ↔ lt3 r1 r2.
Proof.
  intros H1 H2. unfold fltb, SFltb. rewrite SFcompare_rank, H1, H2. simpl.
  pose proof (lex3_spec r1 r2) as Hs.
  destruct r1 as [[a b] c], r2 as [[a' b'] c'].
  destruct (lex3 (a, b, c) (a', b', c')); unfold lt3 in *; split; intros Hg;
    try done; try (injection Hs as -> -> ->); exfalso; lia.
Qed.

Lemma feqb_rank x y r1 r2 :
  rank x = Some r1 → rank y = Some r2 →
  feqb x y = true ↔ r1 = r2.
Proof.
  intros H1 H2. unfold feqb, SFeqb. rewrite SFcompare_rank, H1, H2. simpl.
  pose proof (lex3_spec r1 r2) as Hs.
  destruct r1 as [[a b] c], r2 as [[a' b'] c'].
  destruct (lex3 (a, b, c) (a', b', c')); unfold lt3 in *; split; intros Hg;
    try done; injection Hg as -> -> ->; exfalso; lia.
Qed.

Lemma fltb_nan_l y : fltb S754_nan y = false.
Proof. done. Qed.

Lemma fltb_nan_r x : fltb x S754_nan = false.
Proof. by destruct x as [[|]|[|]| |[|] ? ?]. Qed.

Lemma feqb_nan_r x : feqb x S754_nan = false.
Proof. by destruct x as [[|]|[|]| |[|] ? ?]. Qed.

Lemma rank_None x : rank x = None → x = S754_nan.
Proof. by destruct x as [[|]|[|]| |[|] ? ?]. Qed.

Lemma fis_nan_rank x : fis_nan x = false → is_Some (rank x).
Proof. destruct x as [[|]|[|]| |[|] ? ?]; simpl; eauto; done. Qed.

Lemma fle_refl x : is_Some (rank x) → fle x x.
Proof.
  intros [[[a b] c] Hr]. unfold fle. rewrite Hr. unfold lt3. lia.
Qed.

Lemma fle_trans x y z : fle x y → fle y z → fle x z.
Proof.
  unfold fle.
  destruct (rank x) as [[[a b] c]|], (rank y) as [[[a' b'] c']|],
    (rank z) as [[[a'' b''] c'']|]; try done.
  unfold lt3. lia.
Qed.

(** a float that is neither NaN nor a zero is determined by its rank *)
Lemma rank_inj x y r :
  rank x = Some r → rank y = Some r → r ≠ (0, 0, 0) → x = y.
Proof.
  destruct x as [sx|[|]| |[|] mx ex], y as [sy|[|]| |[|] my ey]; simpl;
    intros [= <-] [=] Hr; try done; subst; try done.
  - f_equal. lia.
Qed.

Lemma fle_antisym x y :
  fle x y → fle y x → rank x ≠ Some (0, 0, 0) → x = y.
Proof.
  unfold fle. intros Hxy Hyx Hx.
  destruct (rank x) as [[[a b] c]|] eqn:Hrx; [|done].
  destruct (rank y) as [[[a' b'] c']|] eqn:Hry; [|done].
  assert ((a, b, c) = (a', b', c')) as Heq.
  { unfold lt3 in *. f_equal; [f_equal|]; lia. }
  rewrite <- Heq in Hry. eapply rank_inj; [done..|]. congruence.
Qed.

Lemma fmin_nan_l y : fmin S754_nan y = S754_nan.
Proof. done. Qed.

Lemma fmin_nan_r x : fmin x S754_nan = S754_nan.
Proof. unfold fmin. rewrite fltb_nan_r. by destruct x. Qed.

Lemma fold_fmin_nan_acc l : fold_left fmin l S754_nan = S754_nan.
Proof. induction l as [|y l IH]; [done|]. simpl. by rewrite fmin_nan_l. Qed.

Lemma fold_fmin_nan l acc :
  Exists (λ d, rank d = None) (acc :: l) → fold_left fmin l acc = S754_nan.
Proof.
  revert acc. induction l as [|y l IH]; intros acc Hex.
  - apply Exists_cons in Hex as [Hacc|Hex]; [|by apply Exists_nil in Hex].
    by apply rank_None.
  - simpl. apply Exists_cons in Hex as [Hacc|Hex].
    + apply rank_None in Hacc as ->. rewrite fmin_nan_l.
      apply fold_fmin_nan_acc.
    + apply Exists_cons in Hex as [Hy|Hex].
      * apply rank_None in Hy as ->. rewrite fmin_nan_r.
        apply fold_fmin_nan_acc.
      * apply IH. by apply Exists_cons_tl.
Qed.

Lemma fmin_cases x y :
  is_Some (rank x) → is_Some (rank y) →
  (fmin x y = x ∧ fle x y) ∨ (fmin x y = y ∧ fle y x).
Proof.
  intros [r1 H1] [r2 H2]. unfold fmin.
  assert (fis_nan x = false) as -> by (by destruct x as [[|]|[|]| |[|] ? ?]).
  simpl. destruct (fltb x y) eqn:Hlt.
  - left. split; [done|]. apply (fltb_rank x y r1 r2 H1 H2) in Hlt.
    unfold fle. rewrite H1, H2. destruct r1 as [[a b] c], r2 as [[a' b'] c'].
    unfold lt3 in *. lia.
  - right. split; [done|]. unfold fle. rewrite H1, H2. intros Hlt'.
    apply (fltb_rank x y r1 r2 H1 H2) in Hlt'. congruence.
Qed.

(** Without NaN the reduction returns an entry that no entry is below. *)
Lemma fold_fmin_min l acc :
  Forall (λ d, is_Some (rank d)) (acc :: l) →
  fold_left fmin l acc ∈ acc :: l ∧
  Forall (fle (fold_left fmin l acc)) (acc :: l).
Proof.
  revert acc. induction l as [|y l IH]; intros acc Hall.
  - simpl. split; [by left|]. apply Forall_cons in Hall as [Hacc _].
    apply Forall_cons. split; [by apply fle_refl|done].
  - apply Forall_cons in Hall as [Hacc Hall].
    apply Forall_cons in Hall as [Hy Hall]. simpl.
    destruct (fmin_cases acc y Hacc Hy) as [[-> Hle]|[-> Hle]].
    + destruct (IH acc) as [Hin Hmin]; [by apply Forall_cons|]. split.
      * apply elem_of_cons in Hin as [->|Hin]; [by left|by do 2 right].
      * apply Forall_cons in Hmin as [Hm Hmin].
        apply Forall_cons. split; [done|]. apply Forall_cons. split; [|done].
        by eapply fle_trans.
    + destruct (IH y) as [Hin Hmin]; [by apply Forall_cons|]. split.
      * by right.
      * apply Forall_cons in Hmin as [Hm Hmin].
        apply Forall_cons. split; [by eapply fle_trans|].
        by apply Forall_cons.
Qed.

(** * Which layers count at a pixel *)

Lemma corrected_depth_nonzero s : rank (corrected_depth s) ≠ Some (0, 0, 0).
Proof.
  unfold corrected_depth, sentinel_to_inf.
  destruct (s_depth s) as [[|]|[|]| |[|] m e]; simpl; done.
Qed.

Lemma sentinel_to_inf_positive d :
  fltb fzero d = true → sentinel_to_inf d = d.
Proof. by destruct d as [[|]|[|]| |[|] m e]. Qed.

Lemma min_depth_of_cons s ss :
  min_depth_of (s :: ss)
  = fold_left fmin (corrected_depth <$> ss) (corrected_depth s).
Proof. done. Qed.

Lemma min_depth_of_nan ss :
  Exists (λ s, rank (corrected_depth s) = None) ss →
  min_depth_of ss = S754_nan.
Proof.
  destruct ss as [|s ss]; [by intros ?%Exists_nil|]. intros Hex.
  rewrite min_depth_of_cons. apply fold_fmin_nan.
  change (corrected_depth s :: (corrected_depth <$> ss))
    with (corrected_depth <$> (s :: ss)).
  by apply Exists_fmap.
Qed.

Lemma min_depth_of_min s0 ss :
  s0 ∈ ss →
  Forall (λ s, is_Some (rank (corrected_depth s))) ss →
  (∃ s, s ∈ ss ∧ min_depth_of ss = corrected_depth s) ∧
  Forall (λ s, fle (min_depth_of ss) (corrected_depth s)) ss.
Proof.
  intros Hin Hall. destruct ss as [|s ss]; [by apply elem_of_nil in Hin|].
  rewrite min_depth_of_cons.
  destruct (fold_fmin_min (corrected_depth <$> ss) (corrected_depth s))
    as [Hm Hle].
  { change (corrected_depth s :: (corrected_depth <$> ss))
      with (corrected_depth <$> (s :: ss)).
    by apply Forall_fmap. }
  change (corrected_depth s :: (corrected_depth <$> ss))
    with (corrected_depth <$> (s :: ss)) in Hm, Hle.
  split.
  - apply list_elem_of_fmap in Hm as (s' & Hs' & Hin'). eauto.
  - rewrite Forall_fmap in Hle. exact Hle.
Qed.

(** The minimum does not depend on the order of the layers. *)
Lemma min_depth_of_perm ss ss' :
  Permutation ss ss' → min_depth_of ss = min_depth_of ss'.
Proof.
  intros Hp. destruct ss as [|s0 ss0].
  { apply Permutation_nil_l in Hp. by subst. }
  set (ss := s0 :: ss0) in *. assert (s0 ∈ ss) as Hin by (by left).
  assert (s0 ∈ ss') as Hin' by (by rewrite <- Hp).
  destruct (Forall_Exists_dec (λ s, is_Some (rank (corrected_depth s)))
              (λ s, rank (corrected_depth s) = None)
              (λ s, match rank (corrected_depth s) as o
                          return {is_Some o} + {o = None} with
                    | Some r => left (ex_intro _ r eq_refl)
                    | None => right eq_refl
                    end) ss) as [Hall|Hex].
  - destruct (min_depth_of_min s0 ss Hin Hall) as [(m & Hm & Hmeq) Hle].
    assert (Forall (λ s, is_Some (rank (corrected_depth s))) ss') as Hall'
      by (by rewrite <- Hp).
    destruct (min_depth_of_min s0 ss' Hin' Hall') as [(m' & Hm' & Hmeq') Hle'].
    rewrite Forall_forall in Hle, Hle'.
    apply fle_antisym.
    + rewrite Hmeq'. apply Hle. by rewrite Hp.
    + rewrite Hmeq. apply Hle'. by rewrite <- Hp.
    + rewrite Hmeq. apply corrected_depth_nonzero.
  - rewrite !min_depth_of_nan; [done| |done]. by rewrite <- Hp.
Qed.

Lemma effective_perm use_depth ss ss' s :
  Permutation ss ss' → effective use_depth ss s = effective use_depth ss' s.
Proof.
  intros Hp. unfold effective. by rewrite (min_depth_of_perm ss ss' Hp).
Qed.

Lemma existsb_perm {A} (f : A → bool) l l' :
  Permutation l l' → existsb f l = existsb f l'.
Proof.
  induction 1 as [|x l l' _ IH|x y l|l l' l'' _ IH1 _ IH2]; simpl.
  - done.
  - by rewrite IH.
  - by destruct (f x), (f y).
  - by rewrite IH1.
Qed.

Lemma existsb_fun_ext {A} (f g : A → bool) l :
  (∀ x, f x = g x) → existsb f l = existsb g l.
Proof. intros Hfg. induction l as [|x l IH]; [done|]. simpl. by rewrite Hfg, IH. Qed.

Lemma total_perm bs bs' : Permutation bs bs' → total bs = total bs'.
Proof.
  induction 1 as [|x l l' _ IH|x y l|l l' l'' _ IH1 _ IH2].
  - done.
  - rewrite !total_cons. by rewrite IH.
  - rewrite !total_cons. lia.
  - by rewrite IH1.
Qed.

Lemma total_app bs bs' : total (bs ++ bs') = total bs + total bs'.
Proof.
  induction bs as [|b bs IH]; [done|].
  change ((b :: bs) ++ bs') with (b :: (bs ++ bs')).
  rewrite !total_cons, IH. lia.
Qed.

Lemma total_zeros {A} (l : list A) : total ((λ _, x00) <$> l) = 0.
Proof.
  induction l as [|x l IH]; [done|].
  change ((λ _ : A, x00) <$> x :: l) with (x00 :: ((λ _ : A, x00) <$> l)).
  by rewrite total_cons, IH.
Qed.

(** The pixel does not depend on the order of the layers. *)
Lemma composite_pixel_perm use_depth ss ss' bg :
  Permutation ss ss' →
  composite_pixel use_depth ss bg = composite_pixel use_depth ss' bg.
Proof.
  intros Hp. unfold composite_pixel.
  assert (existsb (effective use_depth ss) ss
          = existsb (effective use_depth ss') ss') as ->.
  { rewrite (existsb_perm _ ss ss' Hp). apply existsb_fun_ext.
    intros s. by apply effective_perm. }
  assert (total (masked_value use_depth ss <$> ss)
          = total (masked_value use_depth ss' <$> ss')) as ->.
  { rewrite (total_perm _ (masked_value use_depth ss <$> ss')).
    - f_equal. apply list_fmap_ext. intros _ s _. unfold masked_value.
      by rewrite (effective_perm use_depth ss ss' s Hp).
    - by apply fmap_Permutation. }
  done.
Qed.

(** A pixel that no layer covers shows the background. *)
Lemma composite_pixel_uncovered use_depth ss bg :
  Forall (λ s, s_alpha s = x00) ss → composite_pixel use_depth ss bg = bg.
Proof.
  intros Hall. unfold composite_pixel.
  assert (∀ l, Forall (λ s, s_alpha s = x00) l →
               existsb (effective use_depth ss) l = false) as Hno.
  { induction 1 as [|s l Hs _ IH]; [done|]. simpl. rewrite IH, orb_false_r.
    unfold effective, covers. rewrite Hs.
    by destruct use_depth. }
  by rewrite Hno.
Qed.

(** A pixel at which exactly one layer counts shows that layer. *)
Lemma composite_pixel_single use_depth l1 s l2 bg :
  effective use_depth (l1 ++ s :: l2) s = true →
  Forall (λ s', effective use_depth (l1 ++ s :: l2) s' = false) (l1 ++ l2) →
  composite_pixel use_depth (l1 ++ s :: l2) bg = s_value s.
Proof.
  intros Hs Hothers. apply Forall_app in Hothers as [H1 H2].
  unfold composite_pixel. set (ss := l1 ++ s :: l2) in *.
  assert (existsb (effective use_depth ss) ss = true) as ->.
  { apply existsb_exists. exists s. split; [|done].
    apply list_elem_of_In. unfold ss. apply elem_of_app. right. by left. }
  assert (∀ l, Forall (λ s', effective use_depth ss s' = false) l →
               masked_value use_depth ss <$> l = (λ _, x00) <$> l) as Hz.
  { induction 1 as [|s' l Hs' _ IH]; [done|]. rewrite !fmap_cons, IH.
    f_equal. unfold masked_value. by rewrite Hs'. }
  unfold ss at 2. rewrite fmap_app, fmap_cons, (Hz l1 H1), (Hz l2 H2).
  rewrite total_app, total_cons, !total_zeros.
  unfold masked_value. rewrite Hs. pose proof (u8_range (s_value s)).
  replace (Z.min 255 (0 + (u8 (s_value s) + 0))) with (u8 (s_value s)) by lia.
  apply byte_of_Z_u8.
Qed.

(** In depth mode the layer in front of all others is the one that counts. *)
Lemma nearest_effective l1 s l2 :
  is_Some (rank (corrected_depth s)) →
  Forall (λ s', fltb (corrected_depth s) (corrected_depth s') = true) (l1 ++ l2) →
  min_depth_of (l1 ++ s :: l2) = corrected_depth s.
Proof.
  intros [r Hr] Hothers. set (ss := l1 ++ s :: l2).
  assert (s ∈ ss) as Hin by (unfold ss; apply elem_of_app; right; by left).
  assert (∀ s', s' ∈ ss → s' = s ∨ s' ∈ l1 ++ l2) as Hsplit.
  { intros s'. unfold ss. rewrite !elem_of_app, elem_of_cons. tauto. }
  rewrite Forall_forall in Hothers.
  assert (Forall (λ s', is_Some (rank (corrected_depth s'))) ss) as Hall.
  { apply Forall_forall. intros s' [->|Hs']%Hsplit; [by eauto|].
    specialize (Hothers s' Hs').
    destruct (rank (corrected_depth s')) eqn:Hr'; [by eauto|].
    apply rank_None in Hr'. rewrite Hr' in Hothers.
    by rewrite fltb_nan_r in Hothers. }
  destruct (min_depth_of_min s ss Hin Hall) as [(m & Hm & Hmeq) Hle].
  rewrite Forall_forall in Hle. specialize (Hle s Hin).
  apply Hsplit in Hm as [->|Hm]; [done|]. exfalso.
  specialize (Hothers m Hm). rewrite Hmeq in Hle. unfold fle in Hle.
  rewrite Hr in Hle.
  destruct (rank (corrected_depth m)) as [r'|] eqn:Hr'; [|done].
  by apply (fltb_rank _ _ r r' Hr Hr') in Hothers.
Qed.

Lemma composite_pixel_nearest l1 s l2 bg :
  covers s = true →
  is_Some (rank (corrected_depth s)) →
  Forall (λ s', fltb (corrected_depth s) (corrected_depth s') = true) (l1 ++ l2) →
  composite_pixel true (l1 ++ s :: l2) bg = s_value s.
Proof.
  intros Hc [r Hr] Hothers. apply composite_pixel_single.
  - unfold effective. rewrite Hc, nearest_effective by eauto. simpl.
    by apply (feqb_rank _ _ r r Hr Hr).
  - rewrite Forall_forall in Hothers. apply Forall_forall. intros s' Hs'.
    unfold effective. rewrite nearest_effective
      by (eauto; by apply Forall_forall).
    specialize (Hothers s' Hs').
    destruct (rank (corrected_depth s')) as [r'|] eqn:Hr'.
    + apply (fltb_rank _ _ r r' Hr Hr') in Hothers.
      destruct (feqb (corrected_depth s') (corrected_depth s)) eqn:Heq;
        [|by rewrite andb_false_r].
      apply (feqb_rank _ _ r' r Hr' Hr) in Heq. subst r'. exfalso.
      destruct r as [[a b] c]. unfold lt3 in Hothers. lia.
    + apply rank_None in Hr'. rewrite Hr'.
      by rewrite andb_false_r.
Qed.

(** A layer with the sentinel depth loses against a real depth. *)
Lemma sentinel_not_effective ss s p :
  s ∈ ss → p ∈ ss →
  feqb (s_depth s) fzero = true →
  fltb fzero (s_depth p) = true → fltb (s_depth p) finf = true →
  effective true ss s = false.
Proof.
  intros Hs Hp Hzero Hpos Hfin. unfold effective.
  assert (corrected_depth s = finf) as ->
    by (unfold corrected_depth, sentinel_to_inf; by rewrite Hzero).
  assert (corrected_depth p = s_depth p) as Hcp
    by (by apply sentinel_to_inf_positive).
  destruct (Forall_Exists_dec (λ s, is_Some (rank (corrected_depth s)))
              (λ s, rank (corrected_depth s) = None)
              (λ s, match rank (corrected_depth s) as o
                          return {is_Some o} + {o = None} with
                    | Some r => left (ex_intro _ r eq_refl)
                    | None => right eq_refl
                    end) ss) as [Hall|Hex].
  - destruct (min_depth_of_min p ss Hp Hall) as [_ Hle].
    rewrite Forall_forall in Hle. specialize (Hle p Hp). rewrite Hcp in Hle.
    unfold fle in Hle.
    destruct (rank (min_depth_of ss)) as [rm|] eqn:Hrm; [|done].
    destruct (rank (s_depth p)) as [rp|] eqn:Hrp; [|done].
    apply (fltb_rank (s_depth p) finf rp (2, 0, 0) Hrp eq_refl) in Hfin.
    destruct (feqb finf (min_depth_of ss)) eqn:Heq; [|by rewrite andb_false_r].
    apply (feqb_rank finf (min_depth_of ss) (2, 0, 0) rm eq_refl Hrm) in Heq.
    by subst rm.
  - rewrite (min_depth_of_nan ss Hex). by rewrite andb_false_r.
Qed.

(** * The call as a whole *)

Lemma py_bind_run {A B} (m : py A) (f : A → py B) σ :
  (m ≫= f) σ = match m σ with
               | (Ok x, σ') => f x σ'
               | (Raise e, σ') => (Raise e, σ')
               end.
Proof. done. Qed.

Lemma run_bind {A B} (m : py A) (f : A → py B) σ x σ' :
  m σ = (Ok x, σ') → (m ≫= f) σ = f x σ'.
Proof. intros Hm. by rewrite py_bind_run, Hm. Qed.

Lemma run_bind_raise {A B} (m : py A) (f : A → py B) σ e σ' :
  m σ = (Raise e, σ') → (m ≫= f) σ = (Raise e, σ').
Proof. intros Hm. by rewrite py_bind_run, Hm. Qed.

Lemma mapM_load σ locs (ds : list (ndarray spec_float)) :
  Forall2 (λ l d, σ !! l = Some d) locs ds →
  mapM load locs σ = (Ok ds, σ).
Proof.
  induction 1 as [|l d locs ds Hl _ IH]; [done|].
  change (mapM load (l :: locs)) with
    (y ← load l; k ← mapM load locs; mret (y :: k)).
  rewrite py_bind_run. unfold load at 1. rewrite Hl.
  rewrite py_bind_run, IH. done.
Qed.

Lemma nd_lookup_T3 {A} H W C (f : nat → nat → nat → A) i j c :
  (i < H)%nat → (j < W)%nat → (c < C)%nat →
  nd_lookup (T3 H W C f) [i; j; c] = Some (f i j c).
Proof.
  intros Hi Hj Hc. unfold T3, T2, T1. simpl.
  rewrite lookup_tab by done. rewrite lookup_tab by done.
  by rewrite lookup_tab by done.
Qed.

Section batch_as_table.
Context (H W : nat) (b : batch).
Context (Hb : rasters H W b).


Lemma batch_layers :
  b.*1 = tab (length b) (λ k, T3 H W 4 (layer_entry b k)).
Proof.
  apply list_eq. intros k. rewrite list_lookup_fmap.
  destruct (decide (k < length b)%nat) as [Hk|Hk].
  - rewrite lookup_tab by done.
    destruct (lookup_lt_is_Some_2 b k Hk) as [p Hp]. rewrite Hp. simpl.
    f_equal. unfold rasters in Hb. rewrite Forall_lookup in Hb.
    destruct (Hb k p Hp) as [H1 _].
    rewrite (has_shape_T3 p.1 x00 H W 4 H1) at 1.
    apply T3_ext. intros i j c _ _ _. unfold layer_entry. by rewrite Hp.
  - rewrite lookup_tab_ge by lia. by rewrite lookup_ge_None_2 by lia.
Qed.

Lemma batch_depths :
  b.*2 = tab (length b) (λ k, T2 H W (depth_entry b k)).
Proof.
  apply list_eq. intros k. rewrite list_lookup_fmap.
  destruct (decide (k < length b)%nat) as [Hk|Hk].
  - rewrite lookup_tab by done.
    destruct (lookup_lt_is_Some_2 b k Hk) as [p Hp]. rewrite Hp. simpl.
    f_equal. unfold rasters in Hb. rewrite Forall_lookup in Hb.
    destruct (Hb k p Hp) as [_ H2].
    rewrite (has_shape_T2 p.2 fzero H W H2) at 1.
    apply T2_ext. intros i j _ _. unfold depth_entry. by rewrite Hp.
  - rewrite lookup_tab_ge by lia. by rewrite lookup_ge_None_2 by lia.
Qed.

Lemma batch_samples_table i j c :
  batch_samples b i j c
  = tab (length b) (λ k, sample_at (layer_entry b) (depth_entry b) k i j c).
Proof.
  apply list_eq. intros k. unfold batch_samples.
  rewrite list_lookup_fmap.
  destruct (decide (k < length b)%nat) as [Hk|Hk].
  - rewrite lookup_tab by done.
    destruct (lookup_lt_is_Some_2 b k Hk) as [p Hp]. rewrite Hp. simpl.
    f_equal. unfold sample_at, sample_of, layer_entry, depth_entry.
    by rewrite Hp.
  - rewrite lookup_tab_ge by lia. by rewrite lookup_ge_None_2 by lia.
Qed.
End batch_as_table.

Lemma ndim_stack_T2 {A} n H W (f : nat → nat → nat → A) :
  (ndim (Ar (tab (S n) (λ k, T2 H W (f k)))) <? 4)%nat = true.
Proof.
  change (ndim (Ar (tab (S n) (λ k, T2 H W (f k)))))
    with (S (ndim (T2 H W (f 0%nat)))).
  rewrite ndim_T2. by destruct H.
Qed.

Lemma newaxis_last_stack {A} n H W (f : nat → nat → nat → A) :
  newaxis_last (Ar (tab n (λ k, T2 H W (f k))))
  = Ar (tab n (λ k, T3 H W 1 (λ i j _, f k i j))).
Proof.
  simpl. rewrite fmap_tab. f_equal. apply tab_ext. intros k _.
  apply newaxis_last_T2.
Qed.

Lemma prepare_depth_list H W n L D locs σ :
  Forall2 (λ l d, σ !! l = Some d) locs (tab (S n) (λ k, T2 H W (D k))) →
  prepare_depth (Some (DList locs)) σ = (Ok (depth_of H W n L D true), σ).
Proof.
  intros Hst. unfold prepare_depth.
  erewrite run_bind; last first.
  { erewrite run_bind; [|by apply mapM_load].
    erewrite run_bind; [done|]. unfold lift.
    by rewrite stack_tab by (intros; apply same_shape_T2). }
  erewrite run_bind; [|done]. rewrite ndim_stack_T2.
  erewrite run_bind; [|done].
  erewrite run_bind; [|done].
  rewrite newaxis_last_stack, nd_map_Ar_tab.
  rewrite (tab_ext _ _ (λ k, T3 H W 1 (λ i j _, sentinel_to_inf (D k i j))))
    by (intros; apply nd_map_T3).
  fold (depths_at H W n D).
  erewrite run_bind; [done|]. unfold lift.
  by rewrite (amin0_depths H W n L D).
Qed.

(** A call on a batch of rasters of one size returns the image of the
    integer specification and leaves the store as it is. *)
Theorem combine_scene_image_composite H W use_depth (b : batch) locs bg σ :
  b ≠ [] → rasters H W b → has_shape [H; W; 3%nat] bg = true →
  (use_depth = true → stored σ locs b) →
  combine_scene_image (RList b.*1) bg (depth_arg_of use_depth locs) σ
  = (Ok (composite H W use_depth b bg), σ).
Proof.
  intros Hne Hb Hbg Hst.
  assert (∃ n, length b = S n) as [n Hn].
  { destruct b; [done|]. simpl. eauto. }
  pose proof (batch_layers H W b Hb) as HL.
  pose proof (batch_depths H W b Hb) as HD. rewrite Hn in HL, HD.
  unfold combine_scene_image. rewrite py_bind_run.
  assert (prepare_depth (depth_arg_of use_depth locs) σ
          = (Ok (depth_of H W n (layer_entry b) (depth_entry b) use_depth), σ))
    as ->.
  { destruct use_depth; [|done]. apply prepare_depth_list.
    rewrite <- HD. apply Forall2_fmap_r. by apply Hst. }
  unfold lift. f_equal. rewrite HL, (has_shape_T3 bg x00 H W 3 Hbg).
  rewrite overlay_pointwise. f_equal. unfold composite.
  apply T3_ext. intros i j c Hi Hj Hc.
  rewrite pixel_out_spec, (batch_samples_table b), Hn. f_equal.
  unfold nd_at. by rewrite nd_lookup_T3.
Qed.

(** * Shapes that do not broadcast *)

Lemma mapM_tab_Raise_first {A B} (g : A → result B) n (f : nat → A) e :
  g (f 0%nat) = Raise e → mapM g (tab (S n) f) = Raise e.
Proof.
  intros Hg. change (tab (S n) f) with (f 0%nat :: (f <$> seq 1 n)).
  by apply mapM_Raise_head.
Qed.

Lemma bc2_tab_mismatch {A B C} (f : A → B → C) n n' a b :
  (0 < n)%nat → (0 < n')%nat → ¬ compatible n n' →
  bc2 f (Ar (tab n a)) (Ar (tab n' b)) = Raise ValueError.
Proof.
  intros Hn Hn' Hc. unfold compatible in Hc.
  destruct n as [|[|n]]; [lia|lia|]. destruct n' as [|[|n']]; [lia|lia|].
  cbn [bc2]. rewrite !length_tab.
  destruct (Nat.eqb_spec (S (S n)) (S (S n'))); [lia|done].
Qed.

Lemma bc2_tab_rows {A B C} (f : A → B → C) n n' a b e :
  (0 < n)%nat → (0 < n')%nat → compatible n n' →
  (∀ i i', bc2 f (a i) (b i') = Raise e) →
  bc2 f (Ar (tab n a)) (Ar (tab n' b)) = Raise e.
Proof.
  intros Hn Hn' Hc Hrow. cbn [bc2]. rewrite !length_tab.
  destruct (Nat.eqb_spec n n') as [<-|Hne].
  - rewrite zip_with_tab. destruct n as [|n]; [lia|].
    by rewrite (mapM_tab_Raise_first _ _ _ e) by apply Hrow.
  - destruct Hc as [?|[->| ->]]; [done| |].
    + change (tab 1 a) with [a 0%nat]. cbv iota beta.
      destruct n' as [|n']; [lia|].
      by rewrite (mapM_tab_Raise_first _ _ _ e) by apply Hrow.
    + change (tab 1 b) with [b 0%nat].
      destruct n as [|[|n]]; [lia|lia|].
      change (tab (S (S n)) a)
        with (a 0%nat :: a 1%nat :: (a <$> seq 2 n)) at 1.
      cbv iota beta.
      by rewrite (mapM_tab_Raise_first _ _ _ e) by apply Hrow.
Qed.

Lemma broadcast_T3_mismatch {A B C} (f : A → B → C) H W H' W' c c' m g :
  (0 < H)%nat → (0 < W)%nat → (0 < H')%nat → (0 < W')%nat →
  ¬ compatible H H' ∨ ¬ compatible W W' →
  broadcast f (T3 H W c m) (T3 H' W' c' g) = Raise ValueError.
Proof.
  intros HH HW HH' HW' Hbad.
  rewrite broadcast_same_ndim.
  2:{ rewrite !ndim_T3. by destruct H, W, H', W'; try lia. }
  unfold T3.
  destruct (decide (compatible H H')) as [Hc|Hc].
  - destruct Hbad as [?|Hbad]; [done|].
    apply bc2_tab_rows; [done..|]. intros i i'. unfold T2.
    by apply bc2_tab_mismatch.
  - by apply bc2_tab_mismatch.
Qed.

(** * Entries of a mapped array *)

Lemma ndarray_ind {A} (P : ndarray A → Prop) :
  (∀ x, P (Sc x)) → (∀ l, Forall P l → P (Ar l)) → ∀ a, P a.
Proof.
  intros HSc HAr. fix IH 1. intros [x|l]; [apply HSc|].
  apply HAr. induction l as [|a l IHl]; constructor; [apply IH|apply IHl].
Qed.

Lemma nd_lookup_nd_map {A B} (f : A → B) a ix :
  nd_lookup (nd_map f a) ix = f <$> nd_lookup a ix.
Proof.
  revert ix. induction a as [x|l IH] using ndarray_ind; intros ix.
  - by destruct ix.
  - destruct ix as [|i ix]; [done|]. simpl. rewrite list_lookup_fmap.
    destruct (l !! i) as [a|] eqn:Hi; [|done]. simpl.
    rewrite Forall_lookup in IH. by apply (IH i a).
Qed.

(** * Multiplication by -1.0 *)

Lemma digits2_shift23 m :
  Z.pos (digits2_pos (m * 8388608)) = Z.pos (digits2_pos m) + 23.
Proof.
  rewrite !digits_log2, Pos2Z.inj_mul. change (Z.pos 8388608) with (2 ^ 23).
  rewrite Z.log2_mul_pow2 by lia. lia.
Qed.

Lemma f32_mul_neg1 x :
  valid_binary 24 128 x = true → F32.mul x (F32.of_Z (-1)) = SFopp x.
Proof.
  destruct x as [[|]|[|]| |s m e]; try done.
  intros [Hc He]%andb_true_iff. apply Z.eqb_eq in Hc. apply Z.leb_le in He.
  change (F32.of_Z (-1)) with (S754_finite true 8388608 (-23)).
  unfold F32.mul, SFmul, binary_round_aux, shr_fexp.
  change (Zdigits2 (Z.pos (m * 8388608)))
    with (Z.pos (digits2_pos (m * 8388608))).
  rewrite digits2_shift23.
  replace (Z.pos (digits2_pos m) + 23 + (e + -23))
    with (Z.pos (digits2_pos m) + e) by lia.
  change F32.prec with 24. change F32.emax with 128. rewrite Hc.
  replace (e - (e + -23)) with 23 by lia.
  rewrite Pos.mul_comm. cbn [shr shr_record_of_loc].
  change (SpecFloat.iter_pos shr_1 23 _)
    with {| shr_m := Z.pos m; shr_r := false; shr_s := false |}.
  cbn [shr_m loc_of_shr_record round_nearest_even Zdigits2 shr_record_of_loc].
  replace (e + -23 + 23) with e by lia. rewrite Hc, Z.sub_diag.
  cbn [shr shr_m].
  destruct (Z.leb_spec e (128 - 24)) as [_|?]; [|lia].
  by destruct s.
Qed.

(** * The claims *)

Lemma nd_lookup_shape3 {A} (a : ndarray A) d H W C i j c :
  has_shape [H; W; C] a = true → (i < H)%nat → (j < W)%nat → (c < C)%nat →
  nd_lookup a [i; j; c] = Some (nd_at d a [i; j; c]).
Proof.
  intros Ha Hi Hj Hc. pose proof (has_shape_T3 a d H W C Ha) as Heq.
  unfold nd_at. destruct (nd_lookup a [i; j; c]) as [x|] eqn:Hx; [done|].
  rewrite Heq, nd_lookup_T3 in Hx by done. done.
Qed.

Lemma has_shape_of_T2 {A} H W (f : nat → nat → A) :
  has_shape [H; W] (T2 H W f) = true.
Proof.
  unfold T2. simpl. rewrite length_tab, Nat.eqb_refl. simpl.
  apply forallb_tab. intros i _. unfold T1. simpl.
  rewrite length_tab, Nat.eqb_refl. simpl. by apply forallb_tab.
Qed.

(** ** C1 *)

(** A single layer raster is promoted to a batch of one. *)
Lemma single_layer_promoted a image depth σ :
  (ndim a < 4)%nat → has_shape (shape a) a = true →
  combine_scene_image (RArr a) image depth σ
  = combine_scene_image (RList [a]) image depth σ.
Proof.
  intros Hn Ha. unfold combine_scene_image.
  destruct (Nat.ltb_spec (ndim a) 4) as [_|?]; [|lia].
  unfold overlay, asarray_rgba, stack. simpl forallb. by rewrite Ha.
Qed.

(** C1, at the input where the code departs from it: a depth buffer
    passed as a single raster is not promoted to a batch of one.  The
    call with the layer and its depth as single rasters loses the layer
    and returns the background, the call with the same two rasters as
    lists of length one returns the layer. *)
Theorem single_depth_raster_not_promoted :
  (combine_scene_image (RArr ex_rgba) ex_image (Some (DArr 1%positive)) ex_store).1
  = Ok ex_image
  ∧ (combine_scene_image (RList [ex_rgba]) ex_image
       (Some (DList [1%positive])) ex_store).1
    = Ok (of3 [[rgb 10 20 30]; [rgb 40 50 60]]).
Proof. split; vm_compute; reflexivity. Qed.

(** ** C2 *)

(** C2 fails where two layers tie in depth: both count, and the pixel
    is the sum of their colours, which is neither of the two layers nor
    the background. *)
Lemma tie_is_blended :
  (combine_scene_image (RList [tie_a; tie_b]) tie_image
     (Some (DList [1%positive; 2%positive])) tie_store).1
  = Ok (of3 [[rgb 100 100 0]])
  ∧ of3 [[rgb 100 100 0]] ≠ of3 [[rgb 100 0 0]]
  ∧ of3 [[rgb 100 100 0]] ≠ of3 [[rgb 0 100 0]]
  ∧ of3 [[rgb 100 100 0]] ≠ tie_image.
Proof. split; [vm_compute; reflexivity|]. by repeat split. Qed.

(** C2 as amended: every pixel of the result is defined.  It is the
    background pixel where no layer counts, the colour of the layer
    where exactly one layer counts, and where several layers count
    (overlap without depth, or an exact tie in depth) the sum of their
    colours saturated at 255. *)
Theorem pixel_sources H W use_depth (b : batch) locs bg σ :
  b ≠ [] → rasters H W b → has_shape [H; W; 3%nat] bg = true →
  (use_depth = true → stored σ locs b) →
  ∃ out,
    combine_scene_image (RList b.*1) bg (depth_arg_of use_depth locs) σ
    = (Ok out, σ) ∧
    ∀ i j c, (i < H)%nat → (j < W)%nat → (c < 3)%nat →
      let ss := batch_samples b i j c in
      (Forall (λ s, effective use_depth ss s = false) ss →
       nd_lookup out [i; j; c] = nd_lookup bg [i; j; c]) ∧
      (∀ l1 s l2, ss = l1 ++ s :: l2 →
         effective use_depth ss s = true →
         Forall (λ s', effective use_depth ss s' = false) (l1 ++ l2) →
         nd_lookup out [i; j; c] = Some (s_value s)) ∧
      (Exists (λ s, effective use_depth ss s = true) ss →
       nd_lookup out [i; j; c]
       = Some (byte_of_Z (Z.min 255 (total (masked_value use_depth ss <$> ss))))).
Proof.
  intros Hne Hb Hbg Hst. eexists. split.
  { by apply combine_scene_image_composite. }
  intros i j c Hi Hj Hc ss. unfold composite.
  rewrite nd_lookup_T3 by done. fold ss. repeat split.
  - intros Hnone. rewrite (nd_lookup_shape3 bg x00 H W 3) by done. f_equal.
    unfold composite_pixel.
    assert (existsb (effective use_depth ss) ss = false) as ->; [|done].
    apply not_true_is_false. intros (s & Hin & Hs)%existsb_exists.
    rewrite Forall_forall in Hnone.
    apply list_elem_of_In in Hin. by rewrite (Hnone s Hin) in Hs.
  - intros l1 s l2 Hss Hs Hothers. f_equal. rewrite Hss in *.
    by apply composite_pixel_single.
  - intros Hex. f_equal. unfold composite_pixel.
    assert (existsb (effective use_depth ss) ss = true) as ->; [|done].
    apply Exists_exists in Hex as (s & Hin & Hs).
    apply existsb_exists. exists s. split; [|done]. by apply list_elem_of_In.
Qed.

Lemma pixel_sources_witness :
  ∃ out,
    combine_scene_image (RList [(tie_a, tie_depth); (tie_b, tie_depth)].*1)
      tie_image (depth_arg_of true [1%positive; 2%positive]) tie_store
    = (Ok out, tie_store) ∧
    ∀ i j c, (i < 1)%nat → (j < 1)%nat → (c < 3)%nat →
      let ss := batch_samples [(tie_a, tie_depth); (tie_b, tie_depth)] i j c in
      (Forall (λ s, effective true ss s = false) ss →
       nd_lookup out [i; j; c] = nd_lookup tie_image [i; j; c]) ∧
      (∀ l1 s l2, ss = l1 ++ s :: l2 →
         effective true ss s = true →
         Forall (λ s', effective true ss s' = false) (l1 ++ l2) →
         nd_lookup out [i; j; c] = Some (s_value s)) ∧
      (Exists (λ s, effective true ss s = true) ss →
       nd_lookup out [i; j; c]
       = Some (byte_of_Z (Z.min 255 (total (masked_value true ss <$> ss))))).
Proof.
  apply (pixel_sources 1 1 true [(tie_a, tie_depth); (tie_b, tie_depth)]
           [1%positive; 2%positive] tie_image tie_store).
  - done.
  - repeat constructor.
  - reflexivity.
  - intros _. repeat constructor.
Defined.

(** ** C3 *)

Lemma fltb_trans x y z : fltb x y = true → fltb y z = true → fltb x z = true.
Proof.
  intros Hxy Hyz.
  destruct (rank x) as [rx|] eqn:Hx;
    [|apply rank_None in Hx; by rewrite Hx in Hxy].
  destruct (rank y) as [ry|] eqn:Hy;
    [|apply rank_None in Hy; by rewrite Hy in Hyz].
  destruct (rank z) as [rz|] eqn:Hz;
    [|apply rank_None in Hz; by rewrite Hz, fltb_nan_r in Hyz].
  apply (fltb_rank x y rx ry Hx Hy) in Hxy.
  apply (fltb_rank y z ry rz Hy Hz) in Hyz.
  apply (fltb_rank x z rx rz Hx Hz).
  destruct rx as [[a b] c], ry as [[a' b'] c'], rz as [[a'' b''] c''].
  unfold lt3 in *. lia.
Qed.

Lemma sample_of_covers i j c p :
  nd_at x00 p.1 [i; j; 3%nat] ≠ x00 → covers (sample_of i j c p) = true.
Proof.
  intros Ha. unfold covers, sample_of. simpl. rewrite covers_alpha.
  apply Z.ltb_lt. pose proof (u8_range (nd_at x00 p.1 [i; j; 3%nat])).
  destruct (decide (u8 (nd_at x00 p.1 [i; j; 3%nat]) = 0)) as [Hz|]; [|lia].
  exfalso. apply Ha. rewrite <- (byte_of_Z_u8 (nd_at _ _ _)). by rewrite Hz.
Qed.

(** C3: in depth mode, at a pixel that layer A covers with a real
    depth that is strictly smaller than the depth of every other layer
    there (A at 1.0 and B at 2.0, say), the output pixel is the colour of
    A: not that of another layer and not a blend. *)
Theorem nearest_layer_shown H W (b1 b2 : batch) A dA locs bg σ i j :
  rasters H W (b1 ++ (A, dA) :: b2) →
  has_shape [H; W; 3%nat] bg = true →
  stored σ locs (b1 ++ (A, dA) :: b2) →
  (i < H)%nat → (j < W)%nat →
  nd_at x00 A [i; j; 3%nat] ≠ x00 →
  fltb fzero (nd_at fzero dA [i; j]) = true →
  Forall (λ p, fltb (nd_at fzero dA [i; j]) (nd_at fzero p.2 [i; j]) = true)
    (b1 ++ b2) →
  ∃ out,
    combine_scene_image (RList (b1 ++ (A, dA) :: b2).*1) bg
      (Some (DList locs)) σ = (Ok out, σ) ∧
    ∀ c, (c < 3)%nat → nd_lookup out [i; j; c] = nd_lookup A [i; j; c].
Proof.
  intros Hb Hbg Hst Hi Hj Hcov HdA Hothers. eexists. split.
  { apply (combine_scene_image_composite H W true); [|done..].
    by destruct b1. }
  intros c Hc. unfold composite. rewrite nd_lookup_T3 by done.
  assert (has_shape [H; W; 4%nat] A = true) as HA.
  { unfold rasters in Hb. rewrite Forall_app, Forall_cons in Hb.
    by destruct Hb as (_ & [? _] & _). }
  rewrite (nd_lookup_shape3 A x00 H W 4) by (done || lia). f_equal.
  unfold batch_samples. rewrite fmap_app, fmap_cons.
  rewrite composite_pixel_nearest; [done|..].
  - by apply sample_of_covers.
  - unfold corrected_depth, sample_of. simpl.
    rewrite sentinel_to_inf_positive by done.
    destruct (rank (nd_at fzero dA [i; j])) eqn:Hr; [by eauto|].
    apply rank_None in Hr. by rewrite Hr, fltb_nan_r in HdA.
  - rewrite <- fmap_app. apply Forall_fmap. eapply Forall_impl; [exact Hothers|].
    intros p Hp. unfold corrected_depth, sample_of. simpl.
    rewrite !sentinel_to_inf_positive; [done| |done].
    by eapply fltb_trans.
Qed.

Lemma nearest_layer_shown_witness :
  ∃ out,
    combine_scene_image
      (RList ([(far_rgba, far_depth)] ++ (near_rgba, near_depth) :: []).*1)
      tie_image (Some (DList [2%positive; 1%positive])) pair_store
    = (Ok out, pair_store) ∧
    ∀ c, (c < 3)%nat → nd_lookup out [0%nat; 0%nat; c] = nd_lookup near_rgba [0%nat; 0%nat; c].
Proof.
  apply (nearest_layer_shown 1 1 [(far_rgba, far_depth)] [] near_rgba
           near_depth [2%positive; 1%positive] tie_image pair_store 0 0).
  - repeat constructor.
  - reflexivity.
  - repeat constructor.
  - lia.
  - lia.
  - vm_compute. discriminate.
  - vm_compute. reflexivity.
  - repeat constructor.
Defined.

(** ** C4 *)

Lemma nd_lookup_Ar {A} (l : list (ndarray A)) k x ix :
  l !! k = Some x → nd_lookup (Ar l) (k :: ix) = nd_lookup x ix.
Proof. intros Hk. simpl. by rewrite Hk. Qed.

(** C4: in depth mode every depth of zero is replaced by positive
    infinity before the minimum over the layers is taken, so at a pixel
    where layer [k] has the sentinel depth and another layer has a
    finite positive depth, the mask of layer [k] is false and it
    contributes nothing. *)
Theorem sentinel_layer_never_wins H W (b : batch) locs σ k k' pS pP i j :
  rasters H W b → stored σ locs b →
  b !! k = Some pS → b !! k' = Some pP →
  (i < H)%nat → (j < W)%nat →
  feqb (nd_at fzero pS.2 [i; j]) fzero = true →
  fltb fzero (nd_at fzero pP.2 [i; j]) = true →
  fltb (nd_at fzero pP.2 [i; j]) finf = true →
  ∃ scene_depth min_depth body mask,
    prepare_depth (Some (DList locs)) σ
    = (Ok (Some (scene_depth, min_depth)), σ) ∧
    nd_lookup scene_depth [k; i; j; 0%nat] = Some finf ∧
    scene_step (Some (scene_depth, min_depth)) k (nd_map normalize_scene pS.1)
    = Ok (body, mask) ∧
    nd_lookup mask [i; j; 0%nat] = Some false ∧
    ∀ c, (c < 3)%nat → nd_lookup body [i; j; c] = Some fzero.
Proof.
  intros Hb Hst HS HP Hi Hj Hzero Hpos Hfin.
  assert (∃ n, length b = S n) as [n Hn].
  { destruct b; [done|]. simpl. eauto. }
  assert (k < S n)%nat as Hk by (rewrite <- Hn; by eapply lookup_lt_Some).
  pose proof (batch_layers H W b Hb) as HL.
  pose proof (batch_depths H W b Hb) as HD. rewrite Hn in HL, HD.
  set (L := layer_entry b). set (D := depth_entry b).
  assert (effective true (samples_at n L D i j 0) (sample_at L D k i j 0) = false)
    as Heff.
  { assert (samples_at n L D i j 0 = batch_samples b i j 0) as ->.
    { by rewrite (batch_samples_table b), Hn. }
    assert (sample_at L D k i j 0 = sample_of i j 0 pS) as ->.
    { unfold sample_at, sample_of, L, D, layer_entry, depth_entry.
      by rewrite HS. }
    apply (sentinel_not_effective _ _ (sample_of i j 0 pP)); [..|done|done|done].
    - apply list_elem_of_fmap_2. by eapply list_elem_of_lookup_2.
    - apply list_elem_of_fmap_2. by eapply list_elem_of_lookup_2. }
  exists (depths_at H W n D), (min_depth_at H W n L D).
  exists (T3 H W 3 (λ i j c, mask_mul (normalize_scene (L k i j c))
                              (mask_at n L D true k i j))),
    (T3 H W 1 (λ i j _, mask_at n L D true k i j)).
  split; [|split; [|split; [|split]]].
  - apply (prepare_depth_list H W n L D). fold D in HD. rewrite <- HD.
    apply Forall2_fmap_r. exact Hst.
  - unfold depths_at.
    rewrite (nd_lookup_Ar _ k _ _ (lookup_tab _ _ _ Hk)).
    rewrite nd_lookup_T3 by (done || lia). f_equal.
    unfold D, depth_entry. rewrite HS.
    change (sentinel_to_inf (nd_at fzero pS.2 [i; j]) = finf).
    unfold sentinel_to_inf. by rewrite Hzero.
  - assert (pS.1 = T3 H W 4 (L k)) as ->.
    { apply (f_equal (λ l, l !! k)) in HL.
      rewrite list_lookup_fmap, HS, lookup_tab in HL by done.
      by injection HL. }
    rewrite nd_map_T3.
    apply (scene_step_pointwise H W n L D true k Hk).
  - rewrite nd_lookup_T3 by (done || lia). f_equal. exact Heff.
  - intros c Hc. rewrite nd_lookup_T3 by done. f_equal.
    unfold mask_at. rewrite Heff. apply mask_mul_false.
Qed.

Lemma sentinel_layer_never_wins_witness :
  ∃ scene_depth min_depth body mask,
    prepare_depth (Some (DList [1%positive; 2%positive])) sentinel_store
    = (Ok (Some (scene_depth, min_depth)), sentinel_store) ∧
    nd_lookup scene_depth [0%nat; 0%nat; 0%nat; 0%nat] = Some finf ∧
    scene_step (Some (scene_depth, min_depth)) 0
      (nd_map normalize_scene (near_rgba, no_depth).1)
    = Ok (body, mask) ∧
    nd_lookup mask [0%nat; 0%nat; 0%nat] = Some false ∧
    ∀ c, (c < 3)%nat → nd_lookup body [0%nat; 0%nat; c] = Some fzero.
Proof.
  apply (sentinel_layer_never_wins 1 1
           [(near_rgba, no_depth); (far_rgba, far_depth)]
           [1%positive; 2%positive] sentinel_store 0 1
           (near_rgba, no_depth) (far_rgba, far_depth) 0 0).
  - repeat constructor.
  - repeat constructor.
  - reflexivity.
  - reflexivity.
  - lia.
  - lia.
  - vm_compute. reflexivity.
  - vm_compute. reflexivity.
  - vm_compute. reflexivity.
Defined.

(** ** C5 *)

(** C5: without depth, two opaque layers that are red (255, 0, 0) and
    green (0, 255, 0) at a pixel give (255, 255, 0) there: no channel
    exceeds the display range. *)
Theorem overlap_is_clamped H W A B bg σ i j :
  has_shape [H; W; 4%nat] A = true → has_shape [H; W; 4%nat] B = true →
  has_shape [H; W; 3%nat] bg = true →
  (i < H)%nat → (j < W)%nat →
  (nd_lookup A [i; j; 0%nat], nd_lookup A [i; j; 1%nat],
   nd_lookup A [i; j; 2%nat], nd_lookup A [i; j; 3%nat])
  = (Some xff, Some x00, Some x00, Some xff) →
  (nd_lookup B [i; j; 0%nat], nd_lookup B [i; j; 1%nat],
   nd_lookup B [i; j; 2%nat], nd_lookup B [i; j; 3%nat])
  = (Some x00, Some xff, Some x00, Some xff) →
  ∃ out,
    combine_scene_image (RList [A; B]) bg None σ = (Ok out, σ) ∧
    nd_lookup out [i; j; 0%nat] = Some xff ∧
    nd_lookup out [i; j; 1%nat] = Some xff ∧
    nd_lookup out [i; j; 2%nat] = Some x00.
Proof.
  intros HA HB Hbg Hi Hj [= A0 A1 A2 A3] [= B0 B1 B2 B3].
  set (dz := T2 H W (λ _ _, fzero)).
  eexists. split.
  { apply (combine_scene_image_composite H W false [(A, dz); (B, dz)] []);
      [done| |done|done].
    repeat constructor; simpl; try done; apply has_shape_of_T2. }
  unfold composite. rewrite !nd_lookup_T3 by (done || lia).
  unfold batch_samples, sample_of, nd_at. simpl fmap. cbn [fst snd].
  rewrite A0, A1, A2, A3, B0, B1, B2, B3. simpl default.
  repeat split; f_equal; vm_compute; reflexivity.
Qed.

Lemma overlap_is_clamped_witness :
  ∃ out,
    combine_scene_image (RList [red_rgba; green_rgba]) tie_image None ∅
    = (Ok out, ∅) ∧
    nd_lookup out [0%nat; 0%nat; 0%nat] = Some xff ∧
    nd_lookup out [0%nat; 0%nat; 1%nat] = Some xff ∧
    nd_lookup out [0%nat; 0%nat; 2%nat] = Some x00.
Proof.
  apply (overlap_is_clamped 1 1 red_rgba green_rgba tie_image ∅ 0 0).
  - reflexivity.
  - reflexivity.
  - reflexivity.
  - lia.
  - lia.
  - reflexivity.
  - reflexivity.
Defined.

(** ** C6 *)

(** C6: a batch whose layers have alpha 0 at every pixel reproduces
    the background exactly, with or without depth: such layers
    contribute nothing and mark no pixel as covered. *)
Theorem no_coverage_identity H W use_depth (b : batch) locs bg σ :
  b ≠ [] → rasters H W b → has_shape [H; W; 3%nat] bg = true →
  (use_depth = true → stored σ locs b) →
  (∀ p i j, p ∈ b → (i < H)%nat → (j < W)%nat →
            nd_lookup p.1 [i; j; 3%nat] = Some x00) →
  combine_scene_image (RList b.*1) bg (depth_arg_of use_depth locs) σ
  = (Ok bg, σ).
Proof.
  intros Hne Hb Hbg Hst Halpha.
  rewrite (combine_scene_image_composite H W) by done. do 2 f_equal.
  rewrite (has_shape_T3 bg x00 H W 3 Hbg) at 2. unfold composite.
  apply T3_ext. intros i j c Hi Hj Hc.
  apply composite_pixel_uncovered. unfold batch_samples.
  apply Forall_fmap, Forall_forall. intros p Hp. simpl. unfold nd_at.
  by rewrite (Halpha p i j Hp Hi Hj).
Qed.

Lemma no_coverage_identity_witness :
  combine_scene_image (RList [(empty_rgba, far_depth)].*1) tie_image
    (depth_arg_of true [2%positive]) pair_store
  = (Ok tie_image, pair_store).
Proof.
  apply (no_coverage_identity 1 1 true [(empty_rgba, far_depth)]
           [2%positive] tie_image pair_store).
  - done.
  - repeat constructor.
  - reflexivity.
  - intros _. repeat constructor.
  - intros p i j Hp Hi Hj. apply list_elem_of_singleton in Hp as ->.
    assert (i = 0%nat) as -> by lia. assert (j = 0%nat) as -> by lia.
    reflexivity.
Defined.

(** ** C7 *)

Lemma rasters_perm H W (b b' : batch) :
  Permutation b b' → rasters H W b → rasters H W b'.
Proof. intros Hp Hb. unfold rasters in *. by rewrite <- Hp. Qed.

Lemma composite_perm H W use_depth (b b' : batch) bg :
  Permutation b b' → composite H W use_depth b' bg = composite H W use_depth b bg.
Proof.
  intros Hp. unfold composite. apply T3_ext. intros i j c _ _ _.
  apply composite_pixel_perm. unfold batch_samples.
  by apply fmap_Permutation.
Qed.

(** C7: the output does not depend on the order of the batch.  A batch
    of layers with their depth buffers and the same pairs in another
    order give the same image, with depth and without. *)
Theorem order_independent H W use_depth (b b' : batch) locs locs' bg σ :
  b ≠ [] → rasters H W b → has_shape [H; W; 3%nat] bg = true →
  Permutation b b' →
  (use_depth = true → stored σ locs b ∧ stored σ locs' b') →
  combine_scene_image (RList b'.*1) bg (depth_arg_of use_depth locs') σ
  = combine_scene_image (RList b.*1) bg (depth_arg_of use_depth locs) σ.
Proof.
  intros Hne Hb Hbg Hp Hst.
  assert (use_depth = true → stored σ locs b) as Hst1
    by (intros Hu; by destruct (Hst Hu)).
  assert (use_depth = true → stored σ locs' b') as Hst2
    by (intros Hu; by destruct (Hst Hu)).
  rewrite (combine_scene_image_composite H W use_depth b) by done.
  rewrite (combine_scene_image_composite H W use_depth b').
  - by rewrite (composite_perm H W use_depth b b').
  - intros ->. apply Permutation_nil_r in Hp. done.
  - by eapply rasters_perm.
  - done.
  - done.
Qed.

Lemma order_independent_witness :
  combine_scene_image
    (RList [(far_rgba, far_depth); (near_rgba, near_depth)].*1) tie_image
    (depth_arg_of true [2%positive; 1%positive]) pair_store
  = combine_scene_image
      (RList [(near_rgba, near_depth); (far_rgba, far_depth)].*1) tie_image
      (depth_arg_of true [1%positive; 2%positive]) pair_store.
Proof.
  apply (order_independent 1 1 true
           [(near_rgba, near_depth); (far_rgba, far_depth)]
           [(far_rgba, far_depth); (near_rgba, near_depth)]
           [1%positive; 2%positive] [2%positive; 1%positive]
           tie_image pair_store).
  - done.
  - repeat constructor.
  - reflexivity.
  - apply perm_swap.
  - intros _. split; repeat constructor.
Defined.

(** ** C8 *)

(** C8 fails on a background of one pixel under a layer of two rows and
    two columns: no error is raised, the pixel of the background is
    repeated under the whole layer. *)
Lemma mismatch_is_broadcast :
  has_shape [2; 2; 4]%nat wide_rgba = true
  ∧ has_shape [1; 1; 3]%nat small_image = true
  ∧ (combine_scene_image (RList [wide_rgba]) small_image None ∅).1
    = Ok (of3 [[rgb 1 2 3; rgb 7 8 9]; [rgb 7 8 9; rgb 1 2 3]]).
Proof. repeat split; vm_compute; reflexivity. Qed.

(** C8 as amended: the compositor does not check the dimensions
    itself.  Where the height or the width of the background differs
    from that of the layers and neither of the two sizes is 1, the call
    fails with the [ValueError] that the broadcasting of the array
    arithmetic raises, and the store is as before. *)
Theorem mismatch_raises H W H' W' use_depth (b : batch) locs bg σ :
  (0 < H)%nat → (0 < W)%nat → (0 < H')%nat → (0 < W')%nat →
  b ≠ [] → rasters H W b → has_shape [H'; W'; 3%nat] bg = true →
  (use_depth = true → stored σ locs b) →
  ¬ compatible H H' ∨ ¬ compatible W W' →
  combine_scene_image (RList b.*1) bg (depth_arg_of use_depth locs) σ
  = (Raise ValueError, σ).
Proof.
  intros HH HW HH' HW' Hne Hb Hbg Hst Hbad.
  assert (∃ n, length b = S n) as [n Hn].
  { destruct b; [done|]. simpl. eauto. }
  pose proof (batch_layers H W b Hb) as HL.
  pose proof (batch_depths H W b Hb) as HD. rewrite Hn in HL, HD.
  unfold combine_scene_image. rewrite py_bind_run.
  assert (prepare_depth (depth_arg_of use_depth locs) σ
          = (Ok (depth_of H W n (layer_entry b) (depth_entry b) use_depth), σ))
    as ->.
  { destruct use_depth; [|done]. apply prepare_depth_list.
    rewrite <- HD. apply Forall2_fmap_r. by apply Hst. }
  unfold lift. f_equal. rewrite HL, (has_shape_T3 bg x00 H' W' 3 Hbg).
  rewrite overlay_front, nd_map_T3.
  by rewrite broadcast_T3_mismatch.
Qed.

Lemma mismatch_raises_witness :
  combine_scene_image (RList [(wide_rgba, T2 2 2 (λ _ _, fzero))].*1)
    tall_image (depth_arg_of false []) ∅
  = (Raise ValueError, ∅).
Proof.
  apply (mismatch_raises 2 2 3 1 false [(wide_rgba, T2 2 2 (λ _ _, fzero))]
           [] tall_image ∅).
  - lia.
  - lia.
  - lia.
  - lia.
  - done.
  - repeat constructor.
  - reflexivity.
  - intros Hu. discriminate Hu.
  - left. unfold compatible. lia.
Defined.

(** ** C9 *)

Lemma mapM_load_store ls σ : (mapM load ls σ).2 = σ.
Proof.
  induction ls as [|l ls IH]; [done|].
  change (mapM load (l :: ls)) with
    (y ← load l; k ← mapM load ls; mret (y :: k)).
  rewrite py_bind_run. unfold load at 1. destruct (σ !! l); [|done].
  rewrite py_bind_run. destruct (mapM load ls σ) as [[k|e] σ'] eqn:Hm;
    simpl in IH; by subst.
Qed.

Lemma prepare_depth_list_store ls σ :
  (prepare_depth (Some (DList ls)) σ).2 = σ.
Proof.
  unfold prepare_depth. rewrite py_bind_run. rewrite py_bind_run.
  pose proof (mapM_load_store ls σ) as Hm.
  destruct (mapM load ls σ) as [[vs|e] σ']; simpl in Hm; subst σ'; [|done].
  rewrite py_bind_run. unfold lift at 1.
  destruct (stack vs) as [a|e]; [|done].
  cbn [mret py_ret]. rewrite py_bind_run. cbn [deref mret py_ret].
  rewrite py_bind_run.
  destruct (ndim a <? 4)%nat; cbn [view_newaxis set_sentinels mret py_ret];
    rewrite py_bind_run; cbn [deref mret py_ret]; rewrite py_bind_run;
    unfold lift; by destruct (amin0 _).
Qed.

Lemma prepare_depth_array_store l d σ :
  σ !! l = Some d →
  (prepare_depth (Some (DArr l)) σ).2 = <[l := nd_map sentinel_to_inf d]> σ.
Proof.
  intros Hl. unfold prepare_depth.
  erewrite run_bind; [|done].
  erewrite run_bind; [|by unfold deref; erewrite run_bind;
                         [|unfold load; by rewrite Hl]].
  assert (∀ na, (set_sentinels (Shared l na)) σ
                = (Ok (Shared l na), <[l := nd_map sentinel_to_inf d]> σ)) as Hset.
  { intros na. unfold set_sentinels.
    erewrite run_bind; [|unfold load; by rewrite Hl].
    erewrite run_bind; [|done]. done. }
  assert (∀ na, ∃ v, deref (Shared l na) (<[l := nd_map sentinel_to_inf d]> σ)
                     = (Ok v, <[l := nd_map sentinel_to_inf d]> σ)) as Hder.
  { intros na. eexists. unfold deref.
    erewrite run_bind; [done|]. unfold load. by rewrite lookup_insert_eq. }
  destruct (ndim d <? 4)%nat; cbn [view_newaxis].
  - erewrite run_bind; [|apply Hset]. destruct (Hder true) as [v Hv].
    erewrite run_bind; [|exact Hv]. rewrite py_bind_run. unfold lift.
    by destruct (amin0 v).
  - erewrite run_bind; [|apply Hset]. destruct (Hder false) as [v Hv].
    erewrite run_bind; [|exact Hv]. rewrite py_bind_run. unfold lift.
    by destruct (amin0 v).
Qed.

Lemma combine_scene_image_store scene_rgba image depth σ :
  (combine_scene_image scene_rgba image depth σ).2 = (prepare_depth depth σ).2.
Proof.
  unfold combine_scene_image. rewrite py_bind_run.
  by destruct (prepare_depth depth σ) as [[x|e] σ'].
Qed.

(** C9: with the depth passed as an array object, the sentinels are
    replaced in that object: after the call, with whatever result, the
    caller's array holds positive infinity wherever it held zero and is
    unchanged elsewhere.  Depth buffers passed in a list are copied and
    the store stays as it was. *)
Theorem depth_array_updated_in_place scene_rgba image l d σ :
  σ !! l = Some d →
  (combine_scene_image scene_rgba image (Some (DArr l)) σ).2
  = <[l := nd_map sentinel_to_inf d]> σ
  ∧ (∀ ix x, nd_lookup d ix = Some x →
       nd_lookup (nd_map sentinel_to_inf d) ix
       = Some (if feqb x fzero then finf else x))
  ∧ (∀ ls, (combine_scene_image scene_rgba image (Some (DList ls)) σ).2 = σ).
Proof.
  intros Hl. repeat split.
  - rewrite combine_scene_image_store. by apply prepare_depth_array_store.
  - intros ix x Hx. by rewrite nd_lookup_nd_map, Hx.
  - intros ls. rewrite combine_scene_image_store.
    apply prepare_depth_list_store.
Qed.

Lemma depth_array_updated_in_place_witness :
  (combine_scene_image (RList [near_rgba]) tie_image (Some (DArr 1%positive))
     sentinel_store).2
  = <[1%positive := nd_map sentinel_to_inf no_depth]> sentinel_store
  ∧ (∀ ix x, nd_lookup no_depth ix = Some x →
       nd_lookup (nd_map sentinel_to_inf no_depth) ix
       = Some (if feqb x fzero then finf else x))
  ∧ (∀ ls, (combine_scene_image (RList [near_rgba]) tie_image
              (Some (DList ls)) sentinel_store).2 = sentinel_store).
Proof.
  apply (depth_array_updated_in_place (RList [near_rgba]) tie_image
           1%positive no_depth sentinel_store).
  reflexivity.
Defined.

(** ** C10 *)

Section camera.
Context {Mesh Light : Type}.
Context (raymond_lights : list Light).
Context (render : scene Mesh Light → nat → nat
                  → ndarray byte * ndarray spec_float).

Lemma get_scene_render_run body_mesh width height cx cy l focal σ t0 t1 t2 :
  σ !! l = Some (of1 [t0; t1; t2]) →
  valid_binary 24 128 t0 = true →
  get_scene_render raymond_lights render body_mesh width height
    (of1 [cx; cy]) l focal σ
  = (Ok (render (Scene body_mesh (Camera focal focal cx cy)
                   (camera_pose_of (SFopp t0, t1, t2)) raymond_lights)
           width height),
     <[l := of1 [SFopp t0; t1; t2]]> σ).
Proof.
  intros Hl Ht0. unfold get_scene_render.
  erewrite run_bind; [|unfold load; by rewrite Hl].
  erewrite run_bind; [|done].
  erewrite run_bind; [|done].
  cbn [nd_map]. rewrite (f32_mul_neg1 t0 Ht0).
  erewrite run_bind; [|done].
  erewrite run_bind; [|done].
  erewrite run_bind; [|done].
  done.
Qed.

(** C10: the first component of the camera translation is negated in
    the caller's array before the pose is built.  After the call the
    array holds the negated value, the pose of the call has it in its
    last column, and a second call on the same array uses the
    opposite translation and leaves the array as it was at first. *)
Theorem translation_negated_in_place body_mesh width height cx cy l focal
    σ t0 t1 t2 :
  σ !! l = Some (of1 [t0; t1; t2]) →
  valid_binary 24 128 t0 = true →
  let call := get_scene_render raymond_lights render body_mesh width height
                (of1 [cx; cy]) l focal in
  let shot x := render (Scene body_mesh (Camera focal focal cx cy)
                          (camera_pose_of (x, t1, t2)) raymond_lights)
                  width height in
  call σ = (Ok (shot (SFopp t0)), <[l := of1 [SFopp t0; t1; t2]]> σ)
  ∧ call (call σ).2 = (Ok (shot t0), <[l := of1 [t0; t1; t2]]> σ).
Proof.
  intros Hl Ht0 call shot.
  assert (call σ = (Ok (shot (SFopp t0)), <[l := of1 [SFopp t0; t1; t2]]> σ))
    as Hfirst by (by apply get_scene_render_run).
  split; [done|]. rewrite Hfirst. cbn [snd]. unfold call.
  rewrite (get_scene_render_run _ _ _ _ _ _ _ _ (SFopp t0) t1 t2).
  - rewrite insert_insert_eq. unfold shot.
    by destruct t0 as [[|]|[|]| |[|] m e].
  - by rewrite lookup_insert_eq.
  - by destruct t0.
Qed.
End camera.

Lemma translation_negated_in_place_witness :
  let call := get_scene_render ([] : list unit)
                (λ s _ _, (Sc x00, scene_camera_pose s)) () 640 480
                (of1 [fl 320; fl 240]) 1%positive (fl 5000) in
  let shot x := (Sc x00, camera_pose_of (x, fl 4, fl 5)) in
  call {[ 1%positive := ex_translation ]}
  = (Ok (shot (SFopp (fl 3))),
     <[1%positive := of1 [SFopp (fl 3); fl 4; fl 5]]>
       {[ 1%positive := ex_translation ]})
  ∧ call (call {[ 1%positive := ex_translation ]}).2
    = (Ok (shot (fl 3)),
       <[1%positive := of1 [fl 3; fl 4; fl 5]]>
         {[ 1%positive := ex_translation ]}).
Proof.
  apply (translation_negated_in_place ([] : list unit)
           (λ s _ _, (Sc x00, scene_camera_pose s)) () 640 480
           (fl 320) (fl 240) 1%positive (fl 5000)
           {[ 1%positive := ex_translation ]} (fl 3) (fl 4) (fl 5)).
  - reflexivity.
  - reflexivity.
Defined.

(** * Further properties of [combine_scene_image] *)

Lemma overlay_composite H W use_depth (b : batch) n bg :
  length b = S n → rasters H W b → has_shape [H; W; 3%nat] bg = true →
  overlay (RList b.*1) bg
    (depth_of H W n (layer_entry b) (depth_entry b) use_depth)
  = Ok (composite H W use_depth b bg).
Proof.
  intros Hn Hb Hbg. pose proof (batch_layers H W b Hb) as HL. rewrite Hn in HL.
  rewrite HL, (has_shape_T3 bg x00 H W 3 Hbg).
  rewrite overlay_pointwise. f_equal. unfold composite.
  apply T3_ext. intros i j c Hi Hj Hc.
  rewrite pixel_out_spec, (batch_samples_table b), Hn. f_equal.
  unfold nd_at. by rewrite nd_lookup_T3.
Qed.

(** ** The empty batch *)

(** X1: Without layers the call fails.  Without depth the sum of the empty
    list of masks is a scalar, and indexing it raises [IndexError]; with
    an empty list of depth buffers the minimum over no buffer raises
    [ValueError] before that.  The store is left as it is. *)
Theorem empty_batch_raises bg σ :
  combine_scene_image (RList []) bg None σ = (Raise IndexError, σ)
  ∧ combine_scene_image (RList []) bg (Some (DList [])) σ
    = (Raise ValueError, σ).
Proof. split; reflexivity. Qed.

(** ** The forms of the arguments *)

Lemma shape_of_has_shape3 {A} (a : ndarray A) H W C :
  (0 < H)%nat → (0 < W)%nat →
  has_shape [H; W; C] a = true → shape a = [H; W; C] ∧ ndim a = 3%nat.
Proof.
  intros HH HW Ha. destruct a as [x|l]; [done|].
  simpl in Ha. apply andb_prop in Ha as [Hl Hrows].
  apply Nat.eqb_eq in Hl. destruct l as [|r l]; [simpl in Hl; lia|].
  simpl in Hrows. apply andb_prop in Hrows as [Hr _].
  destruct r as [x|lr]; [done|].
  simpl in Hr. apply andb_prop in Hr as [Hlr Hcols].
  apply Nat.eqb_eq in Hlr. destruct lr as [|q lr]; [simpl in Hlr; lia|].
  simpl in Hcols. apply andb_prop in Hcols as [Hq _].
  destruct q as [x|lq]; [done|].
  simpl in Hq. apply andb_prop in Hq as [Hlq Hsc].
  apply Nat.eqb_eq in Hlq.
  assert (match lq with [] => [] | x :: _ => shape x end = []) as Hin.
  { destruct lq as [|s lq]; [done|]. simpl in Hsc.
    apply andb_prop in Hsc as [Hs _]. by destruct s. }
  split.
  - simpl. rewrite Hin. simpl in Hl, Hlr. by rewrite Hl, Hlr, Hlq.
  - simpl. destruct lq as [|s lq]; [done|]. simpl in Hsc.
    apply andb_prop in Hsc as [Hs _]. by destruct s.
Qed.

(** X2: A batch of layers passed as one array of four axes is used as it
    is and gives what the list of its layers gives, in the result and in
    the store. *)
Theorem array_batch_as_list H W (layers : list (ndarray byte)) bg depth σ :
  (0 < H)%nat → (0 < W)%nat → layers ≠ [] →
  Forall (λ a, has_shape [H; W; 4%nat] a = true) layers →
  combine_scene_image (RArr (Ar layers)) bg depth σ
  = combine_scene_image (RList layers) bg depth σ.
Proof.
  intros HH HW Hne Hall. destruct layers as [|a layers]; [done|].
  unfold combine_scene_image.
  pose proof (Forall_inv Hall) as Ha. simpl in Ha.
  destruct (shape_of_has_shape3 a H W 4 HH HW Ha) as [Hs Hn].
  change (ndim (Ar (a :: layers))) with (S (ndim a)). rewrite Hn.
  change (4 <? 4)%nat with false. cbv iota.
  unfold overlay, asarray_rgba, stack. rewrite Hs.
  assert (forallb (has_shape [H; W; 4%nat]) (a :: layers) = true) as ->; [|done].
  apply forallb_forall. intros x Hx. rewrite Forall_forall in Hall.
  apply Hall. by apply list_elem_of_In.
Qed.

Lemma array_batch_as_list_witness :
  combine_scene_image (RArr (Ar [near_rgba; far_rgba])) tie_image None ∅
  = combine_scene_image (RList [near_rgba; far_rgba]) tie_image None ∅.
Proof.
  apply (array_batch_as_list 1 1 [near_rgba; far_rgba] tie_image None ∅).
  - lia.
  - lia.
  - done.
  - repeat constructor.
Defined.

(** X3: A single layer passed as an array of three axes is promoted to a
    batch of one: the call gives what it gives for the list that holds
    the layer, whatever the depth argument is. *)
Theorem single_layer_as_list H W (a : ndarray byte) bg depth σ :
  (0 < H)%nat → (0 < W)%nat → has_shape [H; W; 4%nat] a = true →
  combine_scene_image (RArr a) bg depth σ
  = combine_scene_image (RList [a]) bg depth σ.
Proof.
  intros HH HW Ha.
  destruct (shape_of_has_shape3 a H W 4 HH HW Ha) as [Hs Hn].
  apply single_layer_promoted; [lia|]. by rewrite Hs.
Qed.

Lemma single_layer_as_list_witness :
  combine_scene_image (RArr near_rgba) tie_image (Some (DList [1%positive]))
    pair_store
  = combine_scene_image (RList [near_rgba]) tie_image (Some (DList [1%positive]))
      pair_store.
Proof.
  apply (single_layer_as_list 1 1 near_rgba tie_image
           (Some (DList [1%positive])) pair_store).
  - lia.
  - lia.
  - reflexivity.
Defined.

Lemma prepare_depth_array H W n L D l σ :
  σ !! l = Some (Ar (tab (S n) (λ k, T2 H W (D k)))) →
  prepare_depth (Some (DArr l)) σ
  = (Ok (depth_of H W n L D true),
     <[l := nd_map sentinel_to_inf (Ar (tab (S n) (λ k, T2 H W (D k))))]> σ).
Proof.
  intros Hl. unfold prepare_depth.
  erewrite run_bind; [|done].
  erewrite run_bind; [|by unfold deref; erewrite run_bind;
                         [|unfold load; by rewrite Hl]].
  rewrite ndim_stack_T2. cbn [view_newaxis].
  erewrite run_bind; last first.
  { unfold set_sentinels.
    erewrite run_bind; [|unfold load; by rewrite Hl].
    erewrite run_bind; [|done]. done. }
  erewrite run_bind; last first.
  { unfold deref. erewrite run_bind; [done|].
    unfold load. by rewrite lookup_insert_eq. }
  rewrite nd_map_Ar_tab.
  rewrite (tab_ext _ _ (λ k, T2 H W (λ i j, sentinel_to_inf (D k i j))))
    by (intros; apply nd_map_T2).
  rewrite newaxis_last_stack. fold (depths_at H W n D).
  erewrite run_bind; [done|]. unfold lift.
  by rewrite (amin0_depths H W n L D).
Qed.

Lemma combine_depth_array H W (b : batch) bg l σ :
  b ≠ [] → rasters H W b → has_shape [H; W; 3%nat] bg = true →
  σ !! l = Some (Ar b.*2) →
  combine_scene_image (RList b.*1) bg (Some (DArr l)) σ
  = (Ok (composite H W true b bg), <[l := nd_map sentinel_to_inf (Ar b.*2)]> σ).
Proof.
  intros Hne Hb Hbg Hl.
  assert (∃ n, length b = S n) as [n Hn].
  { destruct b; [done|]. simpl. eauto. }
  pose proof (batch_depths H W b Hb) as HD. rewrite Hn in HD.
  unfold combine_scene_image.
  erewrite run_bind; last first.
  { apply (prepare_depth_array H W n (layer_entry b) (depth_entry b)).
    by rewrite <- HD. }
  unfold lift. rewrite <- HD. f_equal. by apply overlay_composite.
Qed.

(** X4: The depth buffers of a batch passed as one array object of three
    axes give the image that the list of the buffers gives. *)
Theorem depth_array_as_list H W (b : batch) locs bg l σ :
  b ≠ [] → rasters H W b → has_shape [H; W; 3%nat] bg = true →
  σ !! l = Some (Ar b.*2) → stored σ locs b →
  (combine_scene_image (RList b.*1) bg (Some (DArr l)) σ).1
  = (combine_scene_image (RList b.*1) bg (Some (DList locs)) σ).1.
Proof.
  intros Hne Hb Hbg Hl Hst.
  rewrite (combine_depth_array H W) by done.
  pose proof (combine_scene_image_composite H W true b locs bg σ
                Hne Hb Hbg (λ _, Hst)) as Hlist.
  unfold depth_arg_of in Hlist. by rewrite Hlist.
Qed.

Lemma depth_array_as_list_witness :
  (combine_scene_image (RList [(near_rgba, near_depth); (far_rgba, far_depth)].*1)
     tie_image (Some (DArr 3%positive))
     (<[3%positive := Ar [near_depth; far_depth]]> pair_store)).1
  = (combine_scene_image (RList [(near_rgba, near_depth); (far_rgba, far_depth)].*1)
       tie_image (Some (DList [1%positive; 2%positive]))
       (<[3%positive := Ar [near_depth; far_depth]]> pair_store)).1.
Proof.
  apply (depth_array_as_list 1 1 [(near_rgba, near_depth); (far_rgba, far_depth)]
           [1%positive; 2%positive] tie_image 3%positive
           (<[3%positive := Ar [near_depth; far_depth]]> pair_store)).
  - done.
  - repeat constructor.
  - reflexivity.
  - reflexivity.
  - repeat constructor.
Defined.

(** ** What a pixel depends on *)

Lemma Forall2_fmap_eq {A B C} (f : A → C) (g : B → C) l l' :
  Forall2 (λ x y, f x = g y) l l' → f <$> l = g <$> l'.
Proof.
  induction 1 as [|x y l l' Hxy _ IH]; [done|].
  rewrite !fmap_cons. by rewrite Hxy, IH.
Qed.

Lemma Forall2_existsb {A B} (f : A → bool) (g : B → bool) l l' :
  Forall2 (λ x y, f x = g y) l l' → existsb f l = existsb g l'.
Proof. induction 1 as [|x y l l' Hxy _ IH]; [done|]. simpl. by rewrite Hxy, IH. Qed.

Lemma min_depth_of_fmap ss ss' :
  corrected_depth <$> ss = corrected_depth <$> ss' →
  min_depth_of ss = min_depth_of ss'.
Proof.
  intros Heq. destruct ss as [|s ss], ss' as [|s' ss']; try done.
  rewrite !fmap_cons in Heq. injection Heq as Hs Hss.
  rewrite !min_depth_of_cons. by rewrite Hs, Hss.
Qed.

(** The pixel depends on the layers through the value of the channel,
    through whether alpha is zero and through the corrected depth. *)
Lemma composite_pixel_ext use_depth ss ss' bg :
  Forall2 (λ s s', s_value s = s_value s' ∧ covers s = covers s'
                   ∧ corrected_depth s = corrected_depth s') ss ss' →
  composite_pixel use_depth ss bg = composite_pixel use_depth ss' bg.
Proof.
  intros Hrel.
  assert (min_depth_of ss = min_depth_of ss') as Hmin.
  { apply min_depth_of_fmap, Forall2_fmap_eq.
    eapply Forall2_impl; [exact Hrel|]. by intros s s' (_ & _ & ?). }
  assert (Forall2 (λ s s', effective use_depth ss s = effective use_depth ss' s'
                           ∧ s_value s = s_value s') ss ss') as Heff.
  { eapply Forall2_impl; [exact Hrel|]. intros s s' (Hv & Hc & Hd).
    split; [|done]. unfold effective. by rewrite Hc, Hd, Hmin. }
  unfold composite_pixel.
  rewrite (Forall2_existsb (effective use_depth ss) (effective use_depth ss') ss ss')
    by (eapply Forall2_impl; [exact Heff|]; by intros s s' [? _]).
  rewrite (Forall2_fmap_eq (masked_value use_depth ss) (masked_value use_depth ss')
             ss ss'); [done|].
  eapply Forall2_impl; [exact Heff|]. intros s s' [He Hv].
  unfold masked_value. by rewrite He, Hv.
Qed.

Lemma has_shape_nd_map {A B} (f : A → B) s (a : ndarray A) :
  has_shape s (nd_map f a) = has_shape s a.
Proof.
  revert s. induction a as [x|l IH] using ndarray_ind; intros s.
  - by destruct s.
  - destruct s as [|n s]; [done|]. cbn [nd_map has_shape].
    rewrite length_fmap. f_equal.
    induction IH as [|x l Hx _ IHl]; [done|].
    rewrite fmap_cons. cbn [forallb]. by rewrite Hx, IHl.
Qed.

Lemma nd_map_nd_map {A B C} (f : A → B) (g : B → C) (a : ndarray A) :
  nd_map g (nd_map f a) = nd_map (g ∘ f) a.
Proof.
  induction a as [x|l IH] using ndarray_ind; [done|].
  cbn [nd_map]. f_equal. rewrite <- list_fmap_compose.
  induction IH as [|x l Hx _ IHl]; [done|].
  rewrite !fmap_cons. rewrite <- IHl. f_equal. apply Hx.
Qed.

Lemma nd_map_fun_ext {A B} (f g : A → B) (a : ndarray A) :
  (∀ x, f x = g x) → nd_map f a = nd_map g a.
Proof.
  intros Hfg. induction a as [x|l IH] using ndarray_ind; [simpl; by rewrite Hfg|].
  cbn [nd_map]. f_equal.
  induction IH as [|x l Hx _ IHl]; [done|].
  rewrite !fmap_cons. by rewrite Hx, IHl.
Qed.

Lemma sentinel_to_inf_idemp x : sentinel_to_inf (sentinel_to_inf x) = sentinel_to_inf x.
Proof.
  unfold sentinel_to_inf. destruct (feqb x fzero) eqn:Hx; [done|]. by rewrite Hx.
Qed.

Lemma nd_at_shape2 {A B} (f : A → B) d d' (a : ndarray A) H W i j :
  has_shape [H; W] a = true → (i < H)%nat → (j < W)%nat →
  nd_at d' (nd_map f a) [i; j] = f (nd_at d a [i; j]).
Proof.
  intros Ha Hi Hj. unfold nd_at. rewrite nd_lookup_nd_map.
  rewrite (has_shape_T2 a d H W Ha). unfold T2, T1. simpl.
  rewrite lookup_tab by done. rewrite lookup_tab by done. done.
Qed.

(** X5: A second call with the same depth array object returns the same
    image and leaves the array as the first call left it: the zeros
    that the first call replaced were the only entries it changed, and
    the replaced entries are read as before. *)
Theorem depth_array_reuse H W (b : batch) bg l σ :
  b ≠ [] → rasters H W b → has_shape [H; W; 3%nat] bg = true →
  σ !! l = Some (Ar b.*2) →
  let call := combine_scene_image (RList b.*1) bg (Some (DArr l)) in
  call (call σ).2 = call σ.
Proof.
  intros Hne Hb Hbg Hl call. unfold call.
  rewrite (combine_depth_array H W b bg l σ) by done. cbn [snd].
  set (b' := (λ p : ndarray byte * ndarray spec_float,
                (p.1, nd_map sentinel_to_inf p.2)) <$> b).
  assert (b'.*1 = b.*1) as H1.
  { unfold b'. rewrite <- list_fmap_compose. by apply list_fmap_ext. }
  assert (Ar b'.*2 = nd_map sentinel_to_inf (Ar b.*2)) as H2.
  { unfold b'. simpl. f_equal. rewrite <- !list_fmap_compose.
    by apply list_fmap_ext. }
  rewrite <- H1, <- H2.
  rewrite (combine_depth_array H W b' bg l).
  - rewrite insert_insert_eq. f_equal.
    + f_equal. unfold composite. apply T3_ext. intros i j c Hi Hj Hc.
      apply composite_pixel_ext. unfold batch_samples, b'.
      apply Forall2_fmap, Forall2_fmap_l, Forall_Forall2_diag, Forall_forall.
      intros p Hp. repeat split. unfold corrected_depth, sample_of. simpl.
      unfold rasters in Hb. rewrite Forall_forall in Hb.
      destruct (Hb p Hp) as [_ Hd].
      rewrite (nd_at_shape2 sentinel_to_inf fzero fzero p.2 H W) by done.
      apply sentinel_to_inf_idemp.
    + f_equal. rewrite H2, nd_map_nd_map. apply nd_map_fun_ext.
      intros x. apply sentinel_to_inf_idemp.
  - unfold b'. by destruct b.
  - unfold rasters, b'. apply Forall_fmap. eapply Forall_impl; [exact Hb|].
    intros p [Hp1 Hp2]. unfold compose. cbn [fst snd].
    by rewrite has_shape_nd_map.
  - done.
  - by rewrite lookup_insert_eq.
Qed.

Lemma depth_array_reuse_witness :
  let call := combine_scene_image
                (RList [(near_rgba, no_depth); (far_rgba, far_depth)].*1)
                tie_image (Some (DArr 3%positive)) in
  call (call (<[3%positive := Ar [no_depth; far_depth]]> pair_store)).2
  = call (<[3%positive := Ar [no_depth; far_depth]]> pair_store).
Proof.
  apply (depth_array_reuse 1 1 [(near_rgba, no_depth); (far_rgba, far_depth)]
           tie_image 3%positive
           (<[3%positive := Ar [no_depth; far_depth]]> pair_store)).
  - done.
  - repeat constructor.
  - reflexivity.
  - reflexivity.
Defined.

Lemma composite_pixel_none use_depth ss bg :
  Forall (λ s, effective use_depth ss s = false) ss →
  composite_pixel use_depth ss bg = bg.
Proof.
  intros Hnone. unfold composite_pixel.
  assert (existsb (effective use_depth ss) ss = false) as ->; [|done].
  apply not_true_is_false. intros (s & Hin & Hs)%existsb_exists.
  rewrite Forall_forall in Hnone.
  apply list_elem_of_In in Hin. by rewrite (Hnone s Hin) in Hs.
Qed.

Lemma composite_pixel_eff u u' ss bg :
  Forall (λ s, effective u ss s = effective u' ss s) ss →
  composite_pixel u ss bg = composite_pixel u' ss bg.
Proof.
  intros Heq. unfold composite_pixel.
  rewrite (Forall2_existsb (effective u ss) (effective u' ss) ss ss)
    by (by apply Forall_Forall2_diag).
  rewrite (Forall2_fmap_eq (masked_value u ss) (masked_value u' ss) ss ss);
    [done|].
  apply Forall_Forall2_diag. eapply Forall_impl; [exact Heq|].
  intros s Hs. unfold masked_value. by rewrite Hs.
Qed.

Lemma covers_zero s : covers s = false ↔ s_alpha s = x00.
Proof.
  unfold covers. rewrite covers_alpha. split.
  - intros Hz. apply Z.ltb_ge in Hz. pose proof (u8_range (s_alpha s)).
    rewrite <- (byte_of_Z_u8 (s_alpha s)).
    by replace (u8 (s_alpha s)) with 0 by lia.
  - by intros ->.
Qed.

(** X6: Alpha acts as a mask and not as an opacity: two batches that agree
    in the colours and the depth buffers, and in where alpha is zero,
    give the same image, whatever the other alpha values are. *)
Theorem alpha_is_a_mask H W use_depth (b b' : batch) locs bg σ :
  b ≠ [] → rasters H W b → rasters H W b' →
  has_shape [H; W; 3%nat] bg = true →
  (use_depth = true → stored σ locs b) →
  Forall2 (λ p p', p.2 = p'.2 ∧
     ∀ i j, (i < H)%nat → (j < W)%nat →
       (∀ c, (c < 3)%nat → nd_lookup p.1 [i; j; c] = nd_lookup p'.1 [i; j; c])
       ∧ (nd_lookup p.1 [i; j; 3%nat] = Some x00
          ↔ nd_lookup p'.1 [i; j; 3%nat] = Some x00)) b b' →
  combine_scene_image (RList b'.*1) bg (depth_arg_of use_depth locs) σ
  = combine_scene_image (RList b.*1) bg (depth_arg_of use_depth locs) σ.
Proof.
  intros Hne Hb Hb' Hbg Hst Hrel.
  assert (b.*2 = b'.*2) as Hd.
  { apply Forall2_fmap_eq. eapply Forall2_impl; [exact Hrel|]. by intros p p' [? _]. }
  rewrite (combine_scene_image_composite H W use_depth b) by done.
  rewrite (combine_scene_image_composite H W use_depth b').
  - do 2 f_equal. unfold composite. apply T3_ext. intros i j c Hi Hj Hc.
    symmetry. apply composite_pixel_ext. unfold batch_samples.
    apply Forall2_fmap.
    unfold rasters in Hb, Hb'.
    assert (Forall2 (λ p p', (has_shape [H; W; 4%nat] p.1 = true
                              ∧ has_shape [H; W; 4%nat] p'.1 = true)
                             ∧ p.2 = p'.2 ∧
               ∀ i j, (i < H)%nat → (j < W)%nat →
                 (∀ c, (c < 3)%nat →
                    nd_lookup p.1 [i; j; c] = nd_lookup p'.1 [i; j; c])
                 ∧ (nd_lookup p.1 [i; j; 3%nat] = Some x00
                    ↔ nd_lookup p'.1 [i; j; 3%nat] = Some x00)) b b') as Hall.
    { clear -Hb Hb' Hrel. induction Hrel as [|p p' b b' Hpp _ IH]; [done|].
      apply Forall_cons in Hb as [[Hp _] Hb].
      apply Forall_cons in Hb' as [[Hp' _] Hb'].
      constructor; [done|]. by apply IH. }
    eapply Forall2_impl; [exact Hall|].
    intros p p' ((Hp & Hp') & Hdd & Hpix). destruct (Hpix i j Hi Hj) as [Hcol Hal].
    pose proof (Hcol c Hc) as Hcc.
    rewrite (nd_lookup_shape3 p.1 x00 H W 4 i j c) in Hcc by (done || lia).
    rewrite (nd_lookup_shape3 p'.1 x00 H W 4 i j c) in Hcc by (done || lia).
    rewrite (nd_lookup_shape3 p.1 x00 H W 4 i j 3) in Hal by (done || lia).
    rewrite (nd_lookup_shape3 p'.1 x00 H W 4 i j 3) in Hal by (done || lia).
    injection Hcc as Hcc. repeat split.
    + done.
    + destruct (covers (sample_of i j c p)) eqn:Hc1,
               (covers (sample_of i j c p')) eqn:Hc2; try done.
      * apply covers_zero in Hc2. unfold sample_of in Hc2. simpl in Hc2.
        assert (covers (sample_of i j c p) = false) as Hc3; [|by rewrite Hc1 in Hc3].
        apply covers_zero. unfold sample_of. simpl.
        assert (Some (nd_at x00 p.1 [i; j; 3%nat]) = Some x00) as [= ?]; [|done].
        apply Hal. by rewrite Hc2.
      * apply covers_zero in Hc1. unfold sample_of in Hc1. simpl in Hc1.
        assert (covers (sample_of i j c p') = false) as Hc3; [|by rewrite Hc2 in Hc3].
        apply covers_zero. unfold sample_of. simpl.
        assert (Some (nd_at x00 p'.1 [i; j; 3%nat]) = Some x00) as [= ?]; [|done].
        apply Hal. by rewrite Hc1.
    + unfold corrected_depth, sample_of. simpl. by rewrite Hdd.
  - intros ->. by inversion Hrel; subst.
  - done.
  - done.
  - intros Hu. specialize (Hst Hu). unfold stored in *.
    assert (Forall2 (λ l d, σ !! l = Some d) locs b.*2) as Hst2
      by (apply Forall2_fmap_r; exact Hst).
    rewrite Hd in Hst2. apply Forall2_fmap_r in Hst2. exact Hst2.
Qed.

Lemma alpha_is_a_mask_witness :
  combine_scene_image (RList [(faint_rgba, near_depth)].*1) tie_image
    (depth_arg_of true [1%positive]) pair_store
  = combine_scene_image (RList [(near_rgba, near_depth)].*1) tie_image
      (depth_arg_of true [1%positive]) pair_store.
Proof.
  apply (alpha_is_a_mask 1 1 true [(near_rgba, near_depth)]
           [(faint_rgba, near_depth)] [1%positive] tie_image pair_store).
  - done.
  - repeat constructor.
  - repeat constructor.
  - reflexivity.
  - intros _. repeat constructor.
  - constructor; [|constructor]. split; [reflexivity|].
    intros i j Hi Hj.
    assert (i = 0%nat) as -> by lia. assert (j = 0%nat) as -> by lia.
    split.
    + intros c Hc.
      destruct c as [|[|[|c]]]; [reflexivity..|lia].
    + split; intros Hz; vm_compute in Hz; discriminate Hz.
Defined.

(** ** Depth values off the usual range *)

(** X7: A depth of NaN in any buffer at a pixel makes the minimum there NaN,
    which equals no depth: every layer is masked at the pixel and the
    background shows, also where layers cover it. *)
Theorem nan_depth_shows_background H W (b : batch) locs bg σ p i j :
  rasters H W b → has_shape [H; W; 3%nat] bg = true → stored σ locs b →
  p ∈ b → (i < H)%nat → (j < W)%nat →
  nd_lookup p.2 [i; j] = Some S754_nan →
  ∃ out,
    combine_scene_image (RList b.*1) bg (Some (DList locs)) σ = (Ok out, σ) ∧
    ∀ c, (c < 3)%nat → nd_lookup out [i; j; c] = nd_lookup bg [i; j; c].
Proof.
  intros Hb Hbg Hst Hp Hi Hj Hnan. eexists. split.
  { apply (combine_scene_image_composite H W true); [|done..].
    intros ->. by apply elem_of_nil in Hp. }
  intros c Hc. unfold composite. rewrite nd_lookup_T3 by done.
  rewrite (nd_lookup_shape3 bg x00 H W 3) by done. f_equal.
  apply composite_pixel_none.
  assert (min_depth_of (batch_samples b i j c) = S754_nan) as Hmin.
  { apply min_depth_of_nan, Exists_exists. exists (sample_of i j c p). split.
    - unfold batch_samples. by apply list_elem_of_fmap_2.
    - unfold corrected_depth, sample_of, nd_at. cbn [s_depth]. by rewrite Hnan. }
  apply Forall_forall. intros s _. unfold effective.
  by rewrite Hmin, feqb_nan_r, andb_false_r.
Qed.

Lemma nan_depth_shows_background_witness :
  ∃ out,
    combine_scene_image (RList [(near_rgba, nan_depth); (far_rgba, far_depth)].*1)
      tie_image (Some (DList [1%positive; 2%positive])) nan_store
    = (Ok out, nan_store) ∧
    ∀ c, (c < 3)%nat →
      nd_lookup out [0%nat; 0%nat; c] = nd_lookup tie_image [0%nat; 0%nat; c].
Proof.
  apply (nan_depth_shows_background 1 1
           [(near_rgba, nan_depth); (far_rgba, far_depth)]
           [1%positive; 2%positive] tie_image nan_store
           (near_rgba, nan_depth) 0 0).
  - repeat constructor.
  - reflexivity.
  - repeat constructor.
  - apply list_elem_of_here.
  - lia.
  - lia.
  - reflexivity.
Defined.

Lemma fold_fmin_inf l :
  Forall (λ d, d = finf) l → fold_left fmin l finf = finf.
Proof. induction 1 as [|d l -> _ IH]; [done|]. simpl. exact IH. Qed.

(** X8: Where every depth buffer holds the sentinel 0, the depth decides
    nothing: the minimum is infinite, every layer passes the depth test
    and the pixel is that of the call without depth. *)
Theorem sentinel_everywhere_as_without_depth H W (b : batch) locs bg σ i j :
  b ≠ [] → rasters H W b → has_shape [H; W; 3%nat] bg = true →
  stored σ locs b → (i < H)%nat → (j < W)%nat →
  Forall (λ p, feqb (nd_at fzero p.2 [i; j]) fzero = true) b →
  ∃ out out',
    combine_scene_image (RList b.*1) bg (Some (DList locs)) σ = (Ok out, σ) ∧
    combine_scene_image (RList b.*1) bg None σ = (Ok out', σ) ∧
    ∀ c, (c < 3)%nat → nd_lookup out [i; j; c] = nd_lookup out' [i; j; c].
Proof.
  intros Hne Hb Hbg Hst Hi Hj Hzero. do 2 eexists. split; [|split].
  { by apply (combine_scene_image_composite H W true). }
  { by apply (combine_scene_image_composite H W false b []). }
  intros c Hc. unfold composite. rewrite !nd_lookup_T3 by done. f_equal.
  apply composite_pixel_eff.
  assert (Forall (λ s, corrected_depth s = finf) (batch_samples b i j c)) as Hinf.
  { unfold batch_samples. apply Forall_fmap. eapply Forall_impl; [exact Hzero|].
    intros p Hp. unfold compose, corrected_depth, sample_of, sentinel_to_inf.
    simpl. by rewrite Hp. }
  assert (min_depth_of (batch_samples b i j c) = finf) as Hmin.
  { destruct (batch_samples b i j c) as [|s ss]; [done|].
    apply Forall_cons in Hinf as [Hs Hss]. rewrite min_depth_of_cons, Hs.
    apply fold_fmin_inf. by apply Forall_fmap. }
  rewrite Forall_forall in Hinf. apply Forall_forall. intros s Hs.
  unfold effective. rewrite Hmin, (Hinf s Hs). by rewrite andb_true_r.
Qed.

Lemma sentinel_everywhere_as_without_depth_witness :
  ∃ out out',
    combine_scene_image (RList [(near_rgba, no_depth); (far_rgba, no_depth)].*1)
      tie_image (Some (DList [1%positive; 1%positive])) sentinel_store
    = (Ok out, sentinel_store) ∧
    combine_scene_image (RList [(near_rgba, no_depth); (far_rgba, no_depth)].*1)
      tie_image None sentinel_store = (Ok out', sentinel_store) ∧
    ∀ c, (c < 3)%nat →
      nd_lookup out [0%nat; 0%nat; c] = nd_lookup out' [0%nat; 0%nat; c].
Proof.
  apply (sentinel_everywhere_as_without_depth 1 1
           [(near_rgba, no_depth); (far_rgba, no_depth)]
           [1%positive; 1%positive] tie_image sentinel_store 0 0).
  - done.
  - repeat constructor.
  - reflexivity.
  - repeat constructor.
  - lia.
  - lia.
  - repeat constructor.
Defined.

Lemma fltb_not_feqb x y : fltb x y = true → feqb y x = false.
Proof.
  intros Hlt.
  destruct (rank x) as [rx|] eqn:Hx;
    [|apply rank_None in Hx; by rewrite Hx in Hlt].
  destruct (rank y) as [ry|] eqn:Hy;
    [|apply rank_None in Hy; by rewrite Hy, fltb_nan_r in Hlt].
  apply (fltb_rank x y rx ry Hx Hy) in Hlt.
  apply not_true_is_false. intros Heq.
  apply (feqb_rank y x ry rx Hy Hx) in Heq. subst ry.
  destruct rx as [[a b] c]. unfold lt3 in Hlt. lia.
Qed.

(** X9: The depth test does not look at alpha.  A layer that is
    transparent at a pixel but has the smallest depth there hides every
    other layer at the pixel and is not drawn itself: the background
    shows. *)
Theorem transparent_nearest_layer_hides H W (b1 b2 : batch) B dB locs bg σ i j :
  rasters H W (b1 ++ (B, dB) :: b2) →
  has_shape [H; W; 3%nat] bg = true →
  stored σ locs (b1 ++ (B, dB) :: b2) →
  (i < H)%nat → (j < W)%nat →
  nd_lookup B [i; j; 3%nat] = Some x00 →
  fltb fzero (nd_at fzero dB [i; j]) = true →
  Forall (λ p, fltb (nd_at fzero dB [i; j]) (nd_at fzero p.2 [i; j]) = true)
    (b1 ++ b2) →
  ∃ out,
    combine_scene_image (RList (b1 ++ (B, dB) :: b2).*1) bg
      (Some (DList locs)) σ = (Ok out, σ) ∧
    ∀ c, (c < 3)%nat → nd_lookup out [i; j; c] = nd_lookup bg [i; j; c].
Proof.
  intros Hb Hbg Hst Hi Hj Halpha HdB Hothers. eexists. split.
  { apply (combine_scene_image_composite H W true); [|done..].
    by destruct b1. }
  intros c Hc. unfold composite. rewrite nd_lookup_T3 by done.
  rewrite (nd_lookup_shape3 bg x00 H W 3) by done. f_equal.
  unfold batch_samples. rewrite fmap_app, fmap_cons.
  set (s := sample_of i j c (B, dB)).
  set (l1 := sample_of i j c <$> b1). set (l2 := sample_of i j c <$> b2).
  assert (corrected_depth s = nd_at fzero dB [i; j]) as Hcd.
  { unfold s, corrected_depth, sample_of. simpl.
    by rewrite sentinel_to_inf_positive. }
  assert (Forall (λ s', fltb (corrected_depth s) (corrected_depth s') = true)
            (l1 ++ l2)) as Hfar.
  { unfold l1, l2. rewrite <- fmap_app. apply Forall_fmap.
    eapply Forall_impl; [exact Hothers|]. intros p Hp.
    unfold compose. rewrite Hcd. unfold corrected_depth, sample_of. simpl.
    rewrite sentinel_to_inf_positive; [done|]. by eapply fltb_trans. }
  assert (min_depth_of (l1 ++ s :: l2) = corrected_depth s) as Hmin.
  { apply nearest_effective; [|done]. rewrite Hcd.
    destruct (rank (nd_at fzero dB [i; j])) eqn:Hr; [by eauto|].
    apply rank_None in Hr. by rewrite Hr, fltb_nan_r in HdB. }
  apply composite_pixel_none.
  assert (effective true (l1 ++ s :: l2) s = false) as Hs.
  { unfold effective.
    assert (covers s = false) as ->; [|done].
    apply covers_zero. unfold s, sample_of, nd_at. cbn [s_alpha fst]. by rewrite Halpha. }
  assert (Forall (λ s', effective true (l1 ++ s :: l2) s' = false) (l1 ++ l2))
    as Hrest.
  { eapply Forall_impl; [exact Hfar|]. intros s' Hs'. unfold effective.
    by rewrite Hmin, (fltb_not_feqb _ _ Hs'), andb_false_r. }
  apply Forall_app in Hrest as [H1 H2].
  apply Forall_app. split; [done|]. by constructor.
Qed.

Lemma transparent_nearest_layer_hides_witness :
  ∃ out,
    combine_scene_image
      (RList ([(far_rgba, far_depth)] ++ (empty_rgba, near_depth) :: []).*1)
      tie_image (Some (DList [2%positive; 1%positive])) pair_store
    = (Ok out, pair_store) ∧
    ∀ c, (c < 3)%nat →
      nd_lookup out [0%nat; 0%nat; c] = nd_lookup tie_image [0%nat; 0%nat; c].
Proof.
  apply (transparent_nearest_layer_hides 1 1 [(far_rgba, far_depth)] []
           empty_rgba near_depth [2%positive; 1%positive] tie_image pair_store
           0 0).
  - repeat constructor.
  - reflexivity.
  - repeat constructor.
  - lia.
  - lia.
  - reflexivity.
  - vm_compute. reflexivity.
  - repeat constructor.
Defined.

(** ** Fewer depth buffers than layers *)

Lemma mapM_id_tab_Raise {A} n m (f : nat → result A) e :
  (m < n)%nat → (∀ i, (i < m)%nat → ∃ y, f i = Ok y) → f m = Raise e →
  mapM id (tab n f) = Raise e.
Proof.
  revert n f. induction m as [|m IH]; intros n f Hmn Hok Hm.
  - destruct n as [|n]; [lia|]. by apply mapM_tab_Raise_first.
  - destruct n as [|n]; [lia|].
    change (tab (S n) f) with (f 0%nat :: (f <$> seq 1 n)).
    rewrite tab_shift.
    change (mapM id (f 0%nat :: tab n (λ k, f (S k))))
      with (y ← f 0%nat; k ← mapM id (tab n (λ k, f (S k))); mret (y :: k)).
    destruct (Hok 0%nat ltac:(lia)) as [y ->]. rewrite bind_Ok.
    rewrite (IH n (λ k, f (S k))); [done|lia| |done].
    intros i Hi. apply Hok. lia.
Qed.

Lemma rasters_take H W m (b : batch) : rasters H W b → rasters H W (take m b).
Proof. unfold rasters. apply Forall_take. Qed.

(** X10: With fewer depth buffers than layers the loop reaches a layer
    without a buffer and the call fails with [IndexError], whatever the
    background is. *)
Theorem missing_depth_buffer_raises H W (b : batch) m locs bg σ :
  rasters H W b → (0 < m < length b)%nat → stored σ locs (take m b) →
  combine_scene_image (RList b.*1) bg (Some (DList locs)) σ
  = (Raise IndexError, σ).
Proof.
  intros Hb [Hm0 Hmb] Hst.
  destruct m as [|n]; [lia|].
  assert (length (take (S n) b) = S n) as Hn by (rewrite length_take; lia).
  pose proof (batch_depths H W _ (rasters_take H W (S n) b Hb)) as HD.
  rewrite Hn in HD.
  set (L := layer_entry b). set (D := depth_entry (take (S n) b)).
  unfold combine_scene_image.
  erewrite run_bind; last first.
  { apply (prepare_depth_list H W n L D). fold D in HD. rewrite <- HD.
    apply Forall2_fmap_r. exact Hst. }
  unfold lift. f_equal.
  rewrite (batch_layers H W b Hb). fold L.
  unfold overlay, asarray_rgba.
  rewrite stack_tab by (intros; apply same_shape_T3).
  rewrite bind_Ok, nd_map_Ar_tab. unfold nd_iter. rewrite bind_Ok, imap_tab.
  rewrite (mapM_id_tab_Raise _ (S n) _ IndexError); [done|done| |].
  - intros k Hk. eexists. rewrite nd_map_T3.
    by apply (scene_step_pointwise H W n L D true k).
  - rewrite nd_map_T3. unfold scene_step.
    rewrite alpha_T3, bind_Ok, nd_map_T2, newaxis_T2, bind_Ok.
    unfold depth_of, depths_at, nd_get. by rewrite lookup_tab_ge by lia.
Qed.

Lemma missing_depth_buffer_raises_witness :
  combine_scene_image (RList [(near_rgba, near_depth); (far_rgba, far_depth)].*1)
    tie_image (Some (DList [1%positive])) pair_store
  = (Raise IndexError, pair_store).
Proof.
  apply (missing_depth_buffer_raises 1 1
           [(near_rgba, near_depth); (far_rgba, far_depth)] 1
           [1%positive] tie_image pair_store).
  - repeat constructor.
  - simpl. lia.
  - repeat constructor.
Defined.

(** * Broadcasting and shapes *)

Lemma mapM_all_Raise {A B} (g : A → result B) l e :
  l ≠ [] → Forall (λ x, g x = Raise e) l → mapM g l = Raise e.
Proof.
  intros Hne Hall. destruct l as [|x l]; [done|].
  apply mapM_Raise_head. by apply Forall_inv in Hall.
Qed.

Lemma mapM_all_Ok {A B} (g : A → result B) (P : B → Prop) l :
  Forall (λ x, ∃ y, g x = Ok y ∧ P y) l →
  ∃ ys, mapM g l = Ok ys ∧ Forall P ys ∧ length ys = length l.
Proof.
  induction 1 as [|x l (y & Hy & HP) _ (ys & Hys & HPs & Hlen)].
  - by exists [].
  - exists (y :: ys).
    change (mapM g (x :: l)) with (y ← g x; k ← mapM g l; mret (y :: k)).
    rewrite Hy, bind_Ok, Hys, bind_Ok. repeat split; [by constructor|].
    simpl. by rewrite Hlen.
Qed.

Lemma has_shape_Ar {A} n s (l : list (ndarray A)) :
  has_shape (n :: s) (Ar l) = true
  ↔ length l = n ∧ Forall (λ x, has_shape s x = true) l.
Proof.
  cbn [has_shape]. rewrite andb_true_iff, Nat.eqb_eq, forallb_forall.
  rewrite Forall_forall. split; intros [? Hall]; (split; [done|]);
    intros x Hx; apply Hall; by apply list_elem_of_In.
Qed.

Lemma bdim_positive n n' d :
  (0 < n)%nat → (0 < n')%nat → bdim n n' = Some d → (0 < d)%nat.
Proof.
  unfold bdim. intros Hn Hn' Hd.
  destruct (n =? n')%nat; [by injection Hd as <-|].
  destruct (n =? 1)%nat; [by injection Hd as <-|].
  destruct (n' =? 1)%nat; [by injection Hd as <-|done].
Qed.

(** Two rectangular arrays of equal rank are combined exactly when
    their shapes broadcast, into an array of the broadcast shape; they
    raise [ValueError] otherwise. *)
Lemma bc2_shape {A B C} (f : A → B → C) s :
  ∀ t a b,
    Forall (λ n, 0 < n)%nat s → Forall (λ n, 0 < n)%nat t →
    has_shape s a = true → has_shape t b = true → length s = length t →
    match bshape2 s t with
    | Some u => ∃ c, bc2 f a b = Ok c ∧ has_shape u c = true
    | None => bc2 f a b = Raise ValueError
    end.
Proof.
  induction s as [|n s IH]; intros t a b Hs Ht Ha Hb Hlen.
  - destruct t; [|done]. destruct a, b; try done. simpl. eauto.
  - destruct t as [|n' t]; [done|]. destruct a as [|la]; [done|].
    destruct b as [|lb]; [done|].
    apply Forall_cons in Hs as [Hn Hs]. apply Forall_cons in Ht as [Hn' Ht].
    apply has_shape_Ar in Ha as [Hla Ha]. apply has_shape_Ar in Hb as [Hlb Hb].
    injection Hlen as Hlen.
    assert (∀ x y, x ∈ la → y ∈ lb →
              match bshape2 s t with
              | Some u => ∃ c, bc2 f x y = Ok c ∧ has_shape u c = true
              | None => bc2 f x y = Raise ValueError
              end) as Hpair.
    { intros x y Hx Hy. rewrite Forall_forall in Ha.
      rewrite Forall_forall in Hb. apply IH; auto. }
    cbn [bshape2 bc2]. rewrite Hla, Hlb. unfold bdim.
    destruct (Nat.eqb_spec n n') as [<-|Hne].
    + (* equal lengths *)
      assert (Forall (λ r, match bshape2 s t with
                | Some u => ∃ c, r = Ok c ∧ has_shape u c = true
                | None => r = Raise ValueError
                end) (zip_with (bc2 f) la lb)) as Hz.
      { apply Forall_forall. intros r Hr.
        apply elem_of_lookup_zip_with in Hr as (i & x & y & -> & Hx & Hy).
        apply Hpair; by eapply list_elem_of_lookup_2. }
      destruct (bshape2 s t) as [u|].
      * destruct (mapM_all_Ok id (λ c, has_shape u c = true) _ Hz)
          as (ys & -> & Hys & Hlen').
        rewrite fmap_Ok. eexists. split; [done|].
        apply has_shape_Ar. split; [|done].
        rewrite Hlen', length_zip_with. lia.
      * rewrite (mapM_all_Raise id _ ValueError); [done| |done].
        destruct la, lb; simpl in *; try lia. done.
    + destruct (Nat.eqb_spec n 1) as [->|Hn1].
      * destruct la as [|a0 [|]]; try (simpl in Hla; lia).
        assert (Forall (λ y, match bshape2 s t with
                  | Some u => ∃ c, bc2 f a0 y = Ok c ∧ has_shape u c = true
                  | None => bc2 f a0 y = Raise ValueError
                  end) lb) as Hz.
        { apply Forall_forall. intros y Hy. apply Hpair; [|done].
          apply list_elem_of_here. }
        destruct (bshape2 s t) as [u|].
        -- destruct (mapM_all_Ok (bc2 f a0) (λ c, has_shape u c = true) _ Hz)
             as (ys & -> & Hys & Hlen').
           rewrite fmap_Ok. eexists. split; [done|].
           apply has_shape_Ar. split; [|done]. by rewrite Hlen'.
        -- rewrite (mapM_all_Raise (bc2 f a0) _ ValueError); [done| |done].
           destruct lb; simpl in *; [lia|done].
      * destruct (Nat.eqb_spec n' 1) as [->|Hn'1].
        -- destruct lb as [|b0 [|]]; try (simpl in Hlb; lia).
           assert (Forall (λ x, match bshape2 s t with
                     | Some u => ∃ c, bc2 f x b0 = Ok c ∧ has_shape u c = true
                     | None => bc2 f x b0 = Raise ValueError
                     end) la) as Hz.
           { apply Forall_forall. intros x Hx. apply Hpair; [done|].
             apply list_elem_of_here. }
           destruct (bshape2 s t) as [u|].
           ++ destruct (mapM_all_Ok (λ x, bc2 f x b0)
                          (λ c, has_shape u c = true) _ Hz)
                as (ys & Hm & Hys & Hlen').
              exists (Ar ys). split.
              ** destruct la as [|? [|]]; try done; by rewrite Hm.
              ** apply has_shape_Ar. split; [|done]. by rewrite Hlen'.
           ++ assert (mapM (λ x, bc2 f x b0) la = Raise ValueError) as Hm.
              { apply mapM_all_Raise; [|done]. destruct la; simpl in *; [lia|done]. }
              destruct la as [|? [|]]; try done; by rewrite Hm.
        -- destruct la as [|? [|]], lb as [|? [|]]; simpl in *; try lia; done.
Qed.

Lemma ndim_has_shape {A} s (a : ndarray A) :
  Forall (λ n, 0 < n)%nat s → has_shape s a = true → ndim a = length s.
Proof.
  revert a. induction s as [|n s IH]; intros a Hs Ha.
  - by destruct a.
  - destruct a as [|l]; [done|]. apply Forall_cons in Hs as [Hn Hs].
    apply has_shape_Ar in Ha as [Hl Ha].
    destruct l as [|x l]; [simpl in Hl; lia|].
    apply Forall_cons in Ha as [Hx _]. simpl. f_equal. by apply IH.
Qed.

Lemma has_shape_expand {A} k s (a : ndarray A) :
  has_shape s a = true →
  has_shape (replicate k 1%nat ++ s) (expand_dims0 k a) = true.
Proof.
  intros Ha. induction k as [|k IH]; [done|].
  change (expand_dims0 (S k) a) with (Ar [expand_dims0 k a]).
  change (replicate (S k) 1%nat ++ s) with (1%nat :: (replicate k 1%nat ++ s)).
  apply has_shape_Ar. split; [done|]. by constructor.
Qed.

(** The broadcasting of two rectangular arrays of any rank. *)
Lemma broadcast_shape {A B C} (f : A → B → C) s t a b :
  Forall (λ n, 0 < n)%nat s → Forall (λ n, 0 < n)%nat t →
  has_shape s a = true → has_shape t b = true →
  match bshape s t with
  | Some u => ∃ c, broadcast f a b = Ok c ∧ has_shape u c = true
  | None => broadcast f a b = Raise ValueError
  end.
Proof.
  intros Hs Ht Ha Hb. unfold broadcast, bshape.
  rewrite (ndim_has_shape s a Hs Ha), (ndim_has_shape t b Ht Hb).
  apply bc2_shape.
  - apply Forall_app. split; [|done]. apply Forall_replicate. lia.
  - apply Forall_app. split; [|done]. apply Forall_replicate. lia.
  - by apply has_shape_expand.
  - by apply has_shape_expand.
  - rewrite !length_app, !length_replicate. lia.
Qed.

Lemma bshape2_positive s :
  ∀ t u, Forall (λ n, 0 < n)%nat s → Forall (λ n, 0 < n)%nat t →
         bshape2 s t = Some u → Forall (λ n, 0 < n)%nat u.
Proof.
  induction s as [|n s IH]; intros t u Hs Ht Hu.
  - destruct t; [|done]. by injection Hu as <-.
  - destruct t as [|n' t]; [done|]. simpl in Hu.
    apply Forall_cons in Hs as [Hn Hs]. apply Forall_cons in Ht as [Hn' Ht].
    destruct (bdim n n') as [d|] eqn:Hd; [|done].
    destruct (bshape2 s t) as [u'|] eqn:Hu'; [|done].
    injection Hu as <-. constructor.
    + exact (bdim_positive n n' d Hn Hn' Hd).
    + exact (IH t u' Hs Ht Hu').
Qed.

(** The last axes decide together with the others: if they do not
    agree the shapes do not broadcast, and the last axis of a broadcast
    shape is the broadcast of the last axes. *)
Lemma bshape2_last s :
  ∀ t n n', length s = length t → last s = Some n → last t = Some n' →
    match bshape2 s t with
    | Some u => ∃ d, bdim n n' = Some d ∧ last u = Some d
    | None => True
    end
    ∧ (bdim n n' = None → bshape2 s t = None).
Proof.
  induction s as [|m s IH]; intros t n n' Hlen Hs Ht; [done|].
  destruct t as [|m' t]; [done|]. injection Hlen as Hlen.
  destruct s as [|m2 s].
  - destruct t; [|done]. injection Hs as ->. injection Ht as ->.
    simpl. destruct (bdim n n') as [d|]; [|done]. split; [|done]. by exists d.
  - destruct t as [|m2' t]; [done|].
    rewrite last_cons_cons in Hs, Ht.
    destruct (IH (m2' :: t) n n' ltac:(simpl in *; lia) Hs Ht) as [IH1 IH2].
    change (bshape2 (m :: m2 :: s) (m' :: m2' :: t))
      with (match bdim m m', bshape2 (m2 :: s) (m2' :: t) with
            | Some d, Some u => Some (d :: u)
            | _, _ => None
            end).
    destruct (bshape2 (m2 :: s) (m2' :: t)) as [u|] eqn:Hu.
    + destruct IH1 as (d & Hd & Hlast). split.
      * destruct (bdim m m'); [|done]. exists d. split; [done|].
        destruct u; [done|]. by rewrite last_cons_cons.
      * intros Hnone. by rewrite Hnone in Hd.
    + split; [by destruct (bdim m m')|]. intros _. by destruct (bdim m m').
Qed.

Lemma bshape_last s t n n' :
  last s = Some n → last t = Some n' →
  match bshape s t with
  | Some u => ∃ d, bdim n n' = Some d ∧ last u = Some d
  | None => True
  end
  ∧ (bdim n n' = None → bshape s t = None).
Proof.
  intros Hs Ht. unfold bshape. apply bshape2_last.
  - rewrite !length_app, !length_replicate. lia.
  - by rewrite last_app, Hs.
  - by rewrite last_app, Ht.
Qed.

Lemma bshape_positive s t u :
  Forall (λ n, 0 < n)%nat s → Forall (λ n, 0 < n)%nat t →
  bshape s t = Some u → Forall (λ n, 0 < n)%nat u.
Proof.
  intros Hs Ht. unfold bshape. apply bshape2_positive.
  - apply Forall_app. split; [|done]. apply Forall_replicate. lia.
  - apply Forall_app. split; [|done]. apply Forall_replicate. lia.
Qed.

Lemma has_shape_pos_T3 {A} H W C (f : nat → nat → nat → A) :
  has_shape [H; W; C] (T3 H W C f) = true.
Proof.
  apply has_shape_Ar. split; [apply length_tab|].
  apply Forall_forall. intros x (i & -> & _)%list_elem_of_fmap.
  apply has_shape_Ar. split; [apply length_tab|].
  apply Forall_forall. intros x (j & -> & _)%list_elem_of_fmap.
  apply has_shape_Ar. split; [apply length_tab|].
  apply Forall_forall. by intros x (c & -> & _)%list_elem_of_fmap.
Qed.

(** ** The channels of the background *)

(** X11: The background needs three channels, or one.  A background whose
    last axis has another length, such as an image with an alpha
    channel (four channels) or an image without a channel axis (the
    last axis is the width), makes the final sum fail with
    [ValueError], whatever its other axes are. *)
Theorem background_channels H W use_depth (b : batch) locs bg s C σ :
  (0 < H)%nat → (0 < W)%nat → b ≠ [] → rasters H W b →
  (use_depth = true → stored σ locs b) →
  has_shape s bg = true → Forall (λ n, 0 < n)%nat s →
  last s = Some C → C ≠ 1%nat → C ≠ 3%nat →
  combine_scene_image (RList b.*1) bg (depth_arg_of use_depth locs) σ
  = (Raise ValueError, σ).
Proof.
  intros HH HW Hne Hb Hst Hbg Hs Hlast HC1 HC3.
  assert (∃ n, length b = S n) as [n Hn].
  { destruct b; [done|]. simpl. eauto. }
  pose proof (batch_layers H W b Hb) as HL.
  pose proof (batch_depths H W b Hb) as HD. rewrite Hn in HL, HD.
  unfold combine_scene_image. rewrite py_bind_run.
  assert (prepare_depth (depth_arg_of use_depth locs) σ
          = (Ok (depth_of H W n (layer_entry b) (depth_entry b) use_depth), σ))
    as ->.
  { destruct use_depth; [|done]. apply prepare_depth_list.
    rewrite <- HD. apply Forall2_fmap_r. by apply Hst. }
  unfold lift. f_equal. rewrite HL, overlay_front.
  assert (bdim 1 C = Some C) as Hd1.
  { unfold bdim. destruct (Nat.eqb_spec 1 C); [lia|done]. }
  assert (bdim 3 C = None) as Hd3.
  { unfold bdim. destruct (Nat.eqb_spec 3 C); [lia|].
    simpl. by destruct (Nat.eqb_spec C 1). }
  match goal with |- (broadcast int_mul ?m ?g ≫= _) = _ =>
    pose proof (broadcast_shape int_mul [H; W; 1%nat] s m g) as Hfirst end.
  destruct (bshape_last [H; W; 1%nat] s 1 C eq_refl Hlast) as [Hl1 _].
  pose proof (bshape_positive [H; W; 1%nat] s) as Hpos.
  destruct (bshape [H; W; 1%nat] s) as [u|].
  - destruct Hfirst as (c1 & -> & Hc1).
    + repeat constructor; lia.
    + done.
    + apply has_shape_pos_T3.
    + by rewrite has_shape_nd_map.
    + rewrite bind_Ok. destruct Hl1 as (d & Hd & Hu).
      rewrite Hd1 in Hd. injection Hd as <-.
      match goal with |- (broadcast mixed_add ?m c1 ≫= _) = _ =>
        pose proof (broadcast_shape mixed_add [H; W; 3%nat] u m c1) as Hsecond end.
      destruct (bshape_last [H; W; 3%nat] u 3 C eq_refl Hu) as [_ Hl3].
      rewrite (Hl3 Hd3) in Hsecond. rewrite Hsecond; [done| | | |done].
      * repeat constructor; lia.
      * apply Hpos; [|done|done]. repeat constructor; lia.
      * apply has_shape_pos_T3.
  - rewrite Hfirst; [done| |done| |].
    + repeat constructor; lia.
    + apply has_shape_pos_T3.
    + by rewrite has_shape_nd_map.
Qed.

Lemma background_channels_witness :
  combine_scene_image (RList [(near_rgba, near_depth)].*1) rgba_image
    (depth_arg_of false []) ∅
  = (Raise ValueError, ∅).
Proof.
  apply (background_channels 1 1 false [(near_rgba, near_depth)] []
           rgba_image [1; 1; 4]%nat 4 ∅).
  - lia.
  - lia.
  - done.
  - repeat constructor.
  - intros Hu. discriminate Hu.
  - reflexivity.
  - repeat constructor.
  - reflexivity.
  - lia.
  - lia.
Defined.

Lemma overlay_pointwise_grey H W n L D B use_depth :
  overlay (RList (tab (S n) (λ k, T3 H W 4 (L k)))) (T3 H W 1 B)
    (depth_of H W n L D use_depth)
  = Ok (T3 H W 3 (λ i j c,
          pixel_out use_depth (samples_at n L D i j c) (B i j 0%nat))).
Proof.
  rewrite overlay_front, nd_map_T3.
  rewrite broadcast_T3, bind_Ok, broadcast_T3_stretch, bind_Ok, nd_map_T3.
  f_equal. apply T3_ext. intros i j c _ _ _.
  unfold pixel_out, pixel_covered, pixel_sum, samples_at.
  rewrite !fmap_tab.
  rewrite (tab_ext _ (λ k, Z.b2z (effective _ _ _))
             (λ k, Z.b2z (mask_at n L D use_depth k i j)))
    by (intros; by rewrite (effective_samples n L D use_depth _ i j c)).
  rewrite (tab_ext _ (λ k, mask_mul _ (effective _ _ _))
             (λ k, mask_mul (normalize_scene (L k i j c))
                     (mask_at n L D use_depth k i j)))
    by (intros; by rewrite (effective_samples n L D use_depth _ i j c)).
  done.
Qed.

(** X12: A background with one channel is read as grey: its value is used
    for the three channels of every pixel that no layer covers, and the
    result is that of the call with the background repeated over three
    channels. *)
Theorem one_channel_background_is_grey H W use_depth (b : batch) locs bg σ :
  b ≠ [] → rasters H W b → has_shape [H; W; 1%nat] bg = true →
  (use_depth = true → stored σ locs b) →
  combine_scene_image (RList b.*1) bg (depth_arg_of use_depth locs) σ
  = combine_scene_image (RList b.*1)
      (T3 H W 3 (λ i j _, nd_at x00 bg [i; j; 0%nat]))
      (depth_arg_of use_depth locs) σ.
Proof.
  intros Hne Hb Hbg Hst.
  assert (∃ n, length b = S n) as [n Hn].
  { destruct b; [done|]. simpl. eauto. }
  pose proof (batch_layers H W b Hb) as HL.
  pose proof (batch_depths H W b Hb) as HD. rewrite Hn in HL, HD.
  unfold combine_scene_image. rewrite !py_bind_run.
  assert (prepare_depth (depth_arg_of use_depth locs) σ
          = (Ok (depth_of H W n (layer_entry b) (depth_entry b) use_depth), σ))
    as ->.
  { destruct use_depth; [|done]. apply prepare_depth_list.
    rewrite <- HD. apply Forall2_fmap_r. by apply Hst. }
  unfold lift. f_equal. rewrite HL.
  rewrite (has_shape_T3 bg x00 H W 1 Hbg) at 1.
  by rewrite overlay_pointwise_grey, overlay_pointwise.
Qed.

Lemma one_channel_background_is_grey_witness :
  combine_scene_image (RList [(empty_rgba, near_depth)].*1)
    (of3 [[[byte_of_Z 7]]]) (depth_arg_of false []) ∅
  = combine_scene_image (RList [(empty_rgba, near_depth)].*1)
      (T3 1 1 3 (λ i j _, nd_at x00 (of3 [[[byte_of_Z 7]]]) [i; j; 0%nat]))
      (depth_arg_of false []) ∅.
Proof.
  apply (one_channel_background_is_grey 1 1 false [(empty_rgba, near_depth)]
           [] (of3 [[[byte_of_Z 7]]]) ∅).
  - done.
  - repeat constructor.
  - reflexivity.
  - intros Hu. discriminate Hu.
Defined.

(** * Further properties of [get_scene_render] *)

Section camera_edges.
Context {Mesh Light : Type}.
Context (raymond_lights : list Light).
Context (render : scene Mesh Light → nat → nat
                  → ndarray byte * ndarray spec_float).

(** X13: A translation with two entries, or with more than three, cannot be
    written into the pose: the call raises [ValueError].  The negation of
    the first entry has been done by then, so the caller's array is left
    changed by a call that failed. *)
Theorem bad_translation_left_negated body_mesh width height center l focal
    σ t0 ts :
  σ !! l = Some (of1 (t0 :: ts)) → ts ≠ [] → length ts ≠ 2%nat →
  get_scene_render raymond_lights render body_mesh width height center l focal σ
  = (Raise ValueError, <[l := of1 (F32.mul t0 (F32.of_Z (-1)) :: ts)]> σ).
Proof.
  intros Hl Hne Hlen. unfold get_scene_render.
  erewrite run_bind; [|unfold load; by rewrite Hl].
  erewrite run_bind; [|done].
  erewrite run_bind; [|done].
  apply run_bind_raise. unfold lift. f_equal.
  destruct ts as [|t1 [|t2 [|t3 ts]]]; done.
Qed.

(** X14: A translation without entries, or one that is not an array of one
    axis at least, fails with [IndexError] at the negation, and nothing
    is changed. *)
Theorem empty_translation_raises body_mesh width height center l focal σ t :
  σ !! l = Some t → t = Ar [] ∨ (∃ x, t = Sc x) →
  get_scene_render raymond_lights render body_mesh width height center l focal σ
  = (Raise IndexError, σ).
Proof.
  intros Hl Ht. unfold get_scene_render.
  erewrite run_bind; [|unfold load; by rewrite Hl].
  apply run_bind_raise. unfold lift. f_equal.
  by destruct Ht as [->|[x ->]].
Qed.

(** X15: A principal point with fewer than two entries fails with
    [IndexError] when the camera is built, after the negation of the
    translation: the caller's array is left changed. *)
Theorem short_center_left_negated body_mesh width height cs l focal σ t0 t1 t2 :
  σ !! l = Some (of1 [t0; t1; t2]) → (length cs < 2)%nat →
  get_scene_render raymond_lights render body_mesh width height (of1 cs) l focal σ
  = (Raise IndexError,
     <[l := of1 [F32.mul t0 (F32.of_Z (-1)); t1; t2]]> σ).
Proof.
  intros Hl Hcs. unfold get_scene_render.
  erewrite run_bind; [|unfold load; by rewrite Hl].
  erewrite run_bind; [|done].
  erewrite run_bind; [|done].
  erewrite run_bind; [|done].
  destruct cs as [|cx [|cy cs]]; [done| |simpl in Hcs; lia].
  erewrite run_bind; [|done]. done.
Qed.

(** X16: A translation of shape (1, 3), as the fitting stage stores it, is
    negated as a whole: index 0 is its only row, so the call changes
    the sign of all three components in the caller's array and in the
    pose it renders with. *)
Theorem unsqueezed_translation_negated_whole body_mesh width height cx cy l
    focal σ t0 t1 t2 :
  σ !! l = Some (of2 [[t0; t1; t2]]) →
  valid_binary 24 128 t0 = true → valid_binary 24 128 t1 = true →
  valid_binary 24 128 t2 = true →
  get_scene_render raymond_lights render body_mesh width height
    (of1 [cx; cy]) l focal σ
  = (Ok (render (Scene body_mesh (Camera focal focal cx cy)
                   (camera_pose_of (SFopp t0, SFopp t1, SFopp t2))
                   raymond_lights) width height),
     <[l := of2 [[SFopp t0; SFopp t1; SFopp t2]]]> σ).
Proof.
  intros Hl H0 H1 H2. unfold get_scene_render.
  erewrite run_bind; [|unfold load; by rewrite Hl].
  erewrite run_bind; [|done].
  erewrite run_bind; [|done].
  cbn [nd_map fmap list_fmap of1].
  rewrite (f32_mul_neg1 t0 H0), (f32_mul_neg1 t1 H1), (f32_mul_neg1 t2 H2).
  erewrite run_bind; [|done].
  erewrite run_bind; [|done].
  erewrite run_bind; [|done].
  done.
Qed.
End camera_edges.

Lemma bad_translation_left_negated_witness :
  get_scene_render ([] : list unit) (λ s _ _, (Sc x00, scene_camera_pose s))
    () 640 480 ex_center 1%positive (fl 5000)
    {[ 1%positive := of1 [fl 3; fl 4] ]}
  = (Raise ValueError,
     <[1%positive := of1 (F32.mul (fl 3) (F32.of_Z (-1)) :: [fl 4])]>
       {[ 1%positive := of1 [fl 3; fl 4] ]}).
Proof.
  apply (bad_translation_left_negated ([] : list unit)
           (λ s _ _, (Sc x00, scene_camera_pose s)) () 640 480 ex_center
           1%positive (fl 5000) {[ 1%positive := of1 [fl 3; fl 4] ]}
           (fl 3) [fl 4]).
  - reflexivity.
  - done.
  - simpl. lia.
Defined.

Lemma empty_translation_raises_witness :
  get_scene_render ([] : list unit) (λ s _ _, (Sc x00, scene_camera_pose s))
    () 640 480 ex_center 1%positive (fl 5000) {[ 1%positive := Ar [] ]}
  = (Raise IndexError, {[ 1%positive := Ar [] ]}).
Proof.
  apply (empty_translation_raises ([] : list unit)
           (λ s _ _, (Sc x00, scene_camera_pose s)) () 640 480 ex_center
           1%positive (fl 5000) {[ 1%positive := Ar [] ]} (Ar [])).
  - reflexivity.
  - by left.
Defined.

Lemma short_center_left_negated_witness :
  get_scene_render ([] : list unit) (λ s _ _, (Sc x00, scene_camera_pose s))
    () 640 480 (of1 [fl 320]) 1%positive (fl 5000)
    {[ 1%positive := ex_translation ]}
  = (Raise IndexError,
     <[1%positive := of1 [F32.mul (fl 3) (F32.of_Z (-1)); fl 4; fl 5]]>
       {[ 1%positive := ex_translation ]}).
Proof.
  apply (short_center_left_negated ([] : list unit)
           (λ s _ _, (Sc x00, scene_camera_pose s)) () 640 480 [fl 320]
           1%positive (fl 5000) {[ 1%positive := ex_translation ]}
           (fl 3) (fl 4) (fl 5)).
  - reflexivity.
  - simpl. lia.
Defined.

Lemma unsqueezed_translation_negated_whole_witness :
  get_scene_render ([] : list unit) (λ s _ _, (Sc x00, scene_camera_pose s))
    () 640 480 (of1 [fl 320; fl 240]) 1%positive (fl 5000)
    {[ 1%positive := of2 [[fl 3; fl 4; fl 5]] ]}
  = (Ok (Sc x00, camera_pose_of (SFopp (fl 3), SFopp (fl 4), SFopp (fl 5))),
     <[1%positive := of2 [[SFopp (fl 3); SFopp (fl 4); SFopp (fl 5)]]]>
       {[ 1%positive := of2 [[fl 3; fl 4; fl 5]] ]}).
Proof.
  apply (unsqueezed_translation_negated_whole ([] : list unit)
           (λ s _ _, (Sc x00, scene_camera_pose s)) () 640 480
           (fl 320) (fl 240) 1%positive (fl 5000)
           {[ 1%positive := of2 [[fl 3; fl 4; fl 5]] ]} (fl 3) (fl 4) (fl 5)).
  - reflexivity.
  - reflexivity.
  - reflexivity.
  - reflexivity.
Defined.

(** * Properties of [main] *)

(** ** Paths *)

Lemma str_take_drop n s : str_take n s +:+ str_drop n s = s.
Proof.
  revert s. induction n as [|n IH]; intros s; [done|].
  destruct s as [|a s]; [done|].
  change (String a (str_take n s +:+ str_drop n s) = String a s).
  f_equal. apply IH.
Qed.

Lemma append_empty_r s : s +:+ "" = s.
Proof.
  induction s as [|a s IH]; [done|].
  change (String a (s +:+ "") = String a s). f_equal. apply IH.
Qed.

Lemma splitext_append p : (splitext p).1 +:+ (splitext p).2 = p.
Proof.
  unfold splitext. destruct (_ && _); simpl.
  - apply str_take_drop.
  - apply append_empty_r.
Qed.

(** X17: The images that [main] processes are the entries whose name ends
    in [.png] or [.jpg], in lower case; the name of the mesh folder of
    an image is the name of the image without these four characters. *)
Theorem processed_image_names file :
  is_image file = true →
  file = (splitext file).1 +:+ ".png" ∨ file = (splitext file).1 +:+ ".jpg".
Proof.
  intros Himg. unfold is_image in Himg. simpl in Himg.
  pose proof (splitext_append file) as Hfile.
  destruct (String.eqb_spec (splitext file).2 ".png") as [Hpng|_].
  - left. by rewrite Hpng in Hfile.
  - destruct (String.eqb_spec (splitext file).2 ".jpg") as [Hjpg|_]; [|done].
    right. by rewrite Hjpg in Hfile.
Qed.

Lemma processed_image_names_witness :
  "img_01.png" = (splitext "img_01.png").1 +:+ ".png"
  ∨ "img_01.png" = (splitext "img_01.png").1 +:+ ".jpg".
Proof.
  apply (processed_image_names "img_01.png"). reflexivity.
Defined.

Lemma rfind_ge c s : -1 ≤ rfind c s.
Proof.
  induction s as [|a s IH]; [done|]. cbn [rfind].
  destruct (Z.eqb_spec (rfind c s) (-1)); [|lia]. destruct (Ascii.eqb a c); lia.
Qed.

Lemma rfind_app_found c s t :
  rfind c t = -1 → rfind c (s +:+ String c t) = Z.of_nat (String.length s).
Proof.
  intros Ht. induction s as [|a s IH].
  - change (rfind c (String c t) = 0). cbn [rfind].
    by rewrite Ht, Z.eqb_refl, Ascii.eqb_refl.
  - change (rfind c (String a (s +:+ String c t)) = Z.of_nat (S (String.length s))).
    cbn [rfind]. rewrite IH.
    destruct (Z.eqb_spec (Z.of_nat (String.length s)) (-1)); lia.
Qed.

Lemma rfind_app_none c s t :
  rfind c s = -1 → rfind c t = -1 → rfind c (s +:+ t) = -1.
Proof.
  intros Hs Ht. induction s as [|a s IH]; [done|].
  change (rfind c (String a (s +:+ t)) = -1). cbn [rfind] in *.
  pose proof (rfind_ge c s).
  destruct (Z.eqb_spec (rfind c s) (-1)) as [Hs'|]; [|lia].
  rewrite (IH Hs'). by rewrite Z.eqb_refl.
Qed.

Lemma str_take_app s t : str_take (String.length s) (s +:+ t) = s.
Proof.
  induction s as [|a s IH]; [by destruct t|].
  change (String a (str_take (String.length s) (s +:+ t)) = String a s).
  by rewrite IH.
Qed.

Lemma str_drop_app s t : str_drop (String.length s) (s +:+ t) = t.
Proof. induction s as [|a s IH]; [by destruct t|]. exact IH. Qed.

(** A file name without a directory part that does not begin with a
    dot is split at its last dot. *)
Lemma splitext_plain_name a stem ext :
  a ≠ "."%char → rfind "/" (String a stem) = -1 →
  rfind "/" ext = -1 → rfind "." ext = -1 →
  splitext (String a stem +:+ String "." ext) = (String a stem, String "." ext).
Proof.
  intros Ha Hstem Hext Hdot. unfold splitext.
  rewrite (rfind_app_none "/" (String a stem) (String "." ext) Hstem)
    by (cbn [rfind]; by rewrite Hext).
  rewrite (rfind_app_found "." (String a stem) ext Hdot).
  set (n := String.length (String a stem)).
  replace (Z.to_nat (Z.of_nat n)) with n by lia.
  replace (Z.to_nat (-1 + 1)) with 0%nat by lia.
  replace (Z.to_nat (Z.of_nat n - (-1 + 1))) with n by lia.
  assert ((-1 <? Z.of_nat n) = true) as -> by (apply Z.ltb_lt; lia).
  assert (skip_dots (String a stem +:+ String "." ext) 0 n = true) as ->.
  { unfold n. cbn [String.length skip_dots].
    change (String.get 0 (String a stem +:+ String "." ext)) with (Some a).
    cbv beta iota. destruct (Ascii.eqb_spec a "."); done. }
  cbn [andb]. unfold n. by rewrite str_take_app, str_drop_app.
Qed.

(** X18: An entry of the image folder is processed if its name does not
    begin with a dot, ends in [.png] or [.jpg] and holds no other dot
    after that and no directory separator; its mesh folder is looked
    up under the name without the ending. *)
Theorem plain_image_is_processed a stem ext :
  a ≠ "."%char → rfind "/" (String a stem) = -1 →
  ext = "png" ∨ ext = "jpg" →
  is_image (String a stem +:+ String "." ext) = true
  ∧ (splitext (String a stem +:+ String "." ext)).1 = String a stem.
Proof.
  intros Ha Hstem Hext. unfold is_image.
  rewrite splitext_plain_name; [|done|done|by destruct Hext as [-> | ->]..].
  split; [|done]. by destruct Hext as [-> | ->].
Qed.

Lemma plain_image_is_processed_witness :
  is_image (String "i" "mg_01" +:+ String "." "jpg") = true
  ∧ (splitext (String "i" "mg_01" +:+ String "." "jpg")).1 = String "i" "mg_01".
Proof.
  apply (plain_image_is_processed "i" "mg_01" "jpg").
  - discriminate.
  - reflexivity.
  - by right.
Defined.

(** ** Commands that are never issued *)

Section never_lemmas.
Context {E : Type → Type} (P : ∀ X, E X → Prop).

Lemma never_prog_bind {A B} (m : prog E A) (f : A → prog E B) :
  never P m → (∀ x, never P (f x)) → never P (prog_bind f m).
Proof.
  intros Hm Hf. induction m as [x|e|X c k IH]; [apply Hf|done|].
  destruct Hm as [Hc Hk]. split; [done|]. intros x. by apply IH.
Qed.

Lemma never_bind {A B} (m : task E A) (f : A → task E B) σ :
  never P (m σ) → (∀ x σ', never P (f x σ')) → never P ((m ≫= f) σ).
Proof. intros Hm Hf. apply never_prog_bind; [done|]. intros [x σ']. apply Hf. Qed.

Lemma never_ret {A} (x : A) σ : never P (mret (M := task E) x σ).
Proof. done. Qed.

Lemma never_raise {A} e σ : never P (raise (A := A) (E := E) e σ).
Proof. done. Qed.

Lemma never_call {X} (c : E X) σ : ¬ P X c → never P (call c σ).
Proof. by split. Qed.

Lemma never_run_py {A} (m : py A) σ : never P (run_py (E := E) m σ).
Proof. unfold run_py. by destruct (m σ) as [[x|e] σ']. Qed.

Lemma never_when b (m : task E unit) σ :
  (b = true → never P (m σ)) → never P (when b m σ).
Proof. intros Hm. destruct b; [by apply Hm|done]. Qed.

Lemma never_getitem d key σ : never P (getitem (E := E) d key σ).
Proof. unfold getitem. by destruct (d !! key). Qed.

Lemma never_for_each {A} (body : A → task E unit) l σ :
  (∀ x σ', never P (body x σ')) → never P (for_each body l σ).
Proof.
  intros Hbody. revert σ. induction l as [|x l IH]; intros σ; [done|].
  apply never_bind; [apply Hbody|]. intros _ σ'. apply IH.
Qed.

Lemma never_fold_each {A S} (body : S → A → task E S) l s σ :
  (∀ s x σ', never P (body s x σ')) → never P (fold_each body l s σ).
Proof.
  intros Hbody. revert s σ. induction l as [|x l IH]; intros s σ; [done|].
  apply never_bind; [apply Hbody|]. intros s' σ'. apply IH.
Qed.
End never_lemmas.

Ltac never_step :=
  lazymatch goal with
  | |- never _ (mret _ _) => apply never_ret
  | |- never _ (raise _ _) => apply never_raise
  | |- never _ (run_py _ _) => apply never_run_py
  | |- never _ (getitem _ _ _) => apply never_getitem
  | |- never _ (call _ _) => apply never_call
  | |- never _ (when _ _ _) => apply never_when; intros ?
  | |- never _ ((_ ≫= _) _) => apply never_bind; [|intros ? ?]
  | |- never _ (match ?x with _ => _ end _) => destruct x eqn:?
  end.

Section main_never.
Context {Mesh Light : Type}.
Context (raymond_lights : list Light).
Context (render : scene Mesh Light → nat → nat
                  → ndarray byte * ndarray spec_float).
Context (P : ∀ X, cmd Mesh X → Prop).
Context (a : args).

(** what [P] has to leave out for [main] never to issue it *)
Context (Hlistdir : ∀ path, ¬ P _ (Listdir path)).
Context (Hexists : ∀ path, ¬ P _ (PathExists path)).
Context (Hopen : ∀ path, ¬ P _ (ImageOpen path)).
Context (Hpickle : ∀ path, ¬ P _ (PickleLoad path)).
Context (Htrimesh : ∀ path, ¬ P _ (TrimeshLoad path)).
Context (Hprint : ∀ msg, ¬ P _ (Print msg)).
Context (Hmkdir : ¬ P _ (Makedirs (args_output a))).
Context (Hcopy : ∀ src name,
           args_copy_empty a = true →
           ¬ P _ (ShutilCopy src (join (args_output a) [name]))).
Context (Hshow : ∀ img title, args_show_results a = true → ¬ P _ (PltShow img title)).
Context (Hsave : ∀ img name,
           args_no_save a = false →
           ¬ P _ (ImageSave img (join (args_output a) [name]))).

Ltac never_leaf :=
  first [ apply Hlistdir | apply Hexists | apply Hopen | apply Hpickle
        | apply Htrimesh | apply Hprint | apply Hmkdir
        | apply Hcopy; assumption | apply Hshow; assumption
        | apply Hsave; by destruct (args_no_save a) ].

Lemma never_process_person mf rf image_name img acc person σ :
  never P (process_person raymond_lights render a mf rf image_name img acc person σ).
Proof.
  unfold process_person, read_pickle_file, load_mesh, show.
  repeat never_step; never_leaf.
Qed.

Lemma never_process_image mf rf image σ :
  never P (process_image raymond_lights render a mf rf image σ).
Proof.
  unfold process_image, load_image, show.
  repeat never_step;
    first [ never_leaf
          | apply never_fold_each; intros; apply never_process_person ].
Qed.

Lemma never_main σ : never P (main raymond_lights render a σ).
Proof.
  unfold main. repeat never_step; try never_leaf.
  apply never_for_each. intros. apply never_process_image.
Qed.
End main_never.

(** A command that is never issued is in no run of the program. *)
Lemma never_exec {E A} (P : ∀ X, E X → Prop) (h : ∀ X, E X → option X)
    (p : prog E A) :
  never P p → Forall (λ i, ¬ P (projT1 i) (projT2 i)) (exec h p).1.
Proof.
  induction p as [x|e|X c k IH]; intros Hp; [constructor..|].
  destruct Hp as [Hc Hk]. cbn [exec]. destruct (h X c) as [x|].
  - specialize (IH x (Hk x)). destruct (exec h (k x)) as [t r].
    by constructor.
  - by repeat constructor.
Qed.

Section main_commands.
Context {Mesh Light : Type}.
Context (raymond_lights : list Light).
Context (render : scene Mesh Light → nat → nat
                  → ndarray byte * ndarray spec_float).

(** X19: With [--no_save] the program saves no image, whatever the folders
    hold and whatever the other options are. *)
Theorem no_save_never_saves a σ :
  args_no_save a = true →
  never (λ X c, is_save c) (main raymond_lights render a σ).
Proof.
  intros Hno. apply never_main; try (intros; exact id).
  intros img name Hsave. by rewrite Hno in Hsave.
Qed.

(** X20: Without [--show_results] the program opens no window. *)
Theorem no_window_without_show_results a σ :
  args_show_results a = false →
  never (λ X c, is_show c) (main raymond_lights render a σ).
Proof.
  intros Hno. apply never_main; try (intros; exact id).
  intros img title Hshow. by rewrite Hno in Hshow.
Qed.


(** X22: The option [--focal_length] has no effect: the program is the
    same whatever its value is, since the option is not read and the
    persons are rendered with the default focal length of
    [get_scene_render]. *)
Theorem focal_length_is_ignored a f σ :
  main raymond_lights render
    (Args (args_data a) (args_images a) (args_output a) f (args_copy_empty a)
       (args_show_results a) (args_no_save a) (args_verbosity a)
       (args_save_per_person a) (args_no_depth a)) σ
  = main raymond_lights render a σ.
Proof. by destruct a. Qed.
End main_commands.

Lemma no_save_never_saves_witness :
  never (λ X c, is_save c) (main ([] : list unit) blank_render quiet_args ∅).
Proof.
  apply (no_save_never_saves ([] : list unit) blank_render quiet_args ∅).
  reflexivity.
Defined.

Lemma no_window_without_show_results_witness :
  never (λ X c, is_show c) (main ([] : list unit) blank_render ex_args ∅).
Proof.
  apply (no_window_without_show_results ([] : list unit) blank_render ex_args ∅).
  reflexivity.
Defined.

(** ** How the program ends *)

Section always_lemmas.
Context {E : Type → Type} (ok : ∀ X, E X → X → Prop).

Lemma always_prog_bind {A B} (m : prog E A) (f : A → prog E B) Q :
  always ok (λ o, match o with
                  | inr x => always ok Q (f x)
                  | inl e => Q (inl e)
                  end) m →
  always ok Q (prog_bind f m).
Proof.
  induction m as [x|e|X c k IH]; [done|done|].
  intros Hm x Hx. apply IH, Hm, Hx.
Qed.

Lemma always_bind {A B} (m : task E A) (f : A → task E B) σ Q :
  always ok (λ o, match o with
                  | inr r => always ok Q (f r.1 r.2)
                  | inl e => Q (inl e)
                  end) (m σ) →
  always ok Q ((m ≫= f) σ).
Proof. intros Hm. by apply always_prog_bind. Qed.

Lemma always_mono {A} (p : prog E A) (Q Q' : failure + A → Prop) :
  (∀ o, Q o → Q' o) → always ok Q p → always ok Q' p.
Proof.
  intros HQ. induction p as [x|e|X c k IH]; [apply HQ..|].
  intros Hp x Hx. apply IH, Hp, Hx.
Qed.

Lemma always_call_bind {X B} (c : E X) (f : X → task E B) σ Q :
  (∀ x, ok X c x → always ok Q (f x σ)) → always ok Q ((call c ≫= f) σ).
Proof. intros Hf x Hx. by apply Hf. Qed.

Lemma always_call {X} (c : E X) σ (Q : failure + (X * store) → Prop) :
  (∀ x, ok X c x → Q (inr (x, σ))) → always ok Q (call c σ).
Proof. intros Hf x Hx. by apply Hf. Qed.

Lemma always_run_py_bind {A B} (m : py A) (f : A → task E B) σ Q x σ' :
  m σ = (Ok x, σ') → always ok Q (f x σ') →
  always ok Q ((run_py m ≫= f) σ).
Proof.
  intros Hm Hf. unfold mbind, task_bind, run_py. by rewrite Hm.
Qed.

Lemma always_run_py_raise {A B} (m : py A) (f : A → task E B) σ
    (Q : failure + (B * store) → Prop) e σ' :
  m σ = (Raise e, σ') → Q (inl (Exn e)) →
  always ok Q ((run_py m ≫= f) σ).
Proof.
  intros Hm Hf. unfold mbind, task_bind, run_py. by rewrite Hm.
Qed.

Lemma always_ret {A} (x : A) σ (Q : failure + (A * store) → Prop) :
  Q (inr (x, σ)) → always ok Q (mret (M := task E) x σ).
Proof. done. Qed.

Lemma always_when_bind {B} b (m : task E unit) (f : unit → task E B) σ Q :
  (b = true → always ok Q ((m ≫= f) σ)) →
  (b = false → always ok Q (f () σ)) →
  always ok Q ((when b m ≫= f) σ).
Proof. intros Ht Hf. destruct b; [by apply Ht|by apply Hf]. Qed.
Lemma always_when b (m : task E unit) σ (Q : failure + (unit * store) → Prop) :
  (b = true → always ok Q (m σ)) → (b = false → Q (inr ((), σ))) →
  always ok Q (when b m σ).
Proof. intros Ht Hf. destruct b; [by apply Ht|by apply Hf]. Qed.

Lemma always_for_each {A} (body : A → task E unit) l σ
    (Q : failure + (unit * store) → Prop) :
  (∀ σ', Q (inr ((), σ'))) →
  (∀ x σ', always ok Q (body x σ')) →
  always ok Q (for_each body l σ).
Proof.
  intros Hret Hbody. revert σ. induction l as [|x l IH]; intros σ; [apply Hret|].
  change (for_each body (x :: l) σ)
    with ((body x ≫= λ _, for_each body l) σ).
  apply always_bind. eapply always_mono; [|apply Hbody].
  intros [e|r] Ho; [done|]. apply IH.
Qed.
End always_lemmas.

(** ** Objects of the store *)

Lemma alloc_run a σ :
  alloc a σ = (Ok (fresh (dom σ)), <[fresh (dom σ) := a]> σ)
  ∧ σ !! fresh (dom σ) = None.
Proof. split; [done|]. apply not_elem_of_dom, is_fresh. Qed.

Lemma lookups_insert_fresh (σ : store) l a locs (ds : list (ndarray spec_float)) :
  σ !! l = None →
  Forall2 (λ k d, σ !! k = Some d) locs ds →
  Forall2 (λ k d, <[l := a]> σ !! k = Some d) locs ds.
Proof.
  intros Hl Hst. eapply Forall2_impl; [exact Hst|].
  intros k d Hk. rewrite lookup_insert_ne; [done|]. intros Heq.
  subst. congruence.
Qed.

(** ** The calls of [main] *)

Section calls.
Context {Mesh Light : Type}.
Context (raymond_lights : list Light).
Context (render : scene Mesh Light → nat → nat
                  → ndarray byte * ndarray spec_float).

Lemma get_scene_render_ok body_mesh width height cx cy cs l focal σ t0 t1 t2 :
  σ !! l = Some (of1 [t0; t1; t2]) →
  get_scene_render raymond_lights render body_mesh width height
    (of1 (cx :: cy :: cs)) l focal σ
  = (Ok (render (Scene body_mesh (Camera focal focal cx cy)
                   (camera_pose_of (F32.mul t0 (F32.of_Z (-1)), t1, t2))
                   raymond_lights) width height),
     <[l := of1 [F32.mul t0 (F32.of_Z (-1)); t1; t2]]> σ).
Proof.
  intros Hl. unfold get_scene_render.
  erewrite run_bind; [|unfold load; by rewrite Hl].
  erewrite run_bind; [|done].
  erewrite run_bind; [|done].
  erewrite run_bind; [|done].
  erewrite run_bind; [|done].
  erewrite run_bind; [|done].
  done.
Qed.
End calls.

Lemma size_of_image (img : ndarray byte) H W C :
  (0 < H)%nat → (0 < W)%nat → has_shape [H; W; C] img = true →
  size img = (W, H).
Proof.
  intros HH HW Himg. unfold size.
  by destruct (shape_of_has_shape3 img H W C HH HW Himg) as [-> _].
Qed.

(** A call on layers and depth buffers of the size of the image
    returns an image. *)
Lemma combine_lists_ok H W use_depth (rs : list (ndarray byte))
    (depths : list (ndarray spec_float)) ds img σ :
  rs ≠ [] → Forall (λ r, has_shape [H; W; 4%nat] r = true) rs →
  has_shape [H; W; 3%nat] img = true →
  (use_depth = true →
     length depths = length rs
     ∧ Forall (λ d, has_shape [H; W] d = true) depths
     ∧ Forall2 (λ l d, σ !! l = Some d) ds depths) →
  ∃ out, combine_scene_image (RList rs) img (depth_arg_of use_depth ds) σ
         = (Ok out, σ).
Proof.
  intros Hne Hrs Himg Hd.
  set (depths' := if use_depth then depths
                  else replicate (length rs) (T2 H W (λ _ _, fzero))).
  assert (length depths' = length rs) as Hlen.
  { unfold depths'. destruct use_depth; [by apply Hd|]. by rewrite length_replicate. }
  assert (Forall (λ d, has_shape [H; W] d = true) depths') as Hshapes.
  { unfold depths'. destruct use_depth; [by apply Hd|].
    apply Forall_replicate, has_shape_of_T2. }
  set (b := zip rs depths').
  assert (b.*1 = rs) as Hb1 by (apply fst_zip; lia).
  assert (b.*2 = depths') as Hb2 by (apply snd_zip; lia).
  exists (composite H W use_depth b img). rewrite <- Hb1.
  apply combine_scene_image_composite; [| |done|].
  - intros Hnil. rewrite Hnil in Hb1. by rewrite <- Hb1 in Hne.
  - unfold rasters. apply Forall_forall. intros [r d] Hin.
    apply elem_of_zip_l in Hin as Hr. apply elem_of_zip_r in Hin as Hd'.
    rewrite Forall_forall in Hrs. rewrite Forall_forall in Hshapes.
    split; [by apply Hrs|by apply Hshapes].
  - intros Hu. unfold stored.
    assert (Forall2 (λ l d, σ !! l = Some d) ds b.*2) as Hst.
    { rewrite Hb2. unfold depths'. rewrite Hu. by apply Hd. }
    apply Forall2_fmap_r in Hst. exact Hst.
Qed.

Lemma ret_bind_run {E A B} (x : A) (f : A → task E B) σ :
  (mret x ≫= f) σ = f x σ.
Proof. done. Qed.

Section main_runs.
Context {Mesh Light : Type}.
Context (raymond_lights : list Light).
Context (render : scene Mesh Light → nat → nat
                  → ndarray byte * ndarray spec_float).
Context (Hrender : viewport_sized render).
Context (a : args).

Lemma process_person_gathers H W mf rf image_name img acc person σ :
  (0 < H)%nat → (0 < W)%nat → has_shape [H; W; 3%nat] img = true →
  gathered a H W acc σ →
  always (well_formed a)
    (λ o, match o with
          | inr r => gathered a H W r.1 r.2
                     ∧ length r.1.1 = S (length acc.1)
          | inl _ => False
          end)
    (process_person raymond_lights render a mf rf image_name img acc person σ).
Proof.
  intros HH HW Himg [Hrs Hds]. destruct acc as [rs ds]. cbn [fst snd] in *.
  unfold process_person, read_pickle_file, load_mesh.
  apply always_call_bind.
  intros d [(cx & cy & cs & Hc) (t0 & t1 & t2 & Ht)].
  apply always_call_bind. intros body_mesh _.
  unfold getitem. rewrite Hc, ret_bind_run.
  assert (∃ t, d !! "camera_translation" = Some t
               ∧ squeeze t = of1 [t0; t1; t2]) as (t & -> & Hsq).
  { destruct Ht as [Ht|Ht]; eexists; (split; [exact Ht|done]). }
  rewrite ret_bind_run, Hsq.
  destruct (alloc_run (of1 [t0; t1; t2]) σ) as [Hal Hfresh].
  eapply always_run_py_bind; [exact Hal|].
  set (lt := fresh (dom σ)) in *.
  eapply always_run_py_bind.
  { apply get_scene_render_ok. apply lookup_insert_eq. }
  rewrite insert_insert_eq.
  rewrite (size_of_image img H W 3 HH HW Himg). cbn [fst snd].
  match goal with |- context [render ?s W H] =>
    pose proof (Hrender s W H) as [Hcol Hdep];
    destruct (render s W H) as [scene_rgba depth] end.
  cbn [fst snd] in Hcol, Hdep.
  set (σ1 := <[lt := of1 [F32.mul t0 (F32.of_Z (-1)); t1; t2]]> σ).
  assert (Forall (λ r, has_shape [H; W; 4%nat] r = true) (rs ++ [scene_rgba]))
    as Hrs'.
  { apply Forall_app. split; [done|]. by constructor. }
  match goal with |- always _ ?Q ((_ ≫= ?f) _) =>
    assert (∀ dm darg σ2,
              gathered a H W (rs ++ [scene_rgba], dm) σ2 →
              (∃ out, combine_scene_image (RList [scene_rgba]) img darg σ2
                      = (Ok out, σ2)) →
              always (well_formed a) Q (f (dm, darg) σ2)) as Htail end.
  { intros dm darg σ2 Hg [out Hout]. cbv beta iota.
    destruct (args_save_per_person a); cbn [negb]; cbv iota.
    - eapply always_run_py_bind; [exact Hout|].
      apply always_when_bind; intros _.
      + unfold show. apply always_call_bind. intros [] _.
        apply always_when_bind; intros _.
        * apply always_call_bind. intros [] _.
          split; [done|]. cbn [fst snd]. rewrite length_app. simpl. lia.
        * split; [done|]. cbn [fst snd]. rewrite length_app. simpl. lia.
      + apply always_when_bind; intros _.
        * apply always_call_bind. intros [] _.
          split; [done|]. cbn [fst snd]. rewrite length_app. simpl. lia.
        * split; [done|]. cbn [fst snd]. rewrite length_app. simpl. lia.
    - split; [done|]. cbn [fst snd]. rewrite length_app. simpl. lia. }
  destruct (args_no_depth a) eqn:Hnd; cbn [negb]; cbv iota.
  - rewrite ret_bind_run. apply Htail.
    + split; [done|]. intros Hno. by rewrite Hnd in Hno.
    + apply (combine_lists_ok H W false [scene_rgba] [] []); try done.
      by constructor.
  - apply always_bind.
    destruct (alloc_run depth σ1) as [Hal1 Hfresh1].
    eapply always_run_py_bind; [exact Hal1|].
    set (ld := fresh (dom σ1)) in *.
    apply always_ret. cbv beta iota. cbn [fst snd].
    destruct (Hds eq_refl) as (depths & Hlen & Hshapes & Hst).
    assert (Forall2 (λ l d, <[ld := depth]> σ1 !! l = Some d) ds depths) as Hst'.
    { apply lookups_insert_fresh; [done|].
      unfold σ1. by apply lookups_insert_fresh. }
    apply Htail.
    + split; [done|]. intros _. exists (depths ++ [depth]). cbn [fst snd].
      split; [rewrite !length_app; simpl; lia|].
      split; [apply Forall_app; split; [done|by constructor]|].
      apply Forall2_app; [done|]. constructor; [|done].
      by rewrite lookup_insert_eq.
    + apply (combine_lists_ok H W true [scene_rgba] [depth] [ld]); try done.
      * by constructor.
      * intros _. repeat split; [by constructor|].
        constructor; [|done]. by rewrite lookup_insert_eq.
Qed.

Lemma persons_gathered H W mf rf image_name img persons acc σ :
  (0 < H)%nat → (0 < W)%nat → has_shape [H; W; 3%nat] img = true →
  gathered a H W acc σ →
  always (well_formed a)
    (λ o, match o with
          | inr r => gathered a H W r.1 r.2
                     ∧ length r.1.1 = (length acc.1 + length persons)%nat
          | inl _ => False
          end)
    (fold_each (process_person raymond_lights render a mf rf image_name img)
       persons acc σ).
Proof.
  intros HH HW Himg. revert acc σ.
  induction persons as [|person persons IH]; intros acc σ Hacc.
  - apply always_ret. split; [done|]. simpl. lia.
  - change (fold_each ?body (person :: persons) acc σ)
      with ((body acc person ≫= λ s', fold_each body persons s') σ).
    apply always_bind.
    eapply always_mono; [|by apply (process_person_gathers H W)].
    intros [e|r]; [done|]. intros [Hg Hl].
    eapply always_mono; [|by apply IH].
    intros [e|r']; [done|]. intros [Hg' Hl']. split; [done|].
    rewrite Hl', Hl. simpl. lia.
Qed.

Lemma process_image_completes mf rf image σ :
  always (well_formed a) completes
    (process_image raymond_lights render a mf rf image σ).
Proof.
  unfold process_image, load_image.
  apply always_call_bind. intros found _. destruct found; cbn [negb]; cbv iota.
  2:{ apply always_when_bind; intros _.
      - apply always_call_bind. intros [] _.
        apply always_when; intros _; [|done]. by apply always_call.
      - apply always_when; intros _; [|done]. by apply always_call. }
  apply always_call_bind. intros persons_meshes Hpm.
  apply always_call_bind. intros persons_results _.
  apply always_call_bind. intros img (H & W & HH & HW & Himg).
  destruct (negb _); [done|].
  apply always_bind.
  eapply always_mono;
    [|apply (persons_gathered H W); [done|done|done|]].
  2:{ split; [constructor|]. intros _. exists []. by repeat split. }
  intros [e|[[rs ds] σ']]; [done|]. cbn [fst snd].
  intros [[Hrs Hds] Hlen]. cbn [fst snd length] in *.
  destruct ((1 <? length rs)%nat || negb (args_save_per_person a)) eqn:Hcond;
    [|done].
  assert (rs ≠ []) as Hne.
  { intros ->. simpl in Hlen. destruct persons_meshes; [|simpl in Hlen; lia].
    destruct Hpm as [?|Hsp]; [done|]. rewrite Hsp in Hcond. done. }
  assert (∃ out, combine_scene_image (RList rs) img
                   (if args_no_depth a then None else Some (DList ds)) σ'
                 = (Ok out, σ')) as [out Hout].
  { destruct (args_no_depth a).
    - by apply (combine_lists_ok H W false rs [] ds).
    - destruct (Hds eq_refl) as (depths & Hl & Hsh & Hst).
      by apply (combine_lists_ok H W true rs depths ds). }
  eapply always_run_py_bind; [exact Hout|].
  unfold show. apply always_when_bind; intros _.
  - apply always_call_bind. intros [] _.
    apply always_when; intros _; [|done]. by apply always_call.
  - apply always_when; intros _; [|done]. by apply always_call.
Qed.

(** X23: If every image of the folder is an RGB image, the renderer returns
    rasters of the size it is asked for and every pickled result holds a
    principal point and a translation of three components, then the
    program hands consistent arguments to [get_scene_render] and to
    [combine_scene_image]: whatever else the folders hold, none of the
    array operations fails, and the program ends normally or with the
    assertion on the number of persons. *)
Theorem main_completes σ :
  always (well_formed a) completes (main raymond_lights render a σ).
Proof.
  unfold main.
  apply always_call_bind. intros files _.
  apply always_call_bind. intros [] _.
  apply always_for_each; [done|]. intros image σ'.
  apply process_image_completes.
Qed.
End main_runs.

Lemma main_completes_witness :
  always (well_formed ex_args) completes
    (main ([] : list unit) blank_render ex_args ∅).
Proof.
  apply (main_completes ([] : list unit) blank_render).
  intros s width height. split; [apply has_shape_pos_T3|apply has_shape_of_T2].
Defined.

Section main_fails.
Context {Mesh Light : Type}.
Context (raymond_lights : list Light).
Context (render : scene Mesh Light → nat → nat
                  → ndarray byte * ndarray spec_float).

(** X24: Unless the persons are saved one by one, an image whose mesh
    folder exists and is empty ends the program: the compositor is
    called without layers and raises [ValueError] at the minimum of no
    depth buffer or, with [--no_depth], [IndexError] at the sum of no
    mask. *)
Theorem empty_mesh_folder_fails a mf rf image σ :
  args_save_per_person a = false →
  always empty_folder
    (λ o, o = inl (Exn (if args_no_depth a then IndexError else ValueError)))
    (process_image raymond_lights render a mf rf image σ).
Proof.
  intros Hsp. unfold process_image, load_image.
  apply always_call_bind. intros found ->. cbn [negb].
  apply always_call_bind. intros persons_meshes ->.
  apply always_call_bind. intros persons_results ->.
  apply always_call_bind. intros img _.
  cbn [length Nat.eqb negb fold_each]. rewrite ret_bind_run, Hsp.
  cbn [length negb orb Nat.ltb Nat.leb].
  destruct (args_no_depth a); by eapply always_run_py_raise.
Qed.
End main_fails.

Lemma empty_mesh_folder_fails_witness :
  always empty_folder
    (λ o, o = inl (Exn (if args_no_depth quiet_args then IndexError else ValueError)))
    (process_image ([] : list unit) blank_render quiet_args "fits/meshes"
       "fits/results" "img_01.png" ∅).
Proof.
  apply (empty_mesh_folder_fails ([] : list unit) blank_render quiet_args).
  reflexivity.
Defined.
